(** * Recitation-analysis kernel: MFCC front end, DTW aligner, HMM decoder

    A shallow embedding of [src/wasm/audio_processor.cpp], [src/wasm/dtw.cpp]
    and [src/wasm/hmm.cpp], and the properties of the specification that are
    settled on it.

    Conventions of the embedding.
    - [double] is IEEE binary64, Rocq's primitive [float]; [+], [*], [/],
      [sqrt] and the comparisons are the hardware operations, so rounding,
      infinities, NaN and signed zeros behave as in the compiled code.
    - [int] is [Z]; the build target is 32-bit WebAssembly, and the
      additions of the sources that can leave the [int] range are written
      with their wrap-around ([wrap_int]), the comparisons of an [int] with a
      [size_t] with the conversion to unsigned ([to_size_t]).  Integer
      division is [Z.quot], as in C++.
    - [std::vector<T>] is [list T].  [operator[]] is a checked access in the
      option monad: [None] stands for a call that does not return normally
      (the undefined behaviour of an access outside a vector, the exception
      of a vector constructed with a negative size, or a loop that never
      ends), so [f x = Some y] says that [f] ran on [x] without any such
      event and returned [y].
    - The functions of [<cmath>] that are not IEEE arithmetic ([exp], [log],
      [log10], [pow], [cos], [sin], [floor]) are the methods of a class
      [Cmath]; the programs are parameterised by an instance. *)

From Stdlib Require Import ZArith Lia Floats.
From stdpp Require Import base option list.

Set Default Proof Using "Type".
Set Warnings "-inexact-float".
Local Open Scope Z_scope.

(** * Part I: the programs *)

(** ** Doubles and ints *)

Abbreviation double := float (only parsing).

#[global] Instance double_inhabited : Inhabited double := populate 0%float.

(** [a > b] and [a != b] of C++, through the primitive comparisons. *)
Definition fgt (a b : double) : bool := (b <? a)%float.
Definition fne (a b : double) : bool := negb (a =? b)%float.

(** [std::min(a, b)] is [(b < a) ? b : a]. *)
Definition std_min (a b : double) : double := if (b <? a)%float then b else a.

Definition INT_MIN : Z := - 2 ^ 31.
Definition INT_MAX : Z := 2 ^ 31 - 1.

(** Two's-complement wrap-around of a 32-bit [int]. *)
Definition wrap_int (z : Z) : Z := (z + 2 ^ 31) mod 2 ^ 32 - 2 ^ 31.

(** Conversion of an [int] to the unsigned 32-bit [size_t]. *)
Definition to_size_t (z : Z) : Z := z mod 2 ^ 32.

(** Conversion [int -> double] (exact on the [int] range). *)
Definition double_of_int (z : Z) : double :=
  if z <? 0 then (- of_uint63 (Uint63.of_Z (- z)))%float
  else of_uint63 (Uint63.of_Z z).

(** [static_cast<int>(x)]: truncation toward zero; undefined for NaN,
    infinities and values outside the [int] range. *)
Definition double_to_int (x : double) : option Z :=
  match Prim2SF x with
  | S754_zero _ => Some 0
  | S754_finite s m e =>
      let a := if 0 <=? e then Z.pos m * 2 ^ e else Z.pos m / 2 ^ (- e) in
      let v := if s then - a else a in
      if (INT_MIN <=? v) && (v <=? INT_MAX) then Some v else None
  | _ => None
  end.

(** The functions of [<cmath>] the sources call. *)
Class Cmath := {
  exp : double → double;
  log : double → double;
  log10 : double → double;
  pow : double → double → double;
  cos : double → double;
  sin : double → double;
  floor : double → double
}.

(** ** Vectors and loops *)

Definition vsize {A} (v : list A) : Z := Z.of_nat (length v).

(** [v[i]] as an rvalue. *)
Definition vget {A} (v : list A) (i : Z) : option A :=
  if 0 <=? i then v !! Z.to_nat i else None.

(** [v[i] = x]. *)
Definition vset {A} (v : list A) (i : Z) (x : A) : option (list A) :=
  if (0 <=? i) && (i <? vsize v) then Some (<[Z.to_nat i := x]> v) else None.

(** [M[i][j]] and [M[i][j] = x] on a vector of vectors. *)
Definition vget2 {A} (M : list (list A)) (i j : Z) : option A :=
  row ← vget M i; vget row j.

Definition vset2 {A} (M : list (list A)) (i j : Z) (x : A) : option (list (list A)) :=
  row ← vget M i; row' ← vset row j x; vset M i row'.

(** [std::vector<T>(n, x)] for a size known to be non-negative, and for an
    [int] size, which throws when negative. *)
Definition vmake {A} (n : Z) (x : A) : list A := replicate (Z.to_nat n) x.

Definition valloc {A} (n : Z) (x : A) : option (list A) :=
  if 0 <=? n then Some (vmake n x) else None.

(** [std::vector<T>(v.begin() + first, v.begin() + last)]: the copy of a
    range, which must lie inside [v]. *)
Definition vrange {A} (v : list A) (first last : Z) : option (list A) :=
  if (0 <=? first) && (first <=? last) && (last <=? vsize v)
  then Some (take (Z.to_nat (last - first)) (drop (Z.to_nat first) v))
  else None.

Fixpoint for_up {S} (n : nat) (i : Z) (body : Z → S → option S) (s : S) : option S :=
  match n with
  | O => Some s
  | Datatypes.S n' => s' ← body i s; for_up n' (i + 1) body s'
  end.

(** [for (int i = lo; i < hi; i++) body] *)
Definition for_range {S} (lo hi : Z) (body : Z → S → option S) (s : S) : option S :=
  for_up (Z.to_nat (hi - lo)) lo body s.

Fixpoint for_dn {S} (n : nat) (i : Z) (body : Z → S → option S) (s : S) : option S :=
  match n with
  | O => Some s
  | Datatypes.S n' => s' ← body i s; for_dn n' (i - 1) body s'
  end.

(** [for (int i = hi; i > lo; i--) body] *)
Definition for_down {S} (hi lo : Z) (body : Z → S → option S) (s : S) : option S :=
  for_dn (Z.to_nat (hi - lo)) hi body s.

(** ** [audio_processor.cpp] *)

Definition PI : double := 3.14159265358979323846%float.
Definition NUM_MEL_FILTERS : Z := 26.
Definition NUM_MFCC_COEFFS : Z := 13.
Definition SAMPLE_RATE : double := 44100.0%float.
Definition PRE_EMPHASIS : double := 0.97%float.

Section Audio.
Context `{Cmath}.

Definition hamming_window (length : Z) : option (list double) :=
  window ← valloc length 0%float;
  for_range 0 length
    (λ i window,
       vset window i
         (0.54 - 0.46 * cos (2.0 * PI * double_of_int i / double_of_int (length - 1)))%float)
    window.

Definition hann_window (length : Z) : option (list double) :=
  window ← valloc length 0%float;
  for_range 0 length
    (λ i window,
       vset window i
         (0.5 * (1.0 - cos (2.0 * PI * double_of_int i / double_of_int (length - 1))))%float)
    window.

Definition dft_bin (signal : list double) (N k : Z) : option (double * double) :=
  for_range 0 N
    (λ n '(real, imag),
       let angle := (-2.0 * PI * double_of_int k * double_of_int n / double_of_int N)%float in
       x ← vget signal n;
       Some (real + x * cos angle, imag + x * sin angle)%float)
    (0%float, 0%float).

Definition dft (signal : list double) : option (list double) :=
  let N := vsize signal in
  for_range 0 (N ÷ 2 + 1)
    (λ k magnitude,
       '(real, imag) ← dft_bin signal N k;
       vset magnitude k (sqrt (real * real + imag * imag))%float)
    (vmake (N ÷ 2 + 1) 0%float).

Definition hz_to_mel (hz : double) : double := (2595.0 * log10 (1.0 + hz / 700.0))%float.
Definition mel_to_hz (mel : double) : double := (700.0 * (pow 10.0 (mel / 2595.0) - 1.0))%float.

Definition mel_points (sample_rate : double) : option (list double) :=
  let nfilters := NUM_MEL_FILTERS in
  let low_freq_mel := hz_to_mel 0%float in
  let high_freq_mel := hz_to_mel (sample_rate / 2)%float in
  for_range 0 (nfilters + 2)
    (λ i mel_points,
       vset mel_points i
         (low_freq_mel + double_of_int i * (high_freq_mel - low_freq_mel)
                         / double_of_int (nfilters + 1))%float)
    (vmake (nfilters + 2) 0%float).

Definition bin_points (nfft : Z) (sample_rate : double) : option (list Z) :=
  let nfilters := NUM_MEL_FILTERS in
  mel_points ← mel_points sample_rate;
  for_range 0 (nfilters + 2)
    (λ i bin_points,
       mp ← vget mel_points i;
       b ← double_to_int (floor (double_of_int (nfft + 1) * mel_to_hz mp / sample_rate)%float);
       vset bin_points i b)
    (vmake (nfilters + 2) 0).

Definition create_mel_filterbank (nfft : Z) (sample_rate : double)
  : option (list (list double)) :=
  let nfilters := NUM_MEL_FILTERS in
  row ← valloc (nfft ÷ 2 + 1) 0%float;
  let filterbank := vmake nfilters row in
  bin_points ← bin_points nfft sample_rate;
  for_range 1 (nfilters + 1)
    (λ m filterbank,
       f_m_minus ← vget bin_points (m - 1);
       f_m ← vget bin_points m;
       f_m_plus ← vget bin_points (m + 1);
       filterbank ← for_range f_m_minus f_m
         (λ k filterbank,
            vset2 filterbank (m - 1) k
              (double_of_int (k - f_m_minus) / double_of_int (f_m - f_m_minus))%float)
         filterbank;
       for_range f_m f_m_plus
         (λ k filterbank,
            vset2 filterbank (m - 1) k
              (double_of_int (f_m_plus - k) / double_of_int (f_m_plus - f_m))%float)
         filterbank)
    filterbank.

Definition dct (signal : list double) (num_coeffs : Z) : option (list double) :=
  let N := vsize signal in
  dct_coeffs ← valloc num_coeffs 0%float;
  for_range 0 num_coeffs
    (λ k dct_coeffs,
       sum ← for_range 0 N
         (λ n sum,
            x ← vget signal n;
            Some (sum + x * cos (PI * double_of_int k * double_of_int (2 * n + 1)
                                 / double_of_int (2 * N)))%float)
         0%float;
       vset dct_coeffs k sum)
    dct_coeffs.

(** The pre-emphasis loop of [extractMFCC]:
    [for (int i = frame.size() - 1; i > 0; i--) frame[i] -= PRE_EMPHASIS * frame[i - 1];] *)
Definition pre_emphasis (frame : list double) : option (list double) :=
  for_down (vsize frame - 1) 0
    (λ i frame,
       a ← vget frame i;
       b ← vget frame (i - 1);
       vset frame i (a - PRE_EMPHASIS * b)%float)
    frame.

(** [for (int i = 0; i < frame_length && i < frame.size(); i++) frame[i] *= window[i];] *)
Definition apply_window (frame window : list double) (frame_length : Z)
  : option (list double) :=
  for_range 0 (Z.min frame_length (vsize frame))
    (λ i frame, a ← vget frame i; w ← vget window i; vset frame i (a * w)%float)
    frame.

(** The mel-filterbank accumulation loop of [extractMFCC]. *)
Definition mel_accumulate (spectrum : list double) (filterbank : list (list double))
  : option (list double) :=
  for_range 0 NUM_MEL_FILTERS
    (λ i mel_energies,
       mel_energies ← for_range 0 (vsize spectrum)
         (λ j mel_energies,
            e ← vget mel_energies i;
            sp ← vget spectrum j;
            f ← vget2 filterbank i j;
            vset mel_energies i (e + sp * f)%float)
         mel_energies;
       e ← vget mel_energies i;
       vset mel_energies i (log (e + 1e-10)%float))
    (vmake NUM_MEL_FILTERS 0%float).

Definition extractMFCC (audio_frame : list double) (frame_length num_coeffs : Z)
  : option (list double) :=
  frame ← pre_emphasis audio_frame;
  window ← hamming_window frame_length;
  frame ← apply_window frame window frame_length;
  spectrum ← dft frame;
  filterbank ← create_mel_filterbank frame_length SAMPLE_RATE;
  mel_energies ← mel_accumulate spectrum filterbank;
  dct mel_energies num_coeffs.

(** The loop of [processAudioFrames]:
    [for (int i = 0; i + frame_length <= audio.size(); i += hop_size)].
    The condition compares the [int] sum with a [size_t].  With a positive
    [hop_size] the body runs at most [audio.size() + 1] times, which is the
    fuel [processAudioFrames] gives the loop; with [hop_size = 0] the loop
    never ends. *)
Fixpoint frames_loop (fuel : nat) (audio : list double) (frame_length hop_size i : Z)
    (features : list (list double)) : option (list (list double)) :=
  if to_size_t (wrap_int (i + frame_length)) <=? vsize audio then
    match fuel with
    | O => None
    | Datatypes.S fuel =>
        frame ← vrange audio i (i + frame_length);
        mfcc ← extractMFCC frame frame_length NUM_MFCC_COEFFS;
        frames_loop fuel audio frame_length hop_size (wrap_int (i + hop_size))
          (features ++ [mfcc])
    end
  else Some features.

Definition processAudioFrames (audio : list double) (frame_length hop_size : Z)
  : option (list (list double)) :=
  frames_loop (Z.to_nat (vsize audio + 1)) audio frame_length hop_size 0 [].


End Audio.

(** The autocorrelation at lag [period], the inner loop of [calculatePitch]. *)
Definition autocorrelation (audio_frame : list double) (period : Z) : option double :=
  for_range 0 (vsize audio_frame - period)
    (λ i autocorr,
       a ← vget audio_frame i;
       b ← vget audio_frame (i + period);
       Some (autocorr + a * b)%float)
    0%float.

(** The lag loop of [calculatePitch].  Its condition
    [period <= max_period && period < audio_frame.size()] compares an [int]
    with a [size_t]: a negative [period] converts to a value above every size,
    so the loop does not run at all when [min_period] is negative. *)
Definition pitch_scan (audio_frame : list double) (min_period max_period : Z)
  : option (double * Z) :=
  if min_period <? 0 then Some (0%float, 0)
  else
    for_range min_period (Z.min (max_period + 1) (vsize audio_frame))
      (λ period '(max_autocorr, best_period),
         autocorr ← autocorrelation audio_frame period;
         if fgt autocorr max_autocorr then Some (autocorr, period)
         else Some (max_autocorr, best_period))
      (0%float, 0).

Definition calculatePitch (audio_frame : list double)
    (sample_rate min_freq max_freq : double) : option double :=
  min_period ← double_to_int (sample_rate / max_freq)%float;
  max_period ← double_to_int (sample_rate / min_freq)%float;
  '(_, best_period) ← pitch_scan audio_frame min_period max_period;
  Some (if 0 <? best_period then (sample_rate / double_of_int best_period)%float
        else 0%float).

(** ** [dtw.cpp] *)

Inductive DistanceMetric := EUCLIDEAN | MANHATTAN | COSINE.

Definition calculateDistance (vec1 vec2 : list double) (metric : DistanceMetric)
  : option double :=
  if negb (vsize vec1 =? vsize vec2) then Some infinity
  else
    match metric with
    | EUCLIDEAN =>
        distance ← for_range 0 (vsize vec1)
          (λ i distance,
             a ← vget vec1 i; b ← vget vec2 i;
             let diff := (a - b)%float in
             Some (distance + diff * diff)%float)
          0%float;
        Some (sqrt distance)
    | MANHATTAN =>
        for_range 0 (vsize vec1)
          (λ i distance,
             a ← vget vec1 i; b ← vget vec2 i;
             Some (distance + abs (a - b))%float)
          0%float
    | COSINE =>
        '(dot_product, norm1, norm2) ← for_range 0 (vsize vec1)
          (λ i '(dot_product, norm1, norm2),
             a ← vget vec1 i; b ← vget vec2 i;
             Some (dot_product + a * b, norm1 + a * a, norm2 + b * b)%float)
          (0%float, 0%float, 0%float);
        if (norm1 =? 0)%float || (norm2 =? 0)%float then Some 1%float
        else Some (1.0 - dot_product / (sqrt norm1 * sqrt norm2))%float
    end.

Record DTWResult := mkDTWResult {
  distance : double;
  path : list (Z * Z);
  cost_matrix : list (list double)
}.

(** [band_width] after [if (band_width <= 0) band_width = std::max(n, m);] *)
Definition effective_band (n m band_width : Z) : Z :=
  if band_width <=? 0 then Z.max n m else band_width.

Definition local_distance_matrix (sequence1 sequence2 : list (list double))
    (n m band_width : Z) (metric : DistanceMetric) : option (list (list double)) :=
  for_range 0 n
    (λ i local_distances,
       for_range 0 m
         (λ j local_distances,
            if Z.abs (i - j) <=? band_width then
              a ← vget sequence1 i; b ← vget sequence2 j;
              d ← calculateDistance a b metric;
              vset2 local_distances i j d
            else vset2 local_distances i j infinity)
         local_distances)
    (vmake n (vmake m 0%float)).

(** [for (int j = 1; j < m && j <= band_width; j++)] *)
Definition fill_first_row (local_distances : list (list double)) (m band_width : Z)
    (cost_matrix : list (list double)) : option (list (list double)) :=
  for_range 1 (Z.min m (band_width + 1))
    (λ j cost_matrix,
       c ← vget2 cost_matrix 0 (j - 1);
       d ← vget2 local_distances 0 j;
       vset2 cost_matrix 0 j (c + d)%float)
    cost_matrix.

(** [for (int i = 1; i < n && i <= band_width; i++)] *)
Definition fill_first_column (local_distances : list (list double)) (n band_width : Z)
    (cost_matrix : list (list double)) : option (list (list double)) :=
  for_range 1 (Z.min n (band_width + 1))
    (λ i cost_matrix,
       c ← vget2 cost_matrix (i - 1) 0;
       d ← vget2 local_distances i 0;
       vset2 cost_matrix i 0 (c + d)%float)
    cost_matrix.

(** The minimum over the three previous cells, as the body of the fill
    computes it. *)
Definition min_prev (cost_matrix : list (list double)) (i j : Z) : option double :=
  let min_prev := infinity in
  min_prev ← (if (0 <? i) && (0 <? j)
              then c ← vget2 cost_matrix (i - 1) (j - 1); Some (std_min min_prev c)
              else Some min_prev);
  min_prev ← (if 0 <? i
              then c ← vget2 cost_matrix (i - 1) j; Some (std_min min_prev c)
              else Some min_prev);
  if 0 <? j
  then c ← vget2 cost_matrix i (j - 1); Some (std_min min_prev c)
  else Some min_prev.

Definition fill_cell (local_distances : list (list double)) (i j : Z)
    (cost_matrix : list (list double)) : option (list (list double)) :=
  cost ← vget2 local_distances i j;
  if (cost =? infinity)%float then Some cost_matrix
  else
    mp ← min_prev cost_matrix i j;
    vset2 cost_matrix i j (cost + mp)%float.

Definition fill_body (local_distances : list (list double)) (n m band_width : Z)
    (cost_matrix : list (list double)) : option (list (list double)) :=
  for_range 1 n
    (λ i cost_matrix,
       let j_start := Z.max 1 (i - band_width) in
       let j_end := Z.min m (wrap_int (i + band_width + 1)) in
       for_range j_start j_end (fill_cell local_distances i) cost_matrix)
    cost_matrix.

(** The cost matrix of [computeDTW] for non-empty sequences and the effective
    band width. *)
Definition fill_cost_matrix (sequence1 sequence2 : list (list double))
    (band_width : Z) (metric : DistanceMetric) : option (list (list double)) :=
  let n := vsize sequence1 in
  let m := vsize sequence2 in
  let cost_matrix := vmake n (vmake m infinity) in
  local_distances ← local_distance_matrix sequence1 sequence2 n m band_width metric;
  d ← vget2 local_distances 0 0;
  cost_matrix ← vset2 cost_matrix 0 0 d;
  cost_matrix ← fill_first_row local_distances m band_width cost_matrix;
  cost_matrix ← fill_first_column local_distances n band_width cost_matrix;
  fill_body local_distances n m band_width cost_matrix.

(** [while (i > 0 || j > 0)] of the backtracking; every iteration decreases
    [i + j], which bounds the number of iterations. *)
Fixpoint backtrack_loop (fuel : nat) (cost_matrix : list (list double))
    (i j : Z) (path : list (Z * Z)) : option (list (Z * Z)) :=
  if (0 <? i) || (0 <? j) then
    match fuel with
    | O => None
    | Datatypes.S fuel =>
        let path := path ++ [(i, j)] in
        if i =? 0 then backtrack_loop fuel cost_matrix i (j - 1) path
        else if j =? 0 then backtrack_loop fuel cost_matrix (i - 1) j path
        else
          diag ← vget2 cost_matrix (i - 1) (j - 1);
          up ← vget2 cost_matrix (i - 1) j;
          left ← vget2 cost_matrix i (j - 1);
          if (diag <=? up)%float && (diag <=? left)%float
          then backtrack_loop fuel cost_matrix (i - 1) (j - 1) path
          else if (up <=? left)%float
          then backtrack_loop fuel cost_matrix (i - 1) j path
          else backtrack_loop fuel cost_matrix i (j - 1) path
    end
  else Some path.

Definition backtrack (cost_matrix : list (list double)) (n m : Z) : option (list (Z * Z)) :=
  path ← backtrack_loop (Z.to_nat (n + m)) cost_matrix (n - 1) (m - 1) [];
  Some (reverse (path ++ [(0, 0)])).

Definition computeDTW (sequence1 sequence2 : list (list double)) (band_width : Z)
    (metric : DistanceMetric) (return_path : bool) : option DTWResult :=
  let n := vsize sequence1 in
  let m := vsize sequence2 in
  if (n =? 0) || (m =? 0) then Some (mkDTWResult infinity [] [])
  else
    let band_width := effective_band n m band_width in
    cost_matrix ← fill_cost_matrix sequence1 sequence2 band_width metric;
    distance ← vget2 cost_matrix (n - 1) (m - 1);
    if return_path && fne distance infinity then
      path ← backtrack cost_matrix n m;
      Some (mkDTWResult distance path cost_matrix)
    else Some (mkDTWResult distance [] cost_matrix).

(** The objects the JavaScript wrappers return. *)
Record AlignResult := mkAlignResult {
  align_distance : double;
  align_normalized_distance : double;
  align_path : list (Z * Z)
}.

Definition dtw_align (seq1 seq2 : list (list double)) (band_width : Z)
  : option AlignResult :=
  result ← computeDTW seq1 seq2 band_width EUCLIDEAN true;
  Some (mkAlignResult
          (distance result)
          (distance result / double_of_int (Z.max (vsize seq1) (vsize seq2)))%float
          (path result)).

Record DistanceResult := mkDistanceResult {
  dist_distance : double;
  dist_normalized_distance : double
}.

Definition dtw_distance (seq1 seq2 : list (list double)) (band_width : Z)
  : option DistanceResult :=
  result ← computeDTW seq1 seq2 band_width EUCLIDEAN false;
  Some (mkDistanceResult
          (distance result)
          (distance result / double_of_int (Z.max (vsize seq1) (vsize seq2)))%float).

(** ** [hmm.cpp] *)

Definition LOG_ZERO : double := (-1e30)%float.

(** [*std::max_element(first, last)] on a non-empty range: the first of the
    largest elements, compared with [<]. *)
Fixpoint max_element_from (largest : double) (l : list double) : double :=
  match l with
  | [] => largest
  | x :: l => max_element_from (if (largest <? x)%float then x else largest) l
  end.

Section HMM.
Context `{Cmath}.

Definition log_sum_exp (log_values : list double) : double :=
  match log_values with
  | [] => LOG_ZERO
  | x :: rest =>
      let max_val := max_element_from x rest in
      if (max_val =? LOG_ZERO)%float then LOG_ZERO
      else
        let sum :=
          fold_left
            (λ sum val, if fne val LOG_ZERO then (sum + exp (val - max_val))%float else sum)
            log_values 0%float in
        (max_val + log sum)%float
  end.

Record HMM := mkHMM {
  num_states : Z;
  num_observations : Z;
  transition_probs : list (list double);
  emission_probs : list (list double);
  initial_probs : list double
}.

Definition HMM_new (states observations : Z) : option HMM :=
  trow ← valloc states LOG_ZERO;
  erow ← valloc observations LOG_ZERO;
  Some (mkHMM states observations (vmake states trow) (vmake states erow)
          (vmake states LOG_ZERO)).

Definition setTransitionProb (h : HMM) (from_state to_state : Z) (prob : double)
  : option HMM :=
  if fgt prob 0 && (from_state <? num_states h) && (to_state <? num_states h) then
    tp ← vset2 (transition_probs h) from_state to_state (log prob);
    Some (mkHMM (num_states h) (num_observations h) tp (emission_probs h) (initial_probs h))
  else Some h.

Definition setEmissionProb (h : HMM) (state observation : Z) (prob : double)
  : option HMM :=
  if fgt prob 0 && (state <? num_states h) && (observation <? num_observations h) then
    ep ← vset2 (emission_probs h) state observation (log prob);
    Some (mkHMM (num_states h) (num_observations h) (transition_probs h) ep (initial_probs h))
  else Some h.

Definition setInitialProb (h : HMM) (state : Z) (prob : double) : option HMM :=
  if fgt prob 0 && (state <? num_states h) then
    ip ← vset (initial_probs h) state (log prob);
    Some (mkHMM (num_states h) (num_observations h) (transition_probs h) (emission_probs h) ip)
  else Some h.

(** The first column of the Viterbi and of the forward table:
    [if (observations[0] < num_observations) table[0][s] = initial_probs[s] + emission_probs[s][observations[0]];] *)
Definition first_column (h : HMM) (observations : list Z) (table : list (list double))
  : option (list (list double)) :=
  for_range 0 (num_states h)
    (λ s table,
       o ← vget observations 0;
       if o <? num_observations h then
         ip ← vget (initial_probs h) s;
         e ← vget2 (emission_probs h) s o;
         vset2 table 0 s (ip + e)%float
       else Some table)
    table.

(** The loop over [prev_s] of [viterbi]: the best predecessor of state [s] at
    time [t]. *)
Definition viterbi_cell (h : HMM) (observations : list Z) (viterbi_table : list (list double))
    (t s : Z) : option (double * Z) :=
  for_range 0 (num_states h)
    (λ prev_s '(max_prob, best_prev_state),
       v ← vget2 viterbi_table (t - 1) prev_s;
       a ← vget2 (transition_probs h) prev_s s;
       o ← vget observations t;
       e ← vget2 (emission_probs h) s o;
       let prob := (v + a + e)%float in
       if fgt prob max_prob then Some (prob, prev_s)
       else Some (max_prob, best_prev_state))
    (LOG_ZERO, -1).

(** The Viterbi table and the table of back pointers ([path] in the source). *)
Definition viterbi_tables (h : HMM) (observations : list Z)
  : option (list (list double) * list (list Z)) :=
  let T := vsize observations in
  let viterbi_table := vmake T (vmake (num_states h) LOG_ZERO) in
  let path := vmake T (vmake (num_states h) (-1)) in
  viterbi_table ← first_column h observations viterbi_table;
  for_range 1 T
    (λ t '(viterbi_table, path),
       o ← vget observations t;
       if o >=? num_observations h then Some (viterbi_table, path)
       else
         for_range 0 (num_states h)
           (λ s '(viterbi_table, path),
              '(max_prob, best_prev_state) ← viterbi_cell h observations viterbi_table t s;
              viterbi_table ← vset2 viterbi_table t s max_prob;
              path ← vset2 path t s best_prev_state;
              Some (viterbi_table, path))
           (viterbi_table, path))
    (viterbi_table, path).

Definition best_final_state (h : HMM) (viterbi_table : list (list double)) (T : Z)
  : option Z :=
  '(_, best_final_state) ← for_range 0 (num_states h)
    (λ s '(max_final_prob, best_final_state),
       v ← vget2 viterbi_table (T - 1) s;
       if fgt v max_final_prob then Some (v, s)
       else Some (max_final_prob, best_final_state))
    (LOG_ZERO, 0);
  Some best_final_state.

(** [best_path[T-1] = best_final_state;
     for (int t = T-2; t >= 0; t--) best_path[t] = path[t+1][best_path[t+1]];] *)
Definition viterbi_backtrack (path : list (list Z)) (T best_final_state : Z)
  : option (list Z) :=
  best_path ← vset (vmake T 0) (T - 1) best_final_state;
  for_down (T - 2) (-1)
    (λ t best_path,
       next ← vget best_path (t + 1);
       p ← vget2 path (t + 1) next;
       vset best_path t p)
    best_path.

Definition viterbi (h : HMM) (observations : list Z) : option (list Z) :=
  let T := vsize observations in
  if T =? 0 then Some []
  else
    '(viterbi_table, path) ← viterbi_tables h observations;
    best ← best_final_state h viterbi_table T;
    viterbi_backtrack path T best.

(** [for (s = 0; s < num_states; s++) v.push_back(row[s])] and its variants:
    the vector of [f s] for [s] in [[0, n)]. *)
Definition collect (n : Z) (f : Z → option double) : option (list double) :=
  for_range 0 n (λ s v, x ← f s; Some (v ++ [x])) [].

Definition forward_table (h : HMM) (observations : list Z) : option (list (list double)) :=
  let T := vsize observations in
  let alpha := vmake T (vmake (num_states h) LOG_ZERO) in
  alpha ← first_column h observations alpha;
  for_range 1 T
    (λ t alpha,
       o ← vget observations t;
       if o >=? num_observations h then Some alpha
       else
         for_range 0 (num_states h)
           (λ s alpha,
              log_probs ← collect (num_states h)
                (λ prev_s,
                   a ← vget2 alpha (t - 1) prev_s;
                   p ← vget2 (transition_probs h) prev_s s;
                   Some (a + p)%float);
              o ← vget observations t;
              e ← vget2 (emission_probs h) s o;
              vset2 alpha t s (log_sum_exp log_probs + e)%float)
           alpha)
    alpha.

Definition forward (h : HMM) (observations : list Z) : option double :=
  let T := vsize observations in
  if T =? 0 then Some LOG_ZERO
  else
    alpha ← forward_table h observations;
    final_probs ← collect (num_states h) (λ s, vget2 alpha (T - 1) s);
    Some (log_sum_exp final_probs).

Definition backward_table (h : HMM) (observations : list Z) : option (list (list double)) :=
  let T := vsize observations in
  let beta := vmake T (vmake (num_states h) LOG_ZERO) in
  beta ← for_range 0 (num_states h) (λ s beta, vset2 beta (T - 1) s 0%float) beta;
  for_down (T - 2) (-1)
    (λ t beta,
       o ← vget observations (t + 1);
       if o >=? num_observations h then Some beta
       else
         for_range 0 (num_states h)
           (λ s beta,
              log_probs ← collect (num_states h)
                (λ next_s,
                   p ← vget2 (transition_probs h) s next_s;
                   o ← vget observations (t + 1);
                   e ← vget2 (emission_probs h) next_s o;
                   b ← vget2 beta (t + 1) next_s;
                   Some (p + e + b)%float);
              vset2 beta t s (log_sum_exp log_probs))
           beta)
    beta.

Definition backward (h : HMM) (observations : list Z) : option double :=
  let T := vsize observations in
  if T =? 0 then Some LOG_ZERO
  else
    beta ← backward_table h observations;
    initial_backward_probs ← for_range 0 (num_states h)
      (λ s v,
         o ← vget observations 0;
         if o <? num_observations h then
           ip ← vget (initial_probs h) s;
           e ← vget2 (emission_probs h) s o;
           b ← vget2 beta 0 s;
           Some (v ++ [(ip + e + b)%float])
         else Some v)
      [];
    Some (log_sum_exp initial_backward_probs).

End HMM.

(** The JavaScript interface of the decoder.  The global pointer
    [global_hmm] is the state the functions pass along: null ([None]) before
    [createHMM] and after [cleanupHMM].  The observation sequence is the
    vector [emscripten::vecFromJSArray<int>] hands to the decoder. *)
Module JS.
Section JS.
Context `{Cmath}.

Definition createHMM (global_hmm : option HMM) (num_states num_observations : Z)
  : option (option HMM) :=
  h ← HMM_new num_states num_observations; Some (Some h).

Definition setTransition (global_hmm : option HMM) (from_state to_state : Z) (prob : double)
  : option (option HMM) :=
  match global_hmm with
  | Some h => h' ← setTransitionProb h from_state to_state prob; Some (Some h')
  | None => Some None
  end.

Definition setEmission (global_hmm : option HMM) (state observation : Z) (prob : double)
  : option (option HMM) :=
  match global_hmm with
  | Some h => h' ← setEmissionProb h state observation prob; Some (Some h')
  | None => Some None
  end.

Definition setInitial (global_hmm : option HMM) (state : Z) (prob : double)
  : option (option HMM) :=
  match global_hmm with
  | Some h => h' ← setInitialProb h state prob; Some (Some h')
  | None => Some None
  end.

Definition viterbi (global_hmm : option HMM) (observations : list Z) : option (list Z) :=
  match global_hmm with
  | Some h => viterbi h observations
  | None => Some []
  end.

Definition forward (global_hmm : option HMM) (observations : list Z) : option double :=
  match global_hmm with
  | Some h => forward h observations
  | None => Some neg_infinity
  end.

Definition backward (global_hmm : option HMM) (observations : list Z) : option double :=
  match global_hmm with
  | Some h => backward h observations
  | None => Some neg_infinity
  end.

Definition cleanupHMM (global_hmm : option HMM) : option HMM := None.

End JS.
End JS.

(** ** A reference instance of [Cmath]

    The theorems below hold for every instance of [Cmath] (under the stated
    laws where one is needed).  To evaluate the programs on concrete inputs an
    instance is needed: this one computes the functions by argument reduction
    and power series in binary64 arithmetic.  It is exact at the arguments the
    C standard fixes ([exp 0 = 1], [log 1 = 0], [pow x 0 = 1], [cos 0 = 1],
    [floor] everywhere) and close to the correctly rounded value elsewhere. *)
Module RefCmath.

Definition LN2 : double := 0.6931471805599453%float.
Definition LN10 : double := 2.302585092994046%float.
Definition TWO_PI : double := 6.283185307179586%float.

(** [1 + r/1 * (1 + r/2 * (... (1 + r/n)))] *)
Fixpoint exp_series (n : nat) (k : double) (r : double) : double :=
  match n with
  | O => 1%float
  | Datatypes.S n => (1 + r / k * exp_series n (k + 1) r)%float
  end.

(** The integer part toward minus infinity of a finite double, as a [Z]. *)
Definition floor_Z (x : double) : option Z :=
  match Prim2SF x with
  | S754_zero _ => Some 0
  | S754_finite s m e =>
      let v := if s then Z.neg m else Z.pos m in
      Some (if 0 <=? e then v * 2 ^ e else v / 2 ^ (- e))
  | _ => None
  end.

Definition floor (x : double) : double :=
  match Prim2SF x with
  | S754_finite _ _ e =>
      if 0 <=? e then x
      else match floor_Z x with Some z => double_of_int z | None => x end
  | _ => x
  end.

Definition exp (x : double) : double :=
  match floor_Z (x / LN2 + 0.5)%float with
  | Some n =>
      let r := (x - double_of_int n * LN2)%float in
      Z.ldexp (exp_series 30 1 r) n
  | None => if (x <? 0)%float then 0%float else x
  end.

(** [2z (1 + z^2/3 + z^4/5 + ...)], by Horner's rule. *)
Definition log_series (z : double) : double :=
  let z2 := (z * z)%float in
  let fix go (k : nat) (acc : double) : double :=
    match k with
    | O => acc
    | Datatypes.S k' => go k' (acc * z2 + 1 / double_of_int (2 * Z.of_nat k' + 1))%float
    end in
  (2 * z * go 30%nat 0)%float.

Definition log (x : double) : double :=
  if (x <? 0)%float then nan
  else if (x =? 0)%float then neg_infinity
  else if (x =? infinity)%float then infinity
  else if (x =? x)%float then
    let '(m, e) := Z.frexp x in
    let '(m, e) := if (m <? 0.7071067811865476)%float then ((2 * m)%float, e - 1) else (m, e) in
    let z := ((m - 1) / (m + 1))%float in
    (double_of_int e * LN2 + log_series z)%float
  else x.

Definition log10 (x : double) : double := (log x / LN10)%float.

Definition pow (x y : double) : double :=
  if (y =? 0)%float then 1%float else exp (y * log x).

(** [1 - r2/(k(k+1)) * (1 - r2/((k+2)(k+3)) * ...)] *)
Fixpoint trig_series (n : nat) (k : double) (r2 : double) : double :=
  match n with
  | O => 1%float
  | Datatypes.S n => (1 - r2 / (k * (k + 1)) * trig_series n (k + 2) r2)%float
  end.

Definition reduce (x : double) : double :=
  match floor_Z (x / TWO_PI + 0.5)%float with
  | Some n => (x - double_of_int n * TWO_PI)%float
  | None => nan
  end.

Definition cos (x : double) : double :=
  let r := reduce x in trig_series 20 1 (r * r)%float.

Definition sin (x : double) : double :=
  let r := reduce x in (r * trig_series 20 2 (r * r))%float.

#[export] Instance cmath : Cmath := Build_Cmath exp log log10 pow cos sin floor.

End RefCmath.

(** * Part II: the properties *)

(** ** Binary64 facts *)

(** The rounding of a non-negative integer significand is never NaN and
    carries the requested sign. *)
Definition sf_signed (s : bool) (x : spec_float) : Prop :=
  match x with
  | S754_zero s' | S754_infinity s' | S754_finite s' _ _ => s' = s
  | S754_nan => False
  end.

Lemma shr_1_nonneg mrs : 0 ≤ shr_m mrs → 0 ≤ shr_m (shr_1 mrs).
Proof. destruct mrs as [[|[p|p|]|p] r s]; simpl; lia. Qed.

Lemma iter_shr_1_nonneg p mrs :
  0 ≤ shr_m mrs → 0 ≤ shr_m (SpecFloat.iter_pos shr_1 p mrs).
Proof.
  revert mrs. induction p as [p IH|p IH|]; intros mrs Hm; simpl.
  - apply IH, IH, shr_1_nonneg, Hm.
  - apply IH, IH, Hm.
  - apply shr_1_nonneg, Hm.
Qed.

Lemma shr_fexp_nonneg prec emax m e l :
  0 ≤ m → 0 ≤ shr_m (fst (shr_fexp prec emax m e l)).
Proof.
  intros Hm. unfold shr_fexp, shr.
  assert (0 ≤ shr_m (shr_record_of_loc m l)) as H0.
  { destruct l as [|[]]; simpl; lia. }
  destruct (fexp prec emax (Zdigits2 m + e) - e); simpl; try done.
  by apply iter_shr_1_nonneg.
Qed.

Lemma round_nearest_even_nonneg m l : 0 ≤ m → 0 ≤ round_nearest_even m l.
Proof.
  intros. unfold round_nearest_even.
  destruct l as [|[]]; try lia. destruct (Z.even m); lia.
Qed.

Lemma binary_round_aux_signed prec emax sx mx ex lx :
  0 ≤ mx → sf_signed sx (binary_round_aux prec emax sx mx ex lx).
Proof.
  intros Hm. unfold binary_round_aux.
  pose proof (shr_fexp_nonneg prec emax mx ex lx Hm) as H1.
  destruct (shr_fexp prec emax mx ex lx) as [mrs' e']. simpl in H1.
  pose proof (shr_fexp_nonneg prec emax
                (round_nearest_even (shr_m mrs') (loc_of_shr_record mrs')) e' loc_Exact
                (round_nearest_even_nonneg _ _ H1)) as H2.
  destruct (shr_fexp prec emax _ e' loc_Exact) as [mrs'' e'']. simpl in H2.
  destruct (shr_m mrs'') as [|p|p]; simpl; try done; try lia.
  by destruct (e'' <=? emax - prec).
Qed.

Lemma binary_round_signed prec emax sx mx ex :
  sf_signed sx (binary_round prec emax sx mx ex).
Proof.
  unfold binary_round. destruct (shl_align _ _ _) as [mz ez].
  apply binary_round_aux_signed. lia.
Qed.

(** Non-negative values: zeros of either sign, positive finite numbers and
    plus infinity. *)
Definition sf_nonneg (x : spec_float) : Prop :=
  match x with
  | S754_zero _ | S754_infinity false | S754_finite false _ _ => True
  | _ => False
  end.

Definition sf_finite (x : spec_float) : Prop :=
  match x with
  | S754_zero _ | S754_finite _ _ _ => True
  | _ => False
  end.

Lemma sf_signed_nonneg x : sf_signed false x → sf_nonneg x.
Proof. destruct x as [[]|[]| |[] ? ?]; simpl; done. Qed.

Lemma SFadd_nonneg prec emax x y :
  sf_nonneg x → sf_nonneg y → sf_nonneg (SFadd prec emax x y).
Proof.
  destruct x as [[]|[]| |[] mx ex], y as [[]|[]| |[] my ey]; simpl; try done.
  intros _ _. apply sf_signed_nonneg.
  unfold binary_normalize.
  destruct (shl_align mx ex (Z.min ex ey)) as [a ?], (shl_align my ey (Z.min ex ey)) as [b ?].
  simpl. apply binary_round_signed.
Qed.

Lemma SFmul_self_nonneg prec emax x :
  x ≠ S754_nan → sf_nonneg (SFmul prec emax x x).
Proof.
  destruct x as [[]|[]| |[] mx ex]; simpl; try done;
    intros _; apply sf_signed_nonneg, binary_round_aux_signed; lia.
Qed.

Lemma SFsub_finite_not_nan prec emax x y :
  sf_finite x → sf_finite y → sf_finite (SFsub prec emax x y) ∨ ∃ s, SFsub prec emax x y = S754_infinity s.
Proof.
  destruct x as [[]|[]| |sx mx ex], y as [[]|[]| |sy my ey]; simpl; try done; try (by left).
  intros _ _. unfold binary_normalize.
  destruct (_ - _) as [|p|p]; [by left| |].
  - pose proof (binary_round_signed prec emax false p (Z.min ex ey)) as Hs.
    destruct (binary_round _ _ _ _ _) as [| | |]; simpl in *; try done; eauto.
  - pose proof (binary_round_signed prec emax true p (Z.min ex ey)) as Hs.
    destruct (binary_round _ _ _ _ _) as [| | |]; simpl in *; try done; eauto.
Qed.

Lemma SFsub_diag prec emax x :
  sf_finite x → SFsub prec emax x x = S754_zero false.
Proof.
  destruct x as [[]|[]| |sx mx ex]; simpl; try done.
  intros _. by rewrite Z.sub_diag.
Qed.

Lemma SFsqrt_nonneg prec emax x :
  sf_nonneg x → sf_nonneg (SFsqrt prec emax x).
Proof.
  destruct x as [[]|[]| |[] mx ex]; simpl; try done.
  intros _. unfold SFsqrt_core_binary.
  set (m' := match _ - _ with Z0 => _ | Zpos _ => _ | Zneg _ => _ end).
  pose proof (Z.sqrtrem_sqrt m') as Hq. pose proof (Z.sqrt_nonneg m') as Hn.
  destruct (Z.sqrtrem m') as [q r]. simpl in Hq. subst q.
  apply sf_signed_nonneg, binary_round_aux_signed. done.
Qed.

(** The comparison of two numbers is the lexicographic comparison of their
    keys: sign class, then exponent, then significand. *)
Definition sf_key (x : spec_float) : option (Z * Z * Z) :=
  match x with
  | S754_nan => None
  | S754_infinity true => Some (-2, 0, 0)
  | S754_finite true m e => Some (-1, - e, Z.neg m)
  | S754_zero _ => Some (0, 0, 0)
  | S754_finite false m e => Some (1, e, Z.pos m)
  | S754_infinity false => Some (2, 0, 0)
  end.

Definition key_compare (a b : Z * Z * Z) : comparison :=
  let '(a1, a2, a3) := a in
  let '(b1, b2, b3) := b in
  match a1 ?= b1 with
  | Eq => match a2 ?= b2 with Eq => a3 ?= b3 | c => c end
  | c => c
  end.

Lemma SFcompare_key x y :
  SFcompare x y = kx ← sf_key x; ky ← sf_key y; Some (key_compare kx ky).
Proof.
  destruct x as [[]|[]| |[] mx ex], y as [[]|[]| |[] my ey]; simpl; try done.
  all: try rewrite Z.compare_opp, (Z.compare_antisym ey ex).
  all: try (destruct (ey ?= ex); simpl; done).
  all: try (destruct (ex ?= ey); simpl; done).
Qed.

Lemma key_compare_lt_trans a b c :
  key_compare a b = Lt → key_compare b c = Lt → key_compare a c = Lt.
Proof.
  destruct a as [[a1 a2] a3], b as [[b1 b2] b3], c as [[c1 c2] c3]. unfold key_compare.
  destruct (Z.compare_spec a1 b1), (Z.compare_spec b1 c1), (Z.compare_spec a1 c1);
    try done; try lia;
  destruct (Z.compare_spec a2 b2), (Z.compare_spec b2 c2), (Z.compare_spec a2 c2);
    try done; try lia;
  destruct (Z.compare_spec a3 b3), (Z.compare_spec b3 c3), (Z.compare_spec a3 c3);
    try done; lia.
Qed.

Lemma key_compare_lt_le_trans a b c :
  key_compare a b = Lt → key_compare b c ≠ Gt → key_compare a c = Lt.
Proof.
  destruct a as [[a1 a2] a3], b as [[b1 b2] b3], c as [[c1 c2] c3]. unfold key_compare.
  destruct (Z.compare_spec a1 b1), (Z.compare_spec b1 c1), (Z.compare_spec a1 c1);
    try done; try lia;
  destruct (Z.compare_spec a2 b2), (Z.compare_spec b2 c2), (Z.compare_spec a2 c2);
    try done; try lia;
  destruct (Z.compare_spec a3 b3), (Z.compare_spec b3 c3), (Z.compare_spec a3 c3);
    try done; lia.
Qed.

Lemma key_compare_refl a : key_compare a a = Eq.
Proof. destruct a as [[a1 a2] a3]. unfold key_compare. by rewrite !Z.compare_refl. Qed.

Lemma SFltb_key x y :
  SFltb x y = true ↔ ∃ kx ky, sf_key x = Some kx ∧ sf_key y = Some ky ∧ key_compare kx ky = Lt.
Proof.
  unfold SFltb. rewrite SFcompare_key.
  destruct (sf_key x) as [kx|], (sf_key y) as [ky|]; simpl;
    try (split; [done|intros (? & ? & ? & ? & ?); done]).
  destruct (key_compare kx ky) eqn:E; split; try done;
    try (intros (? & ? & [= <-] & [= <-] & ?); congruence).
  intros _. eauto.
Qed.

Lemma SFleb_key x y :
  SFleb x y = true ↔ ∃ kx ky, sf_key x = Some kx ∧ sf_key y = Some ky ∧ key_compare kx ky ≠ Gt.
Proof.
  unfold SFleb. rewrite SFcompare_key.
  destruct (sf_key x) as [kx|], (sf_key y) as [ky|]; simpl;
    try (split; [done|intros (? & ? & ? & ? & ?); done]).
  destruct (key_compare kx ky) eqn:E; split; try done;
    try (intros (? & ? & [= <-] & [= <-] & ?); congruence);
    intros _; exists kx, ky; rewrite E; done.
Qed.

(** *** The same facts on doubles *)

Definition nonneg (x : double) : Prop := (0 <=? x)%float = true.

Lemma nonneg_sf x : nonneg x ↔ sf_nonneg (Prim2SF x).
Proof.
  unfold nonneg. rewrite FloatAxioms.leb_spec.
  change (Prim2SF 0) with (S754_zero false).
  destruct (Prim2SF x) as [[]|[]| |[] m e]; simpl; done.
Qed.

Lemma is_finite_sf x : is_finite x = true ↔ sf_finite (Prim2SF x).
Proof.
  unfold is_finite, is_nan, is_infinity.
  rewrite !FloatAxioms.eqb_spec, abs_spec.
  change (Prim2SF infinity) with (S754_infinity false).
  destruct (Prim2SF x) as [[]|[]| |[] m e]; simpl; try done.
  - unfold SFeqb. simpl. rewrite Z.compare_refl, Pos.compare_cont_refl. done.
  - unfold SFeqb. simpl. rewrite Z.compare_refl, Pos.compare_cont_refl. done.
Qed.

Lemma nonneg_infinity : nonneg infinity.
Proof. reflexivity. Qed.

Lemma add_nonneg x y : nonneg x → nonneg y → nonneg (x + y).
Proof. rewrite !nonneg_sf, add_spec. apply SFadd_nonneg. Qed.

Lemma sqrt_nonneg x : nonneg x → nonneg (sqrt x).
Proof. rewrite !nonneg_sf, sqrt_spec. apply SFsqrt_nonneg. Qed.

Lemma sub_diag x : is_finite x = true → (x - x)%float = 0%float.
Proof.
  rewrite is_finite_sf. intros Hx. apply Prim2SF_inj.
  rewrite sub_spec. by apply SFsub_diag.
Qed.

(** The square of a difference of finite numbers is non-negative (possibly
    infinite, never NaN). *)
Lemma sq_diff_nonneg a b :
  is_finite a = true → is_finite b = true → nonneg ((a - b) * (a - b)).
Proof.
  rewrite !is_finite_sf, nonneg_sf, mul_spec, sub_spec. intros Ha Hb.
  apply SFmul_self_nonneg.
  destruct (SFsub_finite_not_nan prec emax _ _ Ha Hb) as [Hf|[s Hs]].
  - intros E. unfold SF64sub in E. rewrite E in Hf. done.
  - unfold SF64sub. by rewrite Hs.
Qed.

(** Comparisons. *)
Lemma ltb_infinity_l x : (infinity <? x)%float = false.
Proof.
  rewrite FloatAxioms.ltb_spec. change (Prim2SF infinity) with (S754_infinity false).
  by destruct (Prim2SF x) as [[]|[]| |[] m e].
Qed.

Lemma std_min_infinity_r x : std_min x infinity = x.
Proof. unfold std_min. by rewrite ltb_infinity_l. Qed.

Lemma nonneg_not_ltb_0 x : nonneg x → (x <? 0)%float = false.
Proof.
  rewrite nonneg_sf, FloatAxioms.ltb_spec. change (Prim2SF 0) with (S754_zero false).
  by destruct (Prim2SF x) as [[]|[]| |[] m e].
Qed.

Lemma std_min_0_nonneg x : nonneg x → std_min 0 x = 0%float.
Proof. intros Hx. unfold std_min. by rewrite nonneg_not_ltb_0. Qed.

Lemma std_min_nonneg x y : nonneg x → nonneg y → nonneg (std_min x y).
Proof. intros. unfold std_min. by destruct (y <? x)%float. Qed.

(** [a == c] for a constant [c] other than zero identifies [a]. *)
Lemma eqb_eq_nonzero a c :
  (∀ s, Prim2SF c ≠ S754_zero s) → (a =? c)%float = true → a = c.
Proof.
  rewrite FloatAxioms.eqb_spec. intros Hc E. apply Prim2SF_inj.
  unfold SFeqb in E.
  destruct (Prim2SF a) as [[]|[]| |[] ma ea], (Prim2SF c) as [sc|[]| |[] mc ec];
    simpl in E; try done; try (by destruct (Hc sc)).
  all: change (Pos.compare_cont Eq ma mc) with (Pos.compare ma mc) in E.
  all: destruct (Z.compare_spec ea ec); try done; subst.
  all: destruct (Pos.compare_spec ma mc); try done; by subst.
Qed.

Lemma ltb_irrefl x : (x <? x)%float = false.
Proof.
  rewrite FloatAxioms.ltb_spec. apply not_true_is_false.
  intros (kx & ky & E1 & E2 & Hlt)%SFltb_key.
  rewrite E1 in E2. injection E2 as <-. by rewrite key_compare_refl in Hlt.
Qed.

Lemma ltb_trans x y z :
  (x <? y)%float = true → (y <? z)%float = true → (x <? z)%float = true.
Proof.
  rewrite !FloatAxioms.ltb_spec, !SFltb_key.
  intros (kx & ky & E1 & E2 & H1) (ky' & kz & E3 & E4 & H2).
  rewrite E2 in E3. injection E3 as <-.
  exists kx, kz. eauto using key_compare_lt_trans.
Qed.

Lemma ltb_leb_trans x y z :
  (x <? y)%float = true → (y <=? z)%float = true → (x <? z)%float = true.
Proof.
  rewrite !FloatAxioms.ltb_spec, FloatAxioms.leb_spec, !SFltb_key, SFleb_key.
  intros (kx & ky & E1 & E2 & H1) (ky' & kz & E3 & E4 & H2).
  rewrite E2 in E3. injection E3 as <-.
  exists kx, kz. eauto using key_compare_lt_le_trans.
Qed.

Lemma add_0_r_eqb x : is_finite x = true → (x + 0 =? x)%float = true.
Proof.
  rewrite is_finite_sf, FloatAxioms.eqb_spec, add_spec.
  change (Prim2SF 0) with (S754_zero false).
  destruct (Prim2SF x) as [[]|[]| |[] m e]; simpl; try done; intros _;
    unfold SFeqb; simpl; by rewrite Z.compare_refl, Pos.compare_cont_refl.
Qed.

Lemma add_0_r x :
  is_finite x = true → x ≠ (-0)%float → (x + 0)%float = x.
Proof.
  rewrite is_finite_sf. intros Hf Hz. apply Prim2SF_inj. rewrite add_spec.
  change (Prim2SF 0) with (S754_zero false).
  destruct (Prim2SF x) as [[]|[]| |[] m e] eqn:E; simpl; try done.
  destruct Hz. apply Prim2SF_inj. by rewrite E.
Qed.

(** ** Vector and loop lemmas *)

Section VecLemmas.
Context {A : Type}.
Implicit Types (v : list A) (M : list (list A)).

Lemma vget_Some v i x :
  vget v i = Some x ↔ 0 ≤ i ∧ v !! Z.to_nat i = Some x.
Proof.
  unfold vget. destruct (Z.leb_spec 0 i); split; intros H'; try tauto.
  - discriminate.
  - lia.
Qed.

Lemma vget_lt v i x : vget v i = Some x → 0 ≤ i < vsize v.
Proof.
  intros [? Hl]%vget_Some. apply lookup_lt_Some in Hl. unfold vsize. lia.
Qed.

Lemma vget_is_Some v i : 0 ≤ i < vsize v → is_Some (vget v i).
Proof.
  intros [H0 H1]. unfold vget. destruct (Z.leb_spec 0 i); [|lia].
  apply lookup_lt_is_Some. unfold vsize in H1. lia.
Qed.

Lemma vget_None_neg v i : i < 0 → vget v i = None.
Proof. intros. unfold vget. destruct (Z.leb_spec 0 i); [lia|done]. Qed.

Lemma vget_None_ge v i : vsize v ≤ i → vget v i = None.
Proof.
  intros. unfold vget, vsize in *. destruct (Z.leb_spec 0 i); [|done].
  apply lookup_ge_None. lia.
Qed.

Lemma vset_Some v i x v' :
  vset v i x = Some v' ↔ 0 ≤ i < vsize v ∧ v' = <[Z.to_nat i := x]> v.
Proof.
  unfold vset.
  destruct (Z.leb_spec 0 i), (Z.ltb_spec i (vsize v)); simpl;
    split; intros H'; try (destruct H'; lia); try discriminate.
  - injection H' as <-. split; [lia|done].
  - destruct H' as [_ ->]. done.
Qed.

Lemma vset_ok v i x :
  0 ≤ i < vsize v → vset v i x = Some (<[Z.to_nat i := x]> v).
Proof. intros. apply vset_Some. done. Qed.

Lemma vset_None v i x : ¬ (0 ≤ i < vsize v) → vset v i x = None.
Proof.
  intros. unfold vset.
  destruct (Z.leb_spec 0 i), (Z.ltb_spec i (vsize v)); simpl; try done. lia.
Qed.

Lemma vsize_insert v (k : nat) x : vsize (<[k := x]> v) = vsize v.
Proof. unfold vsize. by rewrite length_insert. Qed.

Lemma vget_insert_eq v i x :
  0 ≤ i < vsize v → vget (<[Z.to_nat i := x]> v) i = Some x.
Proof.
  intros [H0 H1]. unfold vget. destruct (Z.leb_spec 0 i); [|lia].
  apply list_lookup_insert_eq. unfold vsize in H1. lia.
Qed.

Lemma vget_insert_ne v i j x :
  0 ≤ i → i ≠ j → vget (<[Z.to_nat i := x]> v) j = vget v j.
Proof.
  intros. unfold vget. destruct (Z.leb_spec 0 j); [|done].
  apply list_lookup_insert_ne. lia.
Qed.

Lemma vsize_vmake n (x : A) : 0 ≤ n → vsize (vmake n x) = n.
Proof. intros. unfold vsize, vmake. rewrite length_replicate. lia. Qed.

Lemma vget_vmake n (x : A) i : 0 ≤ i < n → vget (vmake n x) i = Some x.
Proof.
  intros. unfold vget, vmake. destruct (Z.leb_spec 0 i); [|lia].
  apply lookup_replicate_2. lia.
Qed.

End VecLemmas.

Section MatLemmas.
Context {A : Type}.
Implicit Types (M : list (list A)).

(** Matrices: [r] rows of [c] cells. *)
Definition mshape (r c : Z) (M : list (list A)) : Prop :=
  vsize M = r ∧ ∀ i row, vget M i = Some row → vsize row = c.

Lemma mshape_vmake r c (x : A) : 0 ≤ r → 0 ≤ c → mshape r c (vmake r (vmake c x)).
Proof.
  intros Hr Hc. split; [by apply vsize_vmake|].
  intros i row Hi. assert (0 ≤ i < r) as Hi'.
  { apply vget_lt in Hi. by rewrite vsize_vmake in Hi. }
  rewrite vget_vmake in Hi by done. injection Hi as <-. by apply vsize_vmake.
Qed.

Lemma vget2_vmake r c (x : A) i j :
  0 ≤ i < r → 0 ≤ j < c → vget2 (vmake r (vmake c x)) i j = Some x.
Proof.
  intros Hi Hj. unfold vget2. rewrite vget_vmake by done. simpl. by apply vget_vmake.
Qed.

Lemma vget2_is_Some r c M i j :
  mshape r c M → 0 ≤ i < r → 0 ≤ j < c → is_Some (vget2 M i j).
Proof.
  intros [Hr Hc] Hi Hj. unfold vget2.
  destruct (vget_is_Some M i) as [row Hrow]; [lia|].
  rewrite Hrow. simpl. apply vget_is_Some. rewrite (Hc i row Hrow). done.
Qed.

(** A write into a matrix inside its bounds succeeds, keeps the shape, and
    changes the addressed cell only. *)
Lemma vset2_spec r c M i j x :
  mshape r c M → 0 ≤ i < r → 0 ≤ j < c →
  ∃ M', vset2 M i j x = Some M' ∧ mshape r c M' ∧
        vget2 M' i j = Some x ∧
        (∀ i' j', (i' ≠ i ∨ j' ≠ j) → vget2 M' i' j' = vget2 M i' j') ∧
        (∀ i', i' ≠ i → vget M' i' = vget M i').
Proof.
  intros [Hr Hc] Hi Hj. unfold vset2.
  destruct (vget_is_Some M i) as [row Hrow]; [lia|].
  pose proof (Hc i row Hrow) as Hlen.
  rewrite Hrow. simpl. rewrite vset_ok by lia. simpl. rewrite vset_ok by lia.
  eexists. split; [done|]. split; [|split; [|split]].
  - split; [by rewrite vsize_insert|].
    intros i' row' Hi'. destruct (decide (i' = i)) as [->|Hne].
    + rewrite vget_insert_eq in Hi' by lia. injection Hi' as <-.
      by rewrite vsize_insert.
    + rewrite vget_insert_ne in Hi' by lia. eauto.
  - unfold vget2. rewrite vget_insert_eq by lia. simpl.
    apply vget_insert_eq. lia.
  - intros i' j' Hne. unfold vget2. destruct (decide (i' = i)) as [->|Hi'].
    + rewrite vget_insert_eq by lia. rewrite Hrow. simpl.
      apply vget_insert_ne; lia.
    + by rewrite vget_insert_ne by lia.
  - intros i' Hne. apply vget_insert_ne; lia.
Qed.

Lemma vset2_None_row M i j x : ¬ (0 ≤ i < vsize M) → vset2 M i j x = None.
Proof.
  intros Hi. unfold vset2.
  destruct (vget M i) as [row|] eqn:E; [|done]. apply vget_lt in E. lia.
Qed.

Lemma vset2_None_col r c M i j x :
  mshape r c M → ¬ (0 ≤ j < c) → vset2 M i j x = None.
Proof.
  intros [Hr Hc] Hj. unfold vset2.
  destruct (vget M i) as [row|] eqn:E; [|done]. simpl.
  rewrite vset_None; [done|]. by rewrite (Hc i row E).
Qed.
End MatLemmas.

Section LoopLemmas.
Context {S : Type}.
Implicit Types (body : Z → S → option S).

(** Invariant rule for the ascending loop: total correctness. *)
Lemma for_up_inv (P : Z → S → Prop) body n i s :
  P i s →
  (∀ k s, i ≤ k < i + Z.of_nat n → P k s → ∃ s', body k s = Some s' ∧ P (k + 1) s') →
  ∃ s', for_up n i body s = Some s' ∧ P (i + Z.of_nat n) s'.
Proof.
  revert i s. induction n as [|n IH]; intros i s HP Hstep.
  - exists s. split; [done|]. by replace (i + Z.of_nat 0) with i by lia.
  - destruct (Hstep i s) as (s1 & Hb & HP1); [lia|done|].
    destruct (IH (i + 1) s1) as (s2 & Hf & HP2); [done| |].
    + intros k s' Hk. apply Hstep. lia.
    + exists s2. simpl. rewrite Hb. simpl. split; [done|].
      by replace (i + Z.of_nat (Datatypes.S n)) with (i + 1 + Z.of_nat n) by lia.
Qed.

Lemma for_range_inv (P : Z → S → Prop) body lo hi s :
  lo ≤ hi →
  P lo s →
  (∀ k s, lo ≤ k < hi → P k s → ∃ s', body k s = Some s' ∧ P (k + 1) s') →
  ∃ s', for_range lo hi body s = Some s' ∧ P hi s'.
Proof.
  intros Hle HP Hstep. unfold for_range.
  destruct (for_up_inv P body (Z.to_nat (hi - lo)) lo s) as (s' & ? & ?); [done| |].
  - intros k s' Hk. apply Hstep. lia.
  - exists s'. split; [done|]. by replace hi with (lo + Z.of_nat (Z.to_nat (hi - lo))) by lia.
Qed.

Lemma for_range_empty body lo hi s : hi ≤ lo → for_range lo hi body s = Some s.
Proof. intros. unfold for_range. by replace (Z.to_nat (hi - lo)) with O by lia. Qed.

(** The same rule when the range may be empty. *)
Lemma for_range_inv_max (P : Z → S → Prop) body lo hi s :
  P lo s →
  (∀ k s, lo ≤ k < hi → P k s → ∃ s', body k s = Some s' ∧ P (k + 1) s') →
  ∃ s', for_range lo hi body s = Some s' ∧ P (Z.max lo hi) s'.
Proof.
  intros HP Hstep. destruct (Z_le_gt_dec lo hi).
  - rewrite Z.max_r by lia. by apply for_range_inv.
  - rewrite Z.max_l by lia. exists s. rewrite for_range_empty by lia. done.
Qed.

Lemma for_dn_inv (P : Z → S → Prop) body n i s :
  P i s →
  (∀ k s, i - Z.of_nat n < k ≤ i → P k s → ∃ s', body k s = Some s' ∧ P (k - 1) s') →
  ∃ s', for_dn n i body s = Some s' ∧ P (i - Z.of_nat n) s'.
Proof.
  revert i s. induction n as [|n IH]; intros i s HP Hstep.
  - exists s. split; [done|]. by replace (i - Z.of_nat 0) with i by lia.
  - destruct (Hstep i s) as (s1 & Hb & HP1); [lia|done|].
    destruct (IH (i - 1) s1) as (s2 & Hf & HP2); [done| |].
    + intros k s' Hk. apply Hstep. lia.
    + exists s2. simpl. rewrite Hb. simpl. split; [done|].
      by replace (i - Z.of_nat (Datatypes.S n)) with (i - 1 - Z.of_nat n) by lia.
Qed.

Lemma for_down_inv (P : Z → S → Prop) body hi lo s :
  lo ≤ hi →
  P hi s →
  (∀ k s, lo < k ≤ hi → P k s → ∃ s', body k s = Some s' ∧ P (k - 1) s') →
  ∃ s', for_down hi lo body s = Some s' ∧ P lo s'.
Proof.
  intros Hle HP Hstep. unfold for_down.
  destruct (for_dn_inv P body (Z.to_nat (hi - lo)) hi s) as (s' & ? & ?); [done| |].
  - intros k s' Hk. apply Hstep. lia.
  - exists s'. split; [done|]. by replace lo with (hi - Z.of_nat (Z.to_nat (hi - lo))) by lia.
Qed.

Lemma for_down_empty body hi lo s : hi ≤ lo → for_down hi lo body s = Some s.
Proof. intros. unfold for_down. by replace (Z.to_nat (hi - lo)) with O by lia. Qed.
(** A loop faults when its body faults at some index [k] that it reaches. *)
Lemma for_up_None (P : Z → S → Prop) body n i k s :
  i ≤ k < i + Z.of_nat n → P i s →
  (∀ j s, i ≤ j < k → P j s → ∃ s', body j s = Some s' ∧ P (j + 1) s') →
  (∀ s, P k s → body k s = None) →
  for_up n i body s = None.
Proof.
  revert i s. induction n as [|n IH]; intros i s Hk HP Hstep Hfail; [lia|].
  simpl. destruct (decide (k = i)) as [->|Hne].
  - by rewrite Hfail.
  - destruct (Hstep i s) as (s' & -> & HP'); [lia|done|]. simpl.
    apply IH; [lia|done| |done]. intros j s'' Hj. apply Hstep. lia.
Qed.

Lemma for_range_None (P : Z → S → Prop) body lo hi k s :
  lo ≤ k < hi → P lo s →
  (∀ j s, lo ≤ j < k → P j s → ∃ s', body j s = Some s' ∧ P (j + 1) s') →
  (∀ s, P k s → body k s = None) →
  for_range lo hi body s = None.
Proof.
  intros Hk HP Hstep Hfail. unfold for_range.
  apply (for_up_None P body _ lo k s); [lia|done|done|done].
Qed.

(** Partial-correctness rules: what a loop that returned has established. *)
Lemma for_up_post (P : Z → S → Prop) body n i s r :
  P i s →
  (∀ k s s', i ≤ k < i + Z.of_nat n → P k s → body k s = Some s' → P (k + 1) s') →
  for_up n i body s = Some r → P (i + Z.of_nat n) r.
Proof.
  revert i s. induction n as [|n IH]; intros i s HP Hstep E; simpl in E.
  - injection E as <-. by replace (i + Z.of_nat 0) with i by lia.
  - destruct (body i s) as [s1|] eqn:Hb; [|done]. simpl in E.
    replace (i + Z.of_nat (Datatypes.S n)) with (i + 1 + Z.of_nat n) by lia.
    apply (IH (i + 1) s1); [|intros k s2 s3 Hk; apply Hstep; lia|done].
    apply (Hstep i s); [lia|done|done].
Qed.

Lemma for_range_post (P : Z → S → Prop) body lo hi s r :
  lo ≤ hi → P lo s →
  (∀ k s s', lo ≤ k < hi → P k s → body k s = Some s' → P (k + 1) s') →
  for_range lo hi body s = Some r → P hi r.
Proof.
  intros Hle HP Hstep E. unfold for_range in E.
  replace hi with (lo + Z.of_nat (Z.to_nat (hi - lo))) by lia.
  apply (for_up_post P body _ lo s r HP); [|done].
  intros k s1 s2 Hk. apply Hstep. lia.
Qed.

Lemma for_dn_post (P : Z → S → Prop) body n i s r :
  P i s →
  (∀ k s s', i - Z.of_nat n < k ≤ i → P k s → body k s = Some s' → P (k - 1) s') →
  for_dn n i body s = Some r → P (i - Z.of_nat n) r.
Proof.
  revert i s. induction n as [|n IH]; intros i s HP Hstep E; simpl in E.
  - injection E as <-. by replace (i - Z.of_nat 0) with i by lia.
  - destruct (body i s) as [s1|] eqn:Hb; [|done]. simpl in E.
    replace (i - Z.of_nat (Datatypes.S n)) with (i - 1 - Z.of_nat n) by lia.
    apply (IH (i - 1) s1); [|intros k s2 s3 Hk; apply Hstep; lia|done].
    apply (Hstep i s); [lia|done|done].
Qed.

Lemma for_down_post (P : Z → S → Prop) body hi lo s r :
  lo ≤ hi → P hi s →
  (∀ k s s', lo < k ≤ hi → P k s → body k s = Some s' → P (k - 1) s') →
  for_down hi lo body s = Some r → P lo r.
Proof.
  intros Hle HP Hstep E. unfold for_down in E.
  replace lo with (hi - Z.of_nat (Z.to_nat (hi - lo))) by lia.
  apply (for_dn_post P body _ hi s r HP); [|done].
  intros k s1 s2 Hk. apply Hstep. lia.
Qed.

End LoopLemmas.

(** [loop_inv P as r Hr HP] applies the invariant rule to the outermost loop
    of the goal: it leaves the bound check, the invariant at entry, its
    preservation by the body, and the goal with the loop replaced by its
    result [r], for which [HP] holds. *)
Tactic Notation "loop_inv" constr(P) "as" ident(r) ident(Hr) ident(HP) :=
  match goal with
  | |- context [for_range ?lo ?hi ?body ?s] =>
      destruct (for_range_inv P body lo hi s) as (r & Hr & HP);
      [ | | | rewrite Hr ]
  | |- context [for_down ?hi ?lo ?body ?s] =>
      destruct (for_down_inv P body hi lo s) as (r & Hr & HP);
      [ | | | rewrite Hr ]
  end.

(** ** Pre-emphasis *)

(** C6. For every frame [x] of length [L] the pre-emphasis stage of
  [extractMFCC] runs without fault and produces [y] of the same length with
  [y[0] = x[0]] and [y[i] = x[i] - 0.97 * x[i-1]] for every [i] in [[1, L)],
  where [x[i-1]] is the original sample: the loop runs from the back, so an
  update never reads a sample that was already overwritten. *)
Theorem pre_emphasis_spec (x : list double) :
∃ y, pre_emphasis x = Some y ∧
     vsize y = vsize x ∧
     vget y 0 = vget x 0 ∧
     ∀ i, 1 ≤ i < vsize x →
          ∃ xi xp, vget x i = Some xi ∧ vget x (i - 1) = Some xp ∧
                   vget y i = Some (xi - PRE_EMPHASIS * xp)%float.
Proof.
unfold pre_emphasis.
destruct (Z_le_gt_dec (vsize x) 0) as [Hz|Hpos].
{ exists x. rewrite for_down_empty by lia. repeat split; try done. intros; lia. }
set (P := λ (k : Z) (f : list double),
       vsize f = vsize x ∧
       (∀ j, j ≤ k → vget f j = vget x j) ∧
       (∀ j, k < j < vsize x →
             ∃ xi xp, vget x j = Some xi ∧ vget x (j - 1) = Some xp ∧
                      vget f j = Some (xi - PRE_EMPHASIS * xp)%float)).
destruct (for_down_inv P
  (λ i frame, a ← vget frame i; b ← vget frame (i - 1);
              vset frame i (a - PRE_EMPHASIS * b)%float)
  (vsize x - 1) 0 x) as (y & Hy & Hs & Hlo & Hhi).
- lia.
- split; [done|]. split; [done|]. intros; lia.
- intros k f Hk (Hs & Hlo & Hhi).
  destruct (vget_is_Some x k) as [xi Hxi]; [lia|].
  destruct (vget_is_Some x (k - 1)) as [xp Hxp]; [lia|].
  rewrite (Hlo k), Hxi by lia. simpl.
  rewrite (Hlo (k - 1)), Hxp by lia. simpl.
  rewrite vset_ok by lia.
  eexists; split; [done|]. split; [|split].
  + by rewrite vsize_insert.
  + intros j Hj. rewrite vget_insert_ne by lia. apply Hlo. lia.
  + intros j Hj. destruct (decide (j = k)) as [->|Hne].
    * exists xi, xp. rewrite vget_insert_eq by lia. done.
    * rewrite vget_insert_ne by lia. apply Hhi. lia.
- exists y. split; [done|]. split; [done|]. split.
  + apply Hlo. lia.
  + intros i Hi. apply Hhi. lia.
Qed.

(** ** The HMM decoder *)

Lemma valloc_Some {A} n (x : A) v : valloc n x = Some v ↔ 0 ≤ n ∧ v = vmake n x.
Proof.
  unfold valloc. destruct (Z.leb_spec 0 n); split; intros H'; try done.
  - by injection H' as <-.
  - by destruct H' as [_ ->].
  - lia.
Qed.

Lemma ltb_LOG_ZERO : (LOG_ZERO <? LOG_ZERO)%float = false.
Proof. reflexivity. Qed.

Lemma eqb_LOG_ZERO : (LOG_ZERO =? LOG_ZERO)%float = true.
Proof. reflexivity. Qed.

Lemma max_element_from_LOG_ZERO n :
  max_element_from LOG_ZERO (replicate n LOG_ZERO) = LOG_ZERO.
Proof.
  induction n as [|n IH]; cbn [max_element_from replicate]; [done|].
  by rewrite ltb_LOG_ZERO.
Qed.

(** [collect] gathers the values of a function that is defined on the range. *)
Lemma collect_total n f :
  (∀ s, 0 ≤ s < n → is_Some (f s)) → is_Some (collect n f).
Proof.
  intros Hf. unfold collect. destruct (Z_le_gt_dec n 0).
  { rewrite for_range_empty by lia. done. }
  destruct (for_range_inv (λ _ _, True) (λ s v, x ← f s; Some (v ++ [x])) 0 n [])
    as (v & -> & _); try done; [lia|].
  intros k v Hk _. destruct (Hf k Hk) as [x ->]. simpl. eauto.
Qed.

Lemma collect_const n f x :
  0 ≤ n → (∀ s, 0 ≤ s < n → f s = Some x) → collect n f = Some (vmake n x).
Proof.
  intros Hn Hf. unfold collect.
  destruct (for_range_inv (λ k v, v = vmake k x) (λ s v, y ← f s; Some (v ++ [y])) 0 n [])
    as (v & -> & ->); try done.
  intros k v Hk ->. rewrite (Hf k Hk). simpl. eexists. split; [done|].
  unfold vmake. replace (Z.to_nat (k + 1)) with (Datatypes.S (Z.to_nat k)) by lia.
  by rewrite replicate_S_end.
Qed.

(** The same for a loop whose range may be empty: the invariant holds at
    [max lo hi] on exit. *)
Tactic Notation "loop_inv_max" constr(P) "as" ident(r) ident(Hr) ident(HP) :=
  match goal with
  | |- context [for_range ?lo ?hi ?body ?s] =>
      destruct (for_range_inv_max P body lo hi s) as (r & Hr & HP);
      [ | | rewrite Hr ]
  end.

(** [collect_some as l Hl] replaces the outermost [collect] of the goal by
    its result, leaving the definedness of the collected function. *)
Tactic Notation "collect_some" "as" ident(l) ident(Hl) :=
  match goal with
  | |- context [collect ?n ?f] =>
      destruct (collect_total n f) as [l Hl]; [ | rewrite Hl ]
  end.

Section HMMProofs.
Context `{Cmath}.
Implicit Types (h : HMM) (observations : list Z).

Lemma log_sum_exp_LOG_ZERO n : log_sum_exp (replicate n LOG_ZERO) = LOG_ZERO.
Proof.
  destruct n as [|n]; cbn [log_sum_exp replicate]; [done|].
  by rewrite max_element_from_LOG_ZERO, eqb_LOG_ZERO.
Qed.

(** The tables of a decoder have the dimensions fixed at construction. *)
Definition hmm_wf h : Prop :=
  0 ≤ num_states h ∧ 0 ≤ num_observations h ∧
  mshape (num_states h) (num_states h) (transition_probs h) ∧
  mshape (num_states h) (num_observations h) (emission_probs h) ∧
  vsize (initial_probs h) = num_states h.

Lemma HMM_new_wf N K h :
  HMM_new N K = Some h → hmm_wf h ∧ num_states h = N ∧ num_observations h = K.
Proof.
  unfold HMM_new. intros E.
  destruct (valloc N LOG_ZERO) as [trow|] eqn:E1; [|done]. simpl in E.
  destruct (valloc K LOG_ZERO) as [erow|] eqn:E2; [|done]. simpl in E.
  apply valloc_Some in E1 as [HN ->]. apply valloc_Some in E2 as [HK ->].
  injection E as <-. unfold hmm_wf. simpl.
  split; [|done]. split; [done|]. split; [done|].
  split; [by apply mshape_vmake|]. split; [by apply mshape_vmake|].
  by apply vsize_vmake.
Qed.

(** *** The setters *)

Lemma setInitialProb_ignored h state prob :
  fgt prob 0 = false ∨ num_states h ≤ state → setInitialProb h state prob = Some h.
Proof.
  intros Hc. unfold setInitialProb.
  destruct (fgt prob 0); simpl; [|done].
  destruct Hc as [?|?]; [done|]. by destruct (Z.ltb_spec state (num_states h)); [lia|].
Qed.

Lemma setInitialProb_stored h state prob :
  hmm_wf h → fgt prob 0 = true → 0 ≤ state < num_states h →
  setInitialProb h state prob =
    Some (mkHMM (num_states h) (num_observations h) (transition_probs h)
            (emission_probs h) (<[Z.to_nat state := log prob]> (initial_probs h))).
Proof.
  intros (_ & _ & _ & _ & Hi) Hp Hs. unfold setInitialProb. rewrite Hp. simpl.
  destruct (Z.ltb_spec state (num_states h)); [|lia].
  rewrite vset_ok by lia. done.
Qed.

Lemma setInitialProb_negative h state prob :
  hmm_wf h → fgt prob 0 = true → state < 0 → setInitialProb h state prob = None.
Proof.
  intros (HN & _) Hp Hs. unfold setInitialProb. rewrite Hp. simpl.
  destruct (Z.ltb_spec state (num_states h)); [|lia].
  rewrite vset_None by lia. done.
Qed.

Lemma setTransitionProb_ignored h from_state to_state prob :
  fgt prob 0 = false ∨ num_states h ≤ from_state ∨ num_states h ≤ to_state →
  setTransitionProb h from_state to_state prob = Some h.
Proof.
  intros Hc. unfold setTransitionProb.
  destruct (fgt prob 0); simpl; [|done].
  destruct (Z.ltb_spec from_state (num_states h)),
           (Z.ltb_spec to_state (num_states h)); simpl; try done.
  destruct Hc as [?|[?|?]]; [done|lia|lia].
Qed.

Lemma setTransitionProb_stored h from_state to_state prob :
  hmm_wf h → fgt prob 0 = true →
  0 ≤ from_state < num_states h → 0 ≤ to_state < num_states h →
  ∃ tp, setTransitionProb h from_state to_state prob =
          Some (mkHMM (num_states h) (num_observations h) tp
                  (emission_probs h) (initial_probs h)) ∧
        mshape (num_states h) (num_states h) tp ∧
        vget2 tp from_state to_state = Some (log prob) ∧
        ∀ i j, i ≠ from_state ∨ j ≠ to_state →
               vget2 tp i j = vget2 (transition_probs h) i j.
Proof.
  intros (_ & _ & Ht & _ & _) Hp Hi Hj. unfold setTransitionProb. rewrite Hp. simpl.
  destruct (Z.ltb_spec from_state (num_states h)); [|lia].
  destruct (Z.ltb_spec to_state (num_states h)); [|lia]. simpl.
  destruct (vset2_spec _ _ _ from_state to_state (log prob) Ht Hi Hj)
    as (tp & -> & Hs & Hg & Hne & _).
  exists tp. done.
Qed.

Lemma setTransitionProb_negative h from_state to_state prob :
  hmm_wf h → fgt prob 0 = true →
  from_state < num_states h → to_state < num_states h →
  from_state < 0 ∨ to_state < 0 →
  setTransitionProb h from_state to_state prob = None.
Proof.
  intros (HN & _ & Ht & _ & _) Hp Hi Hj Hneg. unfold setTransitionProb. rewrite Hp. simpl.
  destruct (Z.ltb_spec from_state (num_states h)); [|lia].
  destruct (Z.ltb_spec to_state (num_states h)); [|lia]. simpl.
  destruct (Z_lt_dec from_state 0).
  - rewrite vset2_None_row; [done|]. destruct Ht as [-> _]. lia.
  - rewrite (vset2_None_col _ _ _ _ _ _ Ht); [done|]. lia.
Qed.

Lemma setEmissionProb_ignored h state observation prob :
  fgt prob 0 = false ∨ num_states h ≤ state ∨ num_observations h ≤ observation →
  setEmissionProb h state observation prob = Some h.
Proof.
  intros Hc. unfold setEmissionProb.
  destruct (fgt prob 0); simpl; [|done].
  destruct (Z.ltb_spec state (num_states h)),
           (Z.ltb_spec observation (num_observations h)); simpl; try done.
  destruct Hc as [?|[?|?]]; [done|lia|lia].
Qed.

Lemma setEmissionProb_stored h state observation prob :
  hmm_wf h → fgt prob 0 = true →
  0 ≤ state < num_states h → 0 ≤ observation < num_observations h →
  ∃ ep, setEmissionProb h state observation prob =
          Some (mkHMM (num_states h) (num_observations h) (transition_probs h)
                  ep (initial_probs h)) ∧
        mshape (num_states h) (num_observations h) ep ∧
        vget2 ep state observation = Some (log prob) ∧
        ∀ i j, i ≠ state ∨ j ≠ observation →
               vget2 ep i j = vget2 (emission_probs h) i j.
Proof.
  intros (_ & _ & _ & He & _) Hp Hi Hj. unfold setEmissionProb. rewrite Hp. simpl.
  destruct (Z.ltb_spec state (num_states h)); [|lia].
  destruct (Z.ltb_spec observation (num_observations h)); [|lia]. simpl.
  destruct (vset2_spec _ _ _ state observation (log prob) He Hi Hj)
    as (ep & -> & Hs & Hg & Hne & _).
  exists ep. done.
Qed.

Lemma setEmissionProb_negative h state observation prob :
  hmm_wf h → fgt prob 0 = true →
  state < num_states h → observation < num_observations h →
  state < 0 ∨ observation < 0 →
  setEmissionProb h state observation prob = None.
Proof.
  intros (HN & _ & _ & He & _) Hp Hi Hj Hneg. unfold setEmissionProb. rewrite Hp. simpl.
  destruct (Z.ltb_spec state (num_states h)); [|lia].
  destruct (Z.ltb_spec observation (num_observations h)); [|lia]. simpl.
  destruct (Z_lt_dec state 0).
  - rewrite vset2_None_row; [done|]. destruct He as [-> _]. lia.
  - rewrite (vset2_None_col _ _ _ _ _ _ He); [done|]. lia.
Qed.

(** The setters keep the dimensions of the tables: every decoder obtained
    from the constructor by calls that return is well formed. *)
Lemma setInitialProb_wf h state prob h' :
  hmm_wf h → setInitialProb h state prob = Some h' → hmm_wf h'.
Proof.
  intros Hwf. unfold setInitialProb. destruct (_ && _); [|by intros [= <-]].
  destruct (vset (initial_probs h) state (log prob)) as [ip|] eqn:E; [|done].
  simpl. intros [= <-]. apply vset_Some in E as [_ ->].
  destruct Hwf as (? & ? & ? & ? & ?). unfold hmm_wf. simpl.
  by rewrite vsize_insert.
Qed.

Lemma vset2_mshape {A} r c (M M' : list (list A)) i j x :
  mshape r c M → vset2 M i j x = Some M' → mshape r c M'.
Proof.
  intros Hsh E. pose proof E as E'. unfold vset2 in E'.
  destruct (vget M i) as [row|] eqn:Er; [|done]. simpl in E'.
  destruct (vset row j x) as [row'|] eqn:Es; [|done]. simpl in E'.
  apply vset_Some in Es as [Hj _]. apply vget_lt in Er as Hi.
  destruct Hsh as [Hr Hc]. rewrite (Hc i row Er) in Hj. rewrite Hr in Hi.
  destruct (vset2_spec r c M i j x (conj Hr Hc) Hi Hj) as (M'' & E'' & Hsh' & _).
  rewrite E in E''. by injection E'' as <-.
Qed.

Lemma setTransitionProb_wf h from_state to_state prob h' :
  hmm_wf h → setTransitionProb h from_state to_state prob = Some h' → hmm_wf h'.
Proof.
  intros Hwf. unfold setTransitionProb. destruct (_ && _); [|by intros [= <-]].
  destruct (vset2 _ _ _ _) as [tp|] eqn:E; [|done].
  simpl. intros [= <-]. destruct Hwf as (? & ? & Ht & ? & ?). unfold hmm_wf. simpl.
  split; [done|]. split; [done|]. split; [|done]. by apply (vset2_mshape _ _ _ _ _ _ _ Ht E).
Qed.

Lemma setEmissionProb_wf h state observation prob h' :
  hmm_wf h → setEmissionProb h state observation prob = Some h' → hmm_wf h'.
Proof.
  intros Hwf. unfold setEmissionProb. destruct (_ && _); [|by intros [= <-]].
  destruct (vset2 _ _ _ _) as [ep|] eqn:E; [|done].
  simpl. intros [= <-]. destruct Hwf as (? & ? & ? & He & ?). unfold hmm_wf. simpl.
  split; [done|]. split; [done|]. split; [done|].
  split; [|done]. by apply (vset2_mshape _ _ _ _ _ _ _ He E).
Qed.


(** *** The dynamic-programming tables *)

(** Every symbol of the sequence is a valid category or lies above the
    vocabulary: no symbol is negative. *)
Definition symbols_nonneg observations : Prop :=
  ∀ t o, vget observations t = Some o → 0 ≤ o.

Lemma first_column_spec h observations table T :
  hmm_wf h → mshape T (num_states h) table → 0 < T →
  0 < vsize observations → symbols_nonneg observations →
  ∃ table', first_column h observations table = Some table' ∧
            mshape T (num_states h) table' ∧
            (∀ t, t ≠ 0 → vget table' t = vget table t) ∧
            (∀ o, vget observations 0 = Some o → num_observations h ≤ o → table' = table).
Proof.
  intros (HN & HK & Ht & He & Hi) Hsh HT Hlen Hnn. unfold first_column.
  destruct (vget_is_Some observations 0) as [o Ho]; [lia|].
  pose proof (Hnn 0 o Ho) as Ho0.
  destruct (for_range_inv
    (λ (_ : Z) tb, mshape T (num_states h) tb ∧
                   (∀ t, t ≠ 0 → vget tb t = vget table t) ∧
                   (num_observations h ≤ o → tb = table))
    (λ s table,
       o ← vget observations 0;
       if o <? num_observations h then
         ip ← vget (initial_probs h) s;
         e ← vget2 (emission_probs h) s o;
         vset2 table 0 s (ip + e)%float
       else Some table) 0 (num_states h) table) as (tb & Hr & Hsh' & Hrows & Hsame);
    [done|done| |].
  - intros s tb Hs (Hsh' & Hrows & Hsame). rewrite Ho. simpl.
    destruct (Z.ltb_spec o (num_observations h)).
    + destruct (vget_is_Some (initial_probs h) s) as [ip ->]; [lia|]. simpl.
      destruct (vget2_is_Some _ _ _ s o He) as [e ->]; [lia|lia|]. simpl.
      destruct (vset2_spec _ _ _ 0 s (ip + e)%float Hsh') as (tb' & -> & ? & _ & _ & Hr');
        [lia|lia|].
      exists tb'. split; [done|]. split; [done|]. split; [|lia].
      intros t Hne. rewrite Hr' by done. by apply Hrows.
    + exists tb. done.
  - exists tb. split; [done|]. split; [done|]. split; [done|].
    intros o' Ho' Hge. rewrite Ho in Ho'. injection Ho' as <-. by apply Hsame.
Qed.

Lemma viterbi_cell_total h observations V T t s o :
  hmm_wf h → mshape T (num_states h) V → 1 ≤ t < T →
  vget observations t = Some o → 0 ≤ o < num_observations h →
  0 ≤ s < num_states h →
  is_Some (viterbi_cell h observations V t s).
Proof.
  intros (HN & HK & Ht & He & Hi) Hsh Hrange Ho Hok Hs. unfold viterbi_cell.
  loop_inv (λ (_ : Z) (_ : double * Z), True) as r Hr HP; [done|done| |done].
  intros k [mp bp] Hk _.
  destruct (vget2_is_Some _ _ _ (t - 1) k Hsh) as [v ->]; [lia|lia|]. simpl.
  destruct (vget2_is_Some _ _ _ k s Ht) as [a ->]; [lia|lia|]. simpl.
  rewrite Ho. simpl.
  destruct (vget2_is_Some _ _ _ s o He) as [e ->]; [lia|lia|]. simpl.
  destruct (fgt _ _); eauto.
Qed.

(** The Viterbi tables of a non-empty sequence without negative symbols are
    computed without fault, and a column whose symbol is outside the
    vocabulary keeps its initial contents. *)
Lemma viterbi_tables_spec h observations :
  hmm_wf h → 0 < vsize observations → symbols_nonneg observations →
  ∃ V psi, viterbi_tables h observations = Some (V, psi) ∧
           mshape (vsize observations) (num_states h) V ∧
           mshape (vsize observations) (num_states h) psi ∧
           ∀ t o s, vget observations t = Some o → num_observations h ≤ o →
                    0 ≤ s < num_states h →
                    vget2 V t s = Some LOG_ZERO ∧ vget2 psi t s = Some (-1).
Proof.
  intros Hwf HT Hnn. pose proof Hwf as (HN & HK & Ht & He & Hi).
  unfold viterbi_tables.
  set (T := vsize observations) in *. set (N := num_states h) in *.
  set (K := num_observations h) in *.
  destruct (first_column_spec h observations (vmake T (vmake N LOG_ZERO)) T)
    as (V0 & -> & Hsh0 & Hrows0 & Hsame0); try done.
  { apply mshape_vmake; lia. }
  simpl.
  set (P := λ (_ : Z) (st : list (list double) * list (list Z)),
         mshape T N st.1 ∧ mshape T N st.2 ∧
         ∀ t o s, vget observations t = Some o → K ≤ o → 0 ≤ s < N →
                  vget2 st.1 t s = Some LOG_ZERO ∧ vget2 st.2 t s = Some (-1)).
  loop_inv P as r Hr HP; [lia| | |destruct r as [V psi], HP as (HV & Hpsi & Hcol)].
  - split; [done|]. split; [apply mshape_vmake; lia|]. simpl.
    intros t o s Ho Hge Hs. pose proof (vget_lt _ _ _ Ho) as Ht'.
    split; [|apply vget2_vmake; done].
    destruct (decide (t = 0)) as [->|Hne].
    + rewrite (Hsame0 o Ho Hge). apply vget2_vmake; done.
    + unfold vget2. rewrite Hrows0 by done. apply (vget2_vmake T N); done.
  - intros t [V psi] Hrange (HV & Hpsi & Hcol). simpl in HV, Hpsi, Hcol.
    destruct (vget_is_Some observations t) as [o Ho]; [lia|]. rewrite Ho. simpl.
    destruct (Z.geb_spec o K) as [Hge|Hlt].
    { exists (V, psi). done. }
    pose proof (Hnn t o Ho) as Ho0.
    set (Q := λ (_ : Z) (st : list (list double) * list (list Z)),
           mshape T N st.1 ∧ mshape T N st.2 ∧
           (∀ t', t' ≠ t → vget st.1 t' = vget V t') ∧
           (∀ t', t' ≠ t → vget st.2 t' = vget psi t')).
    loop_inv Q as r Hr HQ; [done|done| |destruct r as [V' psi'], HQ as (HV' & Hpsi' & HrV & Hrpsi)].
    + intros s [V1 psi1] Hs (HV1 & Hpsi1 & HrV & Hrpsi). simpl in *.
      destruct (viterbi_cell_total h observations V1 T t s o) as [[mp bp] ->];
        try done; try lia.
      simpl.
      destruct (vset2_spec _ _ _ t s mp HV1) as (V2 & -> & ? & _ & _ & HrV2); [lia|lia|].
      simpl.
      destruct (vset2_spec _ _ _ t s bp Hpsi1) as (psi2 & -> & ? & _ & _ & Hrpsi2);
        [lia|lia|].
      simpl. exists (V2, psi2). split; [done|]. split; [done|]. split; [done|].
      simpl. split.
      * intros t' Hne. rewrite HrV2 by done. by apply HrV.
      * intros t' Hne. rewrite Hrpsi2 by done. by apply Hrpsi.
    + exists (V', psi'). split; [done|]. split; [done|]. split; [done|]. simpl in *.
      intros t' o' s Ho' Hge Hs.
      assert (t' ≠ t) as Hne. { intros ->. rewrite Ho in Ho'. injection Ho' as <-. lia. }
      destruct (Hcol t' o' s Ho' Hge Hs) as [E1 E2].
      unfold vget2 in *. rewrite HrV, Hrpsi by done. done.
  - exists V, psi. done.
Qed.


(** An out-of-vocabulary symbol occurs at or before time [t]; after time
    [t]. *)
Definition oov_upto observations (K t : Z) : Prop :=
  ∃ t0 o, 0 ≤ t0 ≤ t ∧ vget observations t0 = Some o ∧ K ≤ o.

Definition oov_after observations (K t : Z) : Prop :=
  ∃ t0 o, t < t0 ∧ vget observations t0 = Some o ∧ K ≤ o.

(** The sentinel absorbs the parameters of the model: adding [LOG_ZERO] to a
    transition or emission entry, or to the sum of an emission entry with a
    transition or initial entry, gives [LOG_ZERO] back.  This holds when every
    entry is the logarithm of an ordinary probability ([|log p| < 745] is far
    below the spacing of doubles near [1e30]), and fails for an entry left at
    [LOG_ZERO], since [LOG_ZERO + LOG_ZERO = -2e30]. *)
Definition absorbed h : Prop :=
  (∀ i j a, vget2 (transition_probs h) i j = Some a →
            (LOG_ZERO + a)%float = LOG_ZERO) ∧
  (∀ s o e, vget2 (emission_probs h) s o = Some e →
            (LOG_ZERO + e)%float = LOG_ZERO) ∧
  (∀ i j a s o e, vget2 (transition_probs h) i j = Some a →
                  vget2 (emission_probs h) s o = Some e →
                  (a + e + LOG_ZERO)%float = LOG_ZERO) ∧
  (∀ i p s o e, vget (initial_probs h) i = Some p →
                vget2 (emission_probs h) s o = Some e →
                (p + e + LOG_ZERO)%float = LOG_ZERO).

(** The forward table, likewise.  When the sentinel absorbs the parameters,
    every column from the first out-of-vocabulary symbol on is at
    [LOG_ZERO]. *)
Lemma forward_table_spec h observations :
  hmm_wf h → 0 < vsize observations → symbols_nonneg observations →
  ∃ alpha, forward_table h observations = Some alpha ∧
           mshape (vsize observations) (num_states h) alpha ∧
           (∀ t o s, vget observations t = Some o → num_observations h ≤ o →
                     0 ≤ s < num_states h → vget2 alpha t s = Some LOG_ZERO) ∧
           (absorbed h →
            ∀ t s, oov_upto observations (num_observations h) t →
                   t < vsize observations → 0 ≤ s < num_states h →
                   vget2 alpha t s = Some LOG_ZERO).
Proof.
  intros Hwf HT Hnn. pose proof Hwf as (HN & HK & Ht & He & Hi).
  unfold forward_table.
  set (T := vsize observations) in *. set (N := num_states h) in *.
  set (K := num_observations h) in *.
  destruct (first_column_spec h observations (vmake T (vmake N LOG_ZERO)) T)
    as (A0 & -> & Hsh0 & Hrows0 & Hsame0); try done.
  { apply mshape_vmake; lia. }
  simpl.
  set (P := λ (_ : Z) (alpha : list (list double)),
         mshape T N alpha ∧
         (∀ t o s, vget observations t = Some o → K ≤ o → 0 ≤ s < N →
                   vget2 alpha t s = Some LOG_ZERO) ∧
         (absorbed h → ∀ t s, oov_upto observations K t → t < T → 0 ≤ s < N →
                              vget2 alpha t s = Some LOG_ZERO)).
  loop_inv P as alpha Hr HP; [lia| | |].
  - split; [done|]. split.
    + intros t o s Ho Hge Hs. pose proof (vget_lt _ _ _ Ho) as Ht'.
      destruct (decide (t = 0)) as [->|Hne].
      * rewrite (Hsame0 o Ho Hge). apply vget2_vmake; done.
      * unfold vget2. rewrite Hrows0 by done. apply (vget2_vmake T N); done.
    + intros _ t s (t0 & o0 & Ht0 & Ho0 & Hge0) HtT Hs.
      destruct (decide (t = 0)) as [->|Hne].
      * assert (t0 = 0) as -> by lia.
        rewrite (Hsame0 o0 Ho0 Hge0). apply vget2_vmake; lia.
      * unfold vget2. rewrite Hrows0 by done. apply (vget2_vmake T N); lia.
  - intros t A Hrange (HA & Hcol & HD).
    destruct (vget_is_Some observations t) as [o Ho]; [lia|]. rewrite Ho. simpl.
    destruct (Z.geb_spec o K) as [Hge|Hlt].
    { exists A. done. }
    pose proof (Hnn t o Ho) as Ho0.
    assert (oov_upto observations K t → oov_upto observations K (t - 1)) as Hprev.
    { intros (t0 & o0 & Ht0 & Ho0' & Hge0). exists t0, o0. split; [|done].
      assert (t0 ≠ t); [|lia]. intros ->. rewrite Ho in Ho0'. injection Ho0' as <-. lia. }
    set (Q := λ (_ : Z) (al : list (list double)),
           mshape T N al ∧ (∀ t', t' ≠ t → vget al t' = vget A t') ∧
           (absorbed h → oov_upto observations K t →
            ∀ s', 0 ≤ s' < N → vget2 al t s' = Some LOG_ZERO)).
    loop_inv Q as A' Hr' HQ; [done| | |].
    + split; [done|]. split; [done|]. intros Habs Hoov s' Hs'. apply HD; try done; lia.
    + intros s A1 Hs (HA1 & HrA & Hdead).
      collect_some as lp Hlp.
      { intros k Hk.
        destruct (vget2_is_Some _ _ _ (t - 1) k HA1) as [a ->]; [lia|lia|]. simpl.
        destruct (vget2_is_Some _ _ _ k s Ht) as [p ->]; [lia|lia|]. simpl. eauto. }
      simpl.
      destruct (vget2_is_Some _ _ _ s o He) as [e Hes]; [lia|lia|]. rewrite Hes. simpl.
      destruct (vset2_spec _ _ _ t s (log_sum_exp lp + e)%float HA1)
        as (A2 & -> & ? & Hg & Hne & HrA2); [lia|lia|].
      exists A2. split; [done|]. split; [done|]. split.
      { intros t' Hne'. rewrite HrA2 by done. by apply HrA. }
      intros Habs Hoov s' Hs'. destruct (decide (s' = s)) as [->|Hs's].
      * rewrite Hg. f_equal.
        assert (lp = vmake N LOG_ZERO) as ->.
        { rewrite (collect_const _ _ LOG_ZERO) in Hlp; [by injection Hlp|lia|].
          intros k Hk.
          assert (vget2 A (t - 1) k = Some LOG_ZERO) as E
            by (apply HD; try done; try lia; by apply Hprev).
          assert (vget2 A1 (t - 1) k = Some LOG_ZERO) as ->.
          { unfold vget2 in *. rewrite HrA by lia. done. }
          simpl.
          destruct (vget2_is_Some _ _ _ k s Ht) as [p Hp]; [lia|lia|]. rewrite Hp. simpl.
          f_equal. by apply (proj1 Habs k s). }
        unfold vmake. rewrite log_sum_exp_LOG_ZERO. by apply (proj1 (proj2 Habs) s o).
      * rewrite Hne by (right; done). by apply Hdead.
    + destruct HQ as (HA' & HrA & Hdead).
      exists A'. split; [done|]. split; [done|]. split.
      * intros t' o' s Ho' Hge Hs.
        assert (t' ≠ t) as Hne. { intros ->. rewrite Ho in Ho'. injection Ho' as <-. lia. }
        pose proof (Hcol t' o' s Ho' Hge Hs) as E.
        unfold vget2 in *. by rewrite HrA.
      * intros Habs t' s Hoov Ht'T Hs. destruct (decide (t' = t)) as [->|Hne].
        { by apply Hdead. }
        pose proof (HD Habs t' s Hoov Ht'T Hs) as E.
        unfold vget2 in *. by rewrite HrA.
  - destruct HP as (HA & Hcol & HD). exists alpha. done.
Qed.

(** [forward] returns on every non-empty sequence without negative symbols;
    it returns [LOG_ZERO] when the last symbol is outside the vocabulary, and,
    when the sentinel absorbs the parameters, as soon as any symbol is. *)
Lemma forward_spec h observations :
  hmm_wf h → 0 < vsize observations → symbols_nonneg observations →
  ∃ l, forward h observations = Some l ∧
       (∀ o, vget observations (vsize observations - 1) = Some o →
             num_observations h ≤ o → l = LOG_ZERO) ∧
       (absorbed h → ∀ t o, vget observations t = Some o →
                            num_observations h ≤ o → l = LOG_ZERO).
Proof.
  intros Hwf HT Hnn. pose proof Hwf as (HN & HK & Ht & He & Hi).
  unfold forward. destruct (Z.eqb_spec (vsize observations) 0); [lia|].
  destruct (forward_table_spec h observations Hwf HT Hnn)
    as (alpha & -> & Hsh & Hcol & HD).
  simpl.
  destruct (collect_total (num_states h) (λ s, vget2 alpha (vsize observations - 1) s))
    as [fp Hfp].
  { intros s Hs. apply (vget2_is_Some _ _ _ _ _ Hsh); lia. }
  rewrite Hfp. simpl. eexists. split; [done|]. split.
  - intros o Ho Hge.
    rewrite (collect_const _ _ LOG_ZERO) in Hfp; [|done|by eauto].
    injection Hfp as <-. apply log_sum_exp_LOG_ZERO.
  - intros Habs t o Ho Hge. pose proof (vget_lt _ _ _ Ho) as Ht'.
    rewrite (collect_const _ _ LOG_ZERO) in Hfp; [|done|].
    + injection Hfp as <-. apply log_sum_exp_LOG_ZERO.
    + intros s Hs. apply HD; try done; [|lia]. exists t, o. split; [lia|done].
Qed.

(** The backward table: column [t] is computed from the symbol at [t + 1].
    When the sentinel absorbs the parameters, every column before the last
    out-of-vocabulary symbol is at [LOG_ZERO]. *)
Lemma backward_table_spec h observations :
  hmm_wf h → 0 < vsize observations → symbols_nonneg observations →
  ∃ beta, backward_table h observations = Some beta ∧
          mshape (vsize observations) (num_states h) beta ∧
          (∀ s, 0 ≤ s < num_states h →
                vget2 beta (vsize observations - 1) s = Some 0%float) ∧
          (∀ t o s, 0 ≤ t → vget observations (t + 1) = Some o →
                    num_observations h ≤ o → 0 ≤ s < num_states h →
                    vget2 beta t s = Some LOG_ZERO) ∧
          (absorbed h →
           ∀ t s, 0 ≤ t → oov_after observations (num_observations h) t →
                  0 ≤ s < num_states h → vget2 beta t s = Some LOG_ZERO).
Proof.
  intros Hwf HT Hnn. pose proof Hwf as (HN & HK & Ht & He & Hi).
  unfold backward_table.
  set (T := vsize observations) in *. set (N := num_states h) in *.
  set (K := num_observations h) in *.
  set (P0 := λ (k : Z) (beta : list (list double)),
         mshape T N beta ∧
         (∀ t', t' ≠ T - 1 → vget beta t' = vget (vmake T (vmake N LOG_ZERO)) t') ∧
         ∀ s, 0 ≤ s < k → vget2 beta (T - 1) s = Some 0%float).
  loop_inv P0 as B0 Hr0 HP0; [lia| | |].
  { split; [apply mshape_vmake; lia|]. split; [done|]. intros; lia. }
  { intros s B Hs (HB & Hrows & Hlast).
    destruct (vset2_spec _ _ _ (T - 1) s 0%float HB) as (B' & -> & ? & Hg & Hne & Hr');
      [lia|lia|].
    exists B'. split; [done|]. split; [done|]. split.
    - intros t' Ht'. rewrite Hr' by done. by apply Hrows.
    - intros s' Hs'. destruct (decide (s' = s)) as [->|?]; [done|].
      rewrite Hne by (right; done). apply Hlast. lia. }
  destruct HP0 as (HB0 & Hrows0 & Hlast0). simpl.
  set (P := λ (k : Z) (beta : list (list double)),
         mshape T N beta ∧
         (∀ s, 0 ≤ s < N → vget2 beta (T - 1) s = Some 0%float) ∧
         (∀ t o s, 0 ≤ t → vget observations (t + 1) = Some o → K ≤ o → 0 ≤ s < N →
                   vget2 beta t s = Some LOG_ZERO) ∧
         (absorbed h → ∀ t s, 0 ≤ t → oov_after observations K t → 0 ≤ s < N →
                              vget2 beta t s = Some LOG_ZERO)).
  loop_inv P as beta Hr HP; [lia| | |].
  - split; [done|]. split; [done|]. split.
    + intros t o s Ht0 Ho Hge Hs. pose proof (vget_lt _ _ _ Ho) as Ht'.
      unfold vget2. rewrite Hrows0 by lia. apply (vget2_vmake T N); lia.
    + intros _ t s Ht0 (t0 & o0 & Ht0' & Ho0 & Hge0) Hs.
      pose proof (vget_lt _ _ _ Ho0) as Ht'.
      unfold vget2. rewrite Hrows0 by lia. apply (vget2_vmake T N); lia.
  - intros t B Hrange (HB & Hlast & Hcol & HD).
    destruct (vget_is_Some observations (t + 1)) as [o Ho]; [lia|]. rewrite Ho. simpl.
    destruct (Z.geb_spec o K) as [Hge|Hlt].
    { exists B. done. }
    pose proof (Hnn (t + 1) o Ho) as Ho0.
    assert (oov_after observations K t → oov_after observations K (t + 1)) as Hnext.
    { intros (t0 & o0 & Ht0 & Ho0' & Hge0). exists t0, o0. split; [|done].
      assert (t0 ≠ t + 1); [|lia].
      intros ->. rewrite Ho in Ho0'. injection Ho0' as <-. lia. }
    set (Q := λ (_ : Z) (b : list (list double)),
           mshape T N b ∧ (∀ t', t' ≠ t → vget b t' = vget B t') ∧
           (absorbed h → oov_after observations K t →
            ∀ s', 0 ≤ s' < N → vget2 b t s' = Some LOG_ZERO)).
    loop_inv Q as B' Hr' HQ; [done| | |].
    + split; [done|]. split; [done|]. intros Habs Hoov s' Hs'. apply HD; try done; lia.
    + intros s B1 Hs (HB1 & HrB & Hdead).
      collect_some as lp Hlp.
      { intros k Hk.
        destruct (vget2_is_Some _ _ _ s k Ht) as [p ->]; [lia|lia|]. simpl.
        destruct (vget2_is_Some _ _ _ k o He) as [e ->]; [lia|lia|]. simpl.
        destruct (vget2_is_Some _ _ _ (t + 1) k HB1) as [b ->]; [lia|lia|]. simpl.
        eauto. }
      simpl.
      destruct (vset2_spec _ _ _ t s (log_sum_exp lp) HB1)
        as (B2 & -> & ? & Hg & Hne & HrB2); [lia|lia|].
      exists B2. split; [done|]. split; [done|]. split.
      { intros t' Hne'. rewrite HrB2 by done. by apply HrB. }
      intros Habs Hoov s' Hs'. destruct (decide (s' = s)) as [->|Hs's].
      * rewrite Hg. f_equal.
        assert (lp = vmake N LOG_ZERO) as ->.
        { rewrite (collect_const _ _ LOG_ZERO) in Hlp; [by injection Hlp|lia|].
          intros k Hk.
          destruct (vget2_is_Some _ _ _ s k Ht) as [p Hp]; [lia|lia|]. rewrite Hp. simpl.
          destruct (vget2_is_Some _ _ _ k o He) as [e Hes]; [lia|lia|]. rewrite Hes. simpl.
          assert (vget2 B (t + 1) k = Some LOG_ZERO) as E
            by (apply HD; try done; try lia; by apply Hnext).
          assert (vget2 B1 (t + 1) k = Some LOG_ZERO) as ->.
          { unfold vget2 in *. rewrite HrB by lia. done. }
          simpl. f_equal. by apply (proj1 (proj2 (proj2 Habs)) s k p k o e). }
        unfold vmake. apply log_sum_exp_LOG_ZERO.
      * rewrite Hne by (right; done). by apply Hdead.
    + destruct HQ as (HB' & HrB & Hdead).
      exists B'. split; [done|]. split; [done|]. split; [|split].
      * intros s Hs. pose proof (Hlast s Hs) as E.
        unfold vget2 in *. rewrite HrB by lia. done.
      * intros t' o' s Ht0 Ho' Hge Hs.
        assert (t' ≠ t) as Hne.
        { intros ->. rewrite Ho in Ho'. injection Ho' as <-. lia. }
        pose proof (Hcol t' o' s Ht0 Ho' Hge Hs) as E.
        unfold vget2 in *. by rewrite HrB.
      * intros Habs t' s Ht0 Hoov Hs. destruct (decide (t' = t)) as [->|Hne].
        { by apply Hdead. }
        pose proof (HD Habs t' s Ht0 Hoov Hs) as E.
        unfold vget2 in *. by rewrite HrB.
  - destruct HP as (HB & Hlast & Hcol & HD). exists beta. done.
Qed.

(** [backward] returns on every non-empty sequence without negative symbols;
    it returns [LOG_ZERO] when the first symbol is outside the vocabulary, and,
    when the sentinel absorbs the parameters, as soon as any symbol is. *)
Lemma backward_spec h observations :
  hmm_wf h → 0 < vsize observations → symbols_nonneg observations →
  ∃ l, backward h observations = Some l ∧
       (∀ o, vget observations 0 = Some o → num_observations h ≤ o → l = LOG_ZERO) ∧
       (absorbed h → ∀ t o, vget observations t = Some o →
                            num_observations h ≤ o → l = LOG_ZERO).
Proof.
  intros Hwf HT Hnn. pose proof Hwf as (HN & HK & Ht & He & Hi).
  unfold backward. destruct (Z.eqb_spec (vsize observations) 0); [lia|].
  destruct (backward_table_spec h observations Hwf HT Hnn)
    as (beta & -> & Hsh & _ & Hcol & HD).
  simpl.
  destruct (vget_is_Some observations 0) as [o Ho]; [lia|].
  pose proof (Hnn 0 o Ho) as Ho0.
  loop_inv (λ (k : Z) (v : list double),
              (num_observations h ≤ o → v = []) ∧
              (absorbed h → oov_after observations (num_observations h) 0 →
               o < num_observations h → v = vmake k LOG_ZERO))
    as v Hr HP; [done|done| |].
  - intros s v Hs [Hv Hdead]. rewrite Ho. simpl.
    destruct (Z.ltb_spec o (num_observations h)).
    + destruct (vget_is_Some (initial_probs h) s) as [ip Hip]; [lia|]. rewrite Hip. simpl.
      destruct (vget2_is_Some _ _ _ s o He) as [e Hes]; [lia|lia|]. rewrite Hes. simpl.
      destruct (vget2_is_Some _ _ _ 0 s Hsh) as [b Hb]; [lia|lia|]. rewrite Hb. simpl.
      eexists. split; [done|]. split; [lia|].
      intros Habs Hoov _. rewrite (Hdead Habs Hoov) by done.
      rewrite (HD Habs 0 s) in Hb by (done || lia). injection Hb as <-.
      rewrite (proj2 (proj2 (proj2 Habs)) s ip s o e Hip Hes).
      unfold vmake. replace (Z.to_nat (s + 1)) with (Datatypes.S (Z.to_nat s)) by lia.
      by rewrite replicate_S_end.
    + exists v. split; [done|]. split; [done|]. lia.
  - destruct HP as [Hv Hdead]. simpl. eexists. split; [done|]. split.
    + intros o' Ho' Hge. rewrite Ho in Ho'. injection Ho' as <-. by rewrite Hv.
    + intros Habs t o' Ho' Hge. pose proof (vget_lt _ _ _ Ho') as Ht'.
      destruct (Z_lt_le_dec o (num_observations h)) as [Hlt|Hge0]; [|by rewrite Hv].
      rewrite Hdead; try done; [apply log_sum_exp_LOG_ZERO|].
      exists t, o'. split; [|done].
      assert (t ≠ 0); [|lia]. intros ->. rewrite Ho in Ho'. injection Ho' as <-. lia.
Qed.


(** *** Backtracking *)

(** A returned state sequence ends in the best final state and is linked by
    the back pointers: [best_path[t] = path[t+1][best_path[t+1]]]. *)
Lemma viterbi_backtrack_spec (psi : list (list Z)) T best best_path :
  0 < T → viterbi_backtrack psi T best = Some best_path →
  vsize best_path = T ∧ vget best_path (T - 1) = Some best ∧
  ∀ t, 0 ≤ t < T - 1 →
       ∃ next p, vget best_path (t + 1) = Some next ∧
                 vget2 psi (t + 1) next = Some p ∧ vget best_path t = Some p.
Proof.
  intros HT E. unfold viterbi_backtrack in E.
  rewrite vset_ok in E by (rewrite vsize_vmake; lia). simpl in E.
  set (bp0 := <[Z.to_nat (T - 1) := best]> (vmake T 0)) in E.
  set (P := λ (k : Z) (bp : list Z),
         vsize bp = T ∧ vget bp (T - 1) = Some best ∧
         ∀ t, k < t < T - 1 →
              ∃ next p, vget bp (t + 1) = Some next ∧
                        vget2 psi (t + 1) next = Some p ∧ vget bp t = Some p).
  assert (P (-1) best_path) as (Hs & Hl & Hlink).
  { eapply (for_down_post P); [| | |exact E]; [lia| |].
    - subst bp0. split; [|split].
      + rewrite vsize_insert, vsize_vmake; lia.
      + apply vget_insert_eq. rewrite vsize_vmake; lia.
      + intros; lia.
    - intros k bp bp' Hk (Hs & Hl & Hlink) Hb.
      destruct (vget bp (k + 1)) as [next|] eqn:Hn; [|done]. simpl in Hb.
      destruct (vget2 psi (k + 1) next) as [p|] eqn:Hp; [|done]. simpl in Hb.
      apply vset_Some in Hb as [Hk' ->].
      split; [by rewrite vsize_insert|]. split.
      + rewrite vget_insert_ne by lia. done.
      + intros t Ht. destruct (decide (t = k)) as [->|Hne].
        * exists next, p. rewrite vget_insert_ne by lia.
          rewrite vget_insert_eq by lia. done.
        (* positions above [k] are final *)
        * destruct (Hlink t) as (next' & p' & ? & ? & ?); [lia|].
          exists next', p'. rewrite !vget_insert_ne by lia. done. }
  split; [done|]. split; [done|]. intros t Ht. apply Hlink. lia.
Qed.

Lemma viterbi_Some_inv h observations best_path :
  0 < vsize observations → viterbi h observations = Some best_path →
  ∃ V psi best, viterbi_tables h observations = Some (V, psi) ∧
                best_final_state h V (vsize observations) = Some best ∧
                viterbi_backtrack psi (vsize observations) best = Some best_path.
Proof.
  intros HT E. unfold viterbi in E.
  destruct (Z.eqb_spec (vsize observations) 0); [lia|].
  destruct (viterbi_tables h observations) as [[V psi]|]; simpl in E; [|done].
  destruct (best_final_state h V (vsize observations)) as [best|] eqn:Eb;
    simpl in E; [|done].
  exists V, psi, best. done.
Qed.


(** *** Out-of-vocabulary symbols *)

(** C1 (as amended).  For every well-formed HMM and every non-empty
    observation sequence without negative symbols, the three tables and the
    two likelihoods are computed without an access outside a table, and a
    symbol at or above the vocabulary size [K] at time [t]
    - leaves column [t] of the Viterbi table at [LOG_ZERO] and its back
      pointers at [-1];
    - leaves column [t] of the forward table at [LOG_ZERO], and makes
      [forward] return [LOG_ZERO] when [t] is the last time step;
    - leaves column [t - 1] of the backward table at [LOG_ZERO] (for
      [t >= 1]; the last column is always [0.0]), and makes [backward] return
      [LOG_ZERO] when [t = 0];
    - makes both [forward] and [backward] return [LOG_ZERO], whatever [t],
      when the sentinel absorbs the parameters of the model. *)
Theorem oov_symbol_columns h observations :
  hmm_wf h → 0 < vsize observations → symbols_nonneg observations →
  (∃ V psi,
      viterbi_tables h observations = Some (V, psi) ∧
      ∀ t o s, vget observations t = Some o → num_observations h ≤ o →
               0 ≤ s < num_states h →
               vget2 V t s = Some LOG_ZERO ∧ vget2 psi t s = Some (-1)) ∧
  (∃ alpha l,
      forward_table h observations = Some alpha ∧
      forward h observations = Some l ∧
      (∀ t o s, vget observations t = Some o → num_observations h ≤ o →
                0 ≤ s < num_states h → vget2 alpha t s = Some LOG_ZERO) ∧
      (∀ o, vget observations (vsize observations - 1) = Some o →
            num_observations h ≤ o → l = LOG_ZERO) ∧
      (absorbed h → ∀ t o, vget observations t = Some o →
                           num_observations h ≤ o → l = LOG_ZERO)) ∧
  (∃ beta l,
      backward_table h observations = Some beta ∧
      backward h observations = Some l ∧
      (∀ t o s, 0 ≤ t → vget observations (t + 1) = Some o →
                num_observations h ≤ o → 0 ≤ s < num_states h →
                vget2 beta t s = Some LOG_ZERO) ∧
      (∀ s, 0 ≤ s < num_states h →
            vget2 beta (vsize observations - 1) s = Some 0%float) ∧
      (∀ o, vget observations 0 = Some o → num_observations h ≤ o → l = LOG_ZERO) ∧
      (absorbed h → ∀ t o, vget observations t = Some o →
                           num_observations h ≤ o → l = LOG_ZERO)).
Proof.
  intros Hwf HT Hnn. split; [|split].
  - destruct (viterbi_tables_spec h observations Hwf HT Hnn) as (V & psi & E & _ & _ & Hcol).
    exists V, psi. done.
  - destruct (forward_table_spec h observations Hwf HT Hnn) as (alpha & E & _ & Hcol & _).
    destruct (forward_spec h observations Hwf HT Hnn) as (l & El & Hl & Habs).
    exists alpha, l. done.
  - destruct (backward_table_spec h observations Hwf HT Hnn)
      as (beta & E & _ & Hlast & Hcol & _).
    destruct (backward_spec h observations Hwf HT Hnn) as (l & El & Hl & Habs).
    exists beta, l. done.
Qed.

(** A negative symbol passes the test [observations[t] < num_observations]
    and indexes the emission table below its first cell. *)
Lemma negative_symbol_faults h observations o :
  hmm_wf h → 0 < num_states h → vget observations 0 = Some o → o < 0 →
  forward h observations = None ∧ viterbi h observations = None.
Proof.
  intros (HN & HK & Ht & He & Hi) Hpos Ho Hneg.
  assert (0 < vsize observations) as HT by (apply vget_lt in Ho; lia).
  assert (∀ table : list (list double), first_column h observations table = None)
    as Hfc.
  { intros table. unfold first_column, for_range.
    replace (Z.to_nat (num_states h - 0)) with (Datatypes.S (Z.to_nat (num_states h - 1)))
      by lia.
    simpl. rewrite Ho. simpl. destruct (Z.ltb_spec o (num_observations h)); [|lia].
    destruct (vget (initial_probs h) 0) as [ip|]; [|done]. simpl.
    unfold vget2. destruct (vget (emission_probs h) 0) as [row|]; [|done]. simpl.
    by rewrite vget_None_neg. }
  split.
  - unfold forward, forward_table. destruct (Z.eqb_spec (vsize observations) 0); [lia|].
    by rewrite Hfc.
  - unfold viterbi, viterbi_tables. destruct (Z.eqb_spec (vsize observations) 0); [lia|].
    by rewrite Hfc.
Qed.

(** *** Back pointers *)

Lemma viterbi_linked h observations V psi best_path :
  viterbi_tables h observations = Some (V, psi) →
  viterbi h observations = Some best_path →
  ∀ t next, 0 ≤ t → vget best_path (t + 1) = Some next →
            ∃ p, vget2 psi (t + 1) next = Some p ∧ vget best_path t = Some p.
Proof.
  intros Etab Evit t next Ht Hnext.
  assert (0 < vsize observations) as HT.
  { destruct (Z_lt_le_dec 0 (vsize observations)) as [|Hle]; [done|].
    unfold viterbi in Evit. destruct (Z.eqb_spec (vsize observations) 0).
    - injection Evit as <-. apply vget_lt in Hnext. unfold vsize in Hnext.
      simpl in Hnext. lia.
    - pose proof (Zle_0_nat (length observations)). unfold vsize in *. lia. }
  destruct (viterbi_Some_inv h observations best_path HT Evit)
    as (V' & psi' & best & Etab' & _ & Eback).
  rewrite Etab in Etab'. injection Etab' as <- <-.
  destruct (viterbi_backtrack_spec psi _ best best_path HT Eback) as (Hs & _ & Hlink).
  destruct (Hlink t) as (next' & p & E1 & E2 & E3).
  { apply vget_lt in Hnext. lia. }
  rewrite Hnext in E1. injection E1 as <-. eauto.
Qed.

(** C3 (as amended).  Whenever [viterbi] returns a state sequence and the
    back pointer met at time [t + 1] is [-1], the sequence holds [-1] at
    position [t]: the back pointer is copied, the default [0] of the result
    vector is overwritten. *)
Theorem viterbi_copies_backpointer h observations V psi best_path t next :
  viterbi_tables h observations = Some (V, psi) →
  viterbi h observations = Some best_path →
  0 ≤ t → vget best_path (t + 1) = Some next →
  vget2 psi (t + 1) next = Some (-1) →
  vget best_path t = Some (-1).
Proof.
  intros Etab Evit Ht Hnext Hmeet.
  destruct (viterbi_linked h observations V psi best_path Etab Evit t next Ht Hnext)
    as (p & Hp & Hbp).
  rewrite Hmeet in Hp. by injection Hp as <-.
Qed.

(** Such a sequence is only returned when the [-1] is met in the last step
    of the backtracking: one step later the loop would index the row of back
    pointers at [-1]. *)
Lemma viterbi_backpointer_at_0 h observations V psi best_path t next :
  viterbi_tables h observations = Some (V, psi) →
  viterbi h observations = Some best_path →
  0 ≤ t → vget best_path (t + 1) = Some next →
  vget2 psi (t + 1) next = Some (-1) →
  t = 0.
Proof.
  intros Etab Evit Ht Hnext Hmeet.
  destruct (viterbi_linked h observations V psi best_path Etab Evit t next Ht Hnext)
    as (p & Hp & Hbp).
  rewrite Hmeet in Hp. injection Hp as <-.
  destruct (decide (t = 0)) as [|Hne]; [done|exfalso].
  destruct (viterbi_linked h observations V psi best_path Etab Evit (t - 1) (-1))
    as (p & Hp & _); [lia|by replace (t - 1 + 1) with t by lia|].
  replace (t - 1 + 1) with t in Hp by lia.
  unfold vget2 in Hp. destruct (vget psi t) as [row|]; [|done]. simpl in Hp.
  by rewrite vget_None_neg in Hp.
Qed.

(** *** Setters with a negative index *)

(** C2.  On a decoder with two states and two symbols, each setter called
    with a positive probability and the index [-1] passes the guard
    [index < size] and writes before the first cell of its table: the call is
    not ignored. *)
Theorem setters_negative_index :
  let h := mkHMM 2 2 (vmake 2 (vmake 2 LOG_ZERO)) (vmake 2 (vmake 2 LOG_ZERO))
             (vmake 2 LOG_ZERO) in
  HMM_new 2 2 = Some h ∧
  setInitialProb h (-1) 0.5 = None ∧
  setTransitionProb h (-1) 0 0.5 = None ∧
  setTransitionProb h 0 (-1) 0.5 = None ∧
  setEmissionProb h (-1) 0 0.5 = None ∧
  setEmissionProb h 0 (-1) 0.5 = None.
Proof. repeat split. Qed.


(** *** Log-sum-exp *)

Lemma fold_left_LSE_1 a max_val :
  fne a LOG_ZERO = true →
  fold_left (λ sum val, if fne val LOG_ZERO then (sum + exp (val - max_val))%float else sum)
    [a] 0%float = (0 + exp (a - max_val))%float.
Proof. intros Ha. cbn [fold_left]. by rewrite Ha. Qed.

Lemma LOG_ZERO_nonzero s : Prim2SF LOG_ZERO ≠ S754_zero s.
Proof. done. Qed.

(** C7.  For a math library with [exp 0 = 1], [log 1 = 0] and a [log 2]
    that is absorbed by [LOG_ZERO], the log-sum-exp helper returns
    [LOG_ZERO] on an input all of whose elements are [LOG_ZERO]; on a
    one-element input with a finite element [a] it returns a value equal to
    [a] (the very double [a], unless [a] is the negative zero, for which it
    returns the positive zero); and for every finite [a],
    [LSE(a, a) = a + log 2]. *)
Theorem log_sum_exp_laws :
  exp 0 = 1%float → log 1 = 0%float → (LOG_ZERO + log 2)%float = LOG_ZERO →
  (∀ l, Forall (λ x, x = LOG_ZERO) l → log_sum_exp l = LOG_ZERO) ∧
  (∀ a, is_finite a = true →
        (log_sum_exp [a] =? a)%float = true ∧
        (a ≠ (-0)%float → log_sum_exp [a] = a)) ∧
  (∀ a, is_finite a = true → log_sum_exp [a; a] = (a + log 2)%float).
Proof.
  intros Hexp Hlog Hlog2. split; [|split].
  - intros l Hl.
    assert (l = replicate (length l) LOG_ZERO) as ->.
    { induction Hl as [|x l -> _ IH]; simpl; [done|]. by rewrite <- IH. }
    apply log_sum_exp_LOG_ZERO.
  - intros a Ha. cbn [log_sum_exp max_element_from].
    destruct (a =? LOG_ZERO)%float eqn:E.
    + apply (eqb_eq_nonzero _ _ LOG_ZERO_nonzero) in E. subst a. done.
    + rewrite fold_left_LSE_1 by (unfold fne; by rewrite E).
      rewrite (sub_diag a Ha), Hexp.
      change (0 + 1)%float with 1%float. rewrite Hlog.
      split; [by apply add_0_r_eqb|by apply add_0_r].
  - intros a Ha. cbn [log_sum_exp max_element_from].
    assert ((if (a <? a)%float then a else a) = a) as -> by (by destruct (a <? a)%float).
    destruct (a =? LOG_ZERO)%float eqn:E.
    + apply (eqb_eq_nonzero _ _ LOG_ZERO_nonzero) in E. subst a. by rewrite Hlog2.
    + cbn [fold_left]. unfold fne. rewrite E. cbn [negb].
      rewrite (sub_diag a Ha), Hexp.
      change (0 + 1 + 1)%float with 2%float. done.
Qed.

End HMMProofs.

(** *** Concrete decoders *)

(** Decidable forms of the side conditions, to check them on concrete
    inputs by evaluation. *)
Definition mshapeb {A} (r c : Z) (M : list (list A)) : bool :=
  (vsize M =? r) && forallb (λ row, vsize row =? c) M.

Definition hmm_wfb (h : HMM) : bool :=
  (0 <=? num_states h) && (0 <=? num_observations h) &&
  mshapeb (num_states h) (num_states h) (transition_probs h) &&
  mshapeb (num_states h) (num_observations h) (emission_probs h) &&
  (vsize (initial_probs h) =? num_states h).

Definition symbols_nonnegb (observations : list Z) : bool :=
  forallb (λ o, 0 <=? o) observations.

Lemma mshapeb_correct {A} r c (M : list (list A)) : mshapeb r c M = true → mshape r c M.
Proof.
  unfold mshapeb. intros [Hr Hc]%andb_prop. split; [lia|].
  intros i row [_ Hi]%vget_Some.
  rewrite forallb_forall in Hc. apply list_elem_of_lookup_2, list_elem_of_In in Hi.
  specialize (Hc row Hi). lia.
Qed.

Lemma hmm_wfb_correct h : hmm_wfb h = true → hmm_wf h.
Proof.
  unfold hmm_wfb. intros [[[[HN HK]%andb_prop Ht]%andb_prop He]%andb_prop Hi]%andb_prop.
  unfold hmm_wf. split; [lia|]. split; [lia|].
  split; [by apply mshapeb_correct|]. split; [by apply mshapeb_correct|]. lia.
Qed.

Lemma symbols_nonnegb_correct observations :
  symbols_nonnegb observations = true → symbols_nonneg observations.
Proof.
  unfold symbols_nonnegb. rewrite forallb_forall. intros Hall t o [_ Ho]%vget_Some.
  apply list_elem_of_lookup_2, list_elem_of_In in Ho. specialize (Hall o Ho). lia.
Qed.

Definition absorbedb (h : HMM) : bool :=
  let A := concat (transition_probs h) in
  let B := concat (emission_probs h) in
  forallb (λ a, (LOG_ZERO + a =? LOG_ZERO)%float) A &&
  forallb (λ e, (LOG_ZERO + e =? LOG_ZERO)%float) B &&
  forallb (λ a, forallb (λ e, (a + e + LOG_ZERO =? LOG_ZERO)%float) B) A &&
  forallb (λ p, forallb (λ e, (p + e + LOG_ZERO =? LOG_ZERO)%float) B) (initial_probs h).

Lemma vget_In {A} (v : list A) i x : vget v i = Some x → In x v.
Proof. intros [_ Hi]%vget_Some. by apply list_elem_of_lookup_2, list_elem_of_In in Hi. Qed.

Lemma vget2_In {A} (M : list (list A)) i j x : vget2 M i j = Some x → In x (concat M).
Proof.
  unfold vget2. destruct (vget M i) as [row|] eqn:Er; [|done]. simpl. intros Hx.
  apply in_concat. exists row. split; by eapply vget_In.
Qed.

Lemma absorbedb_correct h : absorbedb h = true → absorbed h.
Proof.
  unfold absorbedb. intros [[[HA HB]%andb_prop HAB]%andb_prop HIB]%andb_prop.
  rewrite forallb_forall in HA, HB, HAB, HIB.
  split; [|split; [|split]].
  - intros i j a Ha%vget2_In. by apply (eqb_eq_nonzero _ _ LOG_ZERO_nonzero), HA.
  - intros s o e He%vget2_In. by apply (eqb_eq_nonzero _ _ LOG_ZERO_nonzero), HB.
  - intros i j a s o e Ha%vget2_In He%vget2_In.
    specialize (HAB a Ha). rewrite forallb_forall in HAB.
    by apply (eqb_eq_nonzero _ _ LOG_ZERO_nonzero), HAB.
  - intros i p s o e Hp%vget_In He%vget2_In.
    specialize (HIB p Hp). rewrite forallb_forall in HIB.
    by apply (eqb_eq_nonzero _ _ LOG_ZERO_nonzero), HIB.
Qed.

(** A decoder as constructed, no parameter set. *)
Definition fresh_hmm (N K : Z) : HMM :=
  mkHMM N K (vmake N (vmake N LOG_ZERO)) (vmake N (vmake K LOG_ZERO)) (vmake N LOG_ZERO).

(** The two-state model of scenario S6 of the specification. *)
Definition s6_model `{Cmath} : option HMM :=
  h ← HMM_new 2 2;
  h ← setInitialProb h 0 0.6; h ← setInitialProb h 1 0.4;
  h ← setTransitionProb h 0 0 0.7; h ← setTransitionProb h 0 1 0.3;
  h ← setTransitionProb h 1 0 0.4; h ← setTransitionProb h 1 1 0.6;
  h ← setEmissionProb h 0 0 0.5; h ← setEmissionProb h 0 1 0.5;
  h ← setEmissionProb h 1 0 0.1; h ← setEmissionProb h 1 1 0.9;
  Some h.

Definition s6_hmm : HMM := default (fresh_hmm 2 2) (@s6_model RefCmath.cmath).

Example s6_viterbi : viterbi s6_hmm [0; 1; 1] = Some [0; 1; 1].
Proof. vm_compute. reflexivity. Qed.

(** Witness of C1: the S6 model on [[0; 2; 1]], whose middle symbol is
    outside the vocabulary.  Column 1 of the forward table is at [LOG_ZERO],
    and, the sentinel absorbing the parameters of this model, both likelihoods
    are [LOG_ZERO]. *)
Lemma oov_symbol_columns_witness :
  hmm_wf s6_hmm ∧ 0 < vsize [0; 2; 1] ∧ symbols_nonneg [0; 2; 1] ∧
  (∃ alpha, @forward_table RefCmath.cmath s6_hmm [0; 2; 1] = Some alpha ∧
            vget2 alpha 1 0 = Some LOG_ZERO ∧ vget2 alpha 1 1 = Some LOG_ZERO) ∧
  @forward RefCmath.cmath s6_hmm [0; 2; 1] = Some LOG_ZERO ∧
  @backward RefCmath.cmath s6_hmm [0; 2; 1] = Some LOG_ZERO.
Proof.
  assert (hmm_wf s6_hmm) as Hwf by (apply hmm_wfb_correct; vm_compute; reflexivity).
  assert (symbols_nonneg [0; 2; 1]) as Hnn
    by (apply symbols_nonnegb_correct; vm_compute; reflexivity).
  assert (0 < vsize [0; 2; 1]) as HT by (vm_compute; reflexivity).
  assert (absorbed s6_hmm) as Habs by (apply absorbedb_correct; vm_compute; reflexivity).
  assert (vget [0; 2; 1] 1 = Some 2) as Ho by reflexivity.
  assert (num_states s6_hmm = 2) as HN by (vm_compute; reflexivity).
  assert (num_observations s6_hmm ≤ 2) as Hge by (vm_compute; discriminate).
  split; [exact Hwf|]. split; [exact HT|]. split; [exact Hnn|].
  destruct (@oov_symbol_columns RefCmath.cmath s6_hmm [0; 2; 1] Hwf HT Hnn)
    as (_ & (alpha & l & Ea & El & Hcol & _ & Hl) & (beta & l' & _ & El' & _ & _ & _ & Hl')).
  split; [|split].
  - exists alpha. split; [exact Ea|].
    split; apply (Hcol 1 2 _ Ho Hge); rewrite HN; lia.
  - rewrite El. f_equal. exact (Hl Habs 1 2 Ho Hge).
  - rewrite El'. f_equal. exact (Hl' Habs 1 2 Ho Hge).
Defined.

(** Counterexample to C1 as stated.  On the S6 model ([K = 2]):
    - with the sequence [[0; 2]] the symbol at time 1 is outside the
      vocabulary, yet column 1 of the backward table holds [0.0]: it is
      column 0 that stays at [LOG_ZERO];
    - with the sequence [[0; -1; 1]] the negative symbol is used as an index
      into the emission table: [forward] and [viterbi] fault;
    and on a decoder with one state and no parameter set the likelihood of
    [[1; 0]], whose first symbol is outside the vocabulary, is not
    [LOG_ZERO]. *)
Lemma oov_symbol_counterexample :
  @backward_table RefCmath.cmath s6_hmm [0; 2]
    = Some [[LOG_ZERO; LOG_ZERO]; [0%float; 0%float]] ∧
  @forward RefCmath.cmath s6_hmm [0; -1; 1] = None ∧
  viterbi s6_hmm [0; -1; 1] = None ∧
  @forward RefCmath.cmath (fresh_hmm 1 1) [1; 0] = Some (-3.0000000000000003e30)%float.
Proof. vm_compute. repeat split. Qed.

(** Witness of C3: a decoder with no parameter set, on [[0; 0]]. *)
Lemma viterbi_copies_backpointer_witness :
  viterbi_tables (fresh_hmm 1 1) [0; 0]
    = Some ([[(-2e30)%float]; [LOG_ZERO]], [[-1]; [-1]]) ∧
  viterbi (fresh_hmm 1 1) [0; 0] = Some [-1; 0] ∧
  0 ≤ 0 ∧
  vget [-1; 0] (0 + 1) = Some 0 ∧
  vget2 [[-1]; [-1]] (0 + 1) 0 = Some (-1) ∧
  vget [-1; 0] 0 = Some (-1).
Proof.
  assert (viterbi_tables (fresh_hmm 1 1) [0; 0]
            = Some ([[(-2e30)%float]; [LOG_ZERO]], [[-1]; [-1]])) as Etab
    by (vm_compute; reflexivity).
  assert (viterbi (fresh_hmm 1 1) [0; 0] = Some [-1; 0]) as Evit
    by (vm_compute; reflexivity).
  assert (vget [-1; 0] (0 + 1) = Some 0) as Hnext by reflexivity.
  assert (vget2 [[-1]; [-1]] (0 + 1) 0 = Some (-1)) as Hmeet by reflexivity.
  split; [exact Etab|]. split; [exact Evit|]. split; [lia|].
  split; [exact Hnext|]. split; [exact Hmeet|].
  exact (viterbi_copies_backpointer (fresh_hmm 1 1) [0; 0] _ _ [-1; 0] 0 0
           Etab Evit (Z.le_refl 0) Hnext Hmeet).
Defined.

(** Counterexample to C3 as stated.  With no parameter set (or, on the S6
    model, after a symbol outside the vocabulary) every back pointer is [-1].
    On two observations the returned sequence holds [-1], not [0], before the
    final state; on three observations the backtracking indexes a row of back
    pointers at [-1] and no sequence is returned. *)
Lemma viterbi_backpointer_counterexample :
  viterbi (fresh_hmm 1 1) [0; 0] = Some [-1; 0] ∧
  viterbi (fresh_hmm 1 1) [0; 0; 0] = None ∧
  viterbi s6_hmm [0; 2] = Some [-1; 0] ∧
  viterbi s6_hmm [0; 2; 1] = None.
Proof. vm_compute. repeat split. Qed.

(** Witness of C7: the reference library satisfies the three laws. *)
Lemma log_sum_exp_laws_witness :
  RefCmath.exp 0 = 1%float ∧ RefCmath.log 1 = 0%float ∧
  (LOG_ZERO + RefCmath.log 2)%float = LOG_ZERO ∧
  @log_sum_exp RefCmath.cmath [LOG_ZERO; LOG_ZERO; LOG_ZERO] = LOG_ZERO ∧
  @log_sum_exp RefCmath.cmath [(-1.5)%float] = (-1.5)%float ∧
  @log_sum_exp RefCmath.cmath [(-1.5)%float; (-1.5)%float] = (-1.5 + RefCmath.log 2)%float.
Proof.
  assert (RefCmath.exp 0 = 1%float) as Hexp by (vm_compute; reflexivity).
  assert (RefCmath.log 1 = 0%float) as Hlog by (vm_compute; reflexivity).
  assert ((LOG_ZERO + RefCmath.log 2)%float = LOG_ZERO) as Hlog2 by (vm_compute; reflexivity).
  destruct (@log_sum_exp_laws RefCmath.cmath Hexp Hlog Hlog2) as (H1 & H2 & H3).
  split; [exact Hexp|]. split; [exact Hlog|]. split; [exact Hlog2|].
  split; [|split].
  - apply H1. repeat constructor.
  - apply H2; [vm_compute; reflexivity|]. intros E. discriminate (f_equal Prim2SF E).
  - apply H3. vm_compute; reflexivity.
Defined.

(** ** The DTW aligner *)

(** *** Local distances *)

Lemma calculateDistance_total vec1 vec2 metric :
  is_Some (calculateDistance vec1 vec2 metric).
Proof.
  unfold calculateDistance. destruct (Z.eqb_spec (vsize vec1) (vsize vec2)) as [E|]; [|done].
  simpl. pose proof (Zle_0_nat (length vec1)) as Hn. fold (vsize vec1) in Hn.
  destruct metric.
  - loop_inv (λ (_ : Z) (_ : double), True) as d Hd HP; [done|done| |done].
    intros i d Hi _.
    destruct (vget_is_Some vec1 i) as [a ->]; [lia|].
    destruct (vget_is_Some vec2 i) as [b ->]; [lia|]. simpl. eauto.
  - loop_inv (λ (_ : Z) (_ : double), True) as d Hd HP; [done|done| |done].
    intros i d Hi _.
    destruct (vget_is_Some vec1 i) as [a ->]; [lia|].
    destruct (vget_is_Some vec2 i) as [b ->]; [lia|]. simpl. eauto.
  - loop_inv (λ (_ : Z) (_ : double * double * double), True) as d Hd HP; [done|done| |].
    + intros i [[dp n1] n2] Hi _.
      destruct (vget_is_Some vec1 i) as [a ->]; [lia|].
      destruct (vget_is_Some vec2 i) as [b ->]; [lia|]. simpl. eauto.
    + destruct d as [[dp n1] n2]. simpl. by destruct (_ || _).
Qed.

(** Vectors of finite numbers. *)
Definition finite_vec (v : list double) : Prop :=
  ∀ i x, vget v i = Some x → is_finite x = true.

(** The Euclidean distance of finite vectors is not negative and not NaN. *)
Lemma euclidean_nonneg vec1 vec2 d :
  finite_vec vec1 → finite_vec vec2 →
  calculateDistance vec1 vec2 EUCLIDEAN = Some d → nonneg d.
Proof.
  intros H1 H2. unfold calculateDistance.
  destruct (Z.eqb_spec (vsize vec1) (vsize vec2)) as [E|]; simpl.
  - pose proof (Zle_0_nat (length vec1)) as Hn. fold (vsize vec1) in Hn.
    loop_inv (λ (_ : Z) (s : double), nonneg s) as s Hs HP; [done|done| |].
    + intros i s Hi Hnn.
      destruct (vget_is_Some vec1 i) as [a Ha]; [lia|].
      destruct (vget_is_Some vec2 i) as [b Hb]; [lia|]. rewrite Ha, Hb. simpl.
      eexists. split; [done|]. apply add_nonneg; [done|].
      apply sq_diff_nonneg; eauto.
    + simpl. intros [= <-]. by apply sqrt_nonneg.
  - intros [= <-]. done.
Qed.

(** The Euclidean distance of a finite vector to itself is the positive zero. *)
Lemma euclidean_self vec :
  finite_vec vec → calculateDistance vec vec EUCLIDEAN = Some 0%float.
Proof.
  intros Hf. unfold calculateDistance. rewrite Z.eqb_refl. simpl.
  pose proof (Zle_0_nat (length vec)) as Hn. fold (vsize vec) in Hn.
  loop_inv (λ (_ : Z) (s : double), s = 0%float) as s Hs HP; [done|done| |].
  - intros i s Hi ->.
    destruct (vget_is_Some vec i) as [a Ha]; [lia|]. rewrite Ha. simpl.
    eexists. split; [done|]. rewrite (sub_diag a) by eauto. reflexivity.
  - simpl. subst s. reflexivity.
Qed.

(** The local distance of the cells [(i, j)]: the metric inside the band,
    [+∞] outside. *)
Definition local_dist (sequence1 sequence2 : list (list double)) (band_width : Z)
    (metric : DistanceMetric) (i j : Z) : double :=
  if Z.abs (i - j) <=? band_width then
    default infinity
      (a ← vget sequence1 i; b ← vget sequence2 j; calculateDistance a b metric)
  else infinity.

Lemma local_distance_matrix_spec sequence1 sequence2 band_width metric :
  let n := vsize sequence1 in
  let m := vsize sequence2 in
  ∃ ld, local_distance_matrix sequence1 sequence2 n m band_width metric = Some ld ∧
        mshape n m ld ∧
        ∀ i j, 0 ≤ i < n → 0 ≤ j < m →
               vget2 ld i j = Some (local_dist sequence1 sequence2 band_width metric i j).
Proof.
  intros n m. unfold local_distance_matrix.
  assert (0 ≤ n) as Hn by apply Zle_0_nat. assert (0 ≤ m) as Hm by apply Zle_0_nat.
  set (d := local_dist sequence1 sequence2 band_width metric).
  set (P := λ (k : Z) (ld : list (list double)),
         mshape n m ld ∧ ∀ i j, 0 ≤ i < k → 0 ≤ j < m → vget2 ld i j = Some (d i j)).
  loop_inv P as ld Hr HP; [done| | |].
  - split; [by apply mshape_vmake|]. intros; lia.
  - intros i ld Hi (Hsh & Hd).
    set (Q := λ (k : Z) (ld' : list (list double)),
           mshape n m ld' ∧
           (∀ i' j, 0 ≤ i' < i → 0 ≤ j < m → vget2 ld' i' j = Some (d i' j)) ∧
           ∀ j, 0 ≤ j < k → vget2 ld' i j = Some (d i j)).
    loop_inv Q as ld' Hr' HQ; [done| | |].
    + split; [done|]. split; [done|]. intros; lia.
    + intros j ld1 Hj (Hsh1 & Hrows & Hrow).
      assert (∃ ld2, vset2 ld1 i j (d i j) = Some ld2 ∧ Q (j + 1) ld2) as Hset.
      { destruct (vset2_spec _ _ _ i j (d i j) Hsh1) as (ld2 & E & ? & Hg & Hne & _);
          [lia|lia|].
        exists ld2. split; [done|]. split; [done|]. split.
        - intros i' j' Hi' Hj'. rewrite Hne by lia. by apply Hrows.
        - intros j' Hj'. destruct (decide (j' = j)) as [->|?]; [done|].
          rewrite Hne by lia. apply Hrow. lia. }
      subst d. unfold local_dist in Hset |- *.
      destruct (Z.abs (i - j) <=? band_width); [|done].
      destruct (vget_is_Some sequence1 i) as [a Ha]; [done|].
      destruct (vget_is_Some sequence2 j) as [b Hb]; [done|].
      rewrite Ha, Hb in Hset |- *. simpl in Hset |- *.
      destruct (calculateDistance_total a b metric) as [x Hx].
      rewrite Hx in Hset |- *. done.
    + destruct HQ as (Hsh' & Hrows & Hrow). exists ld'. split; [done|]. split; [done|].
      intros i' j Hi' Hj. destruct (decide (i' = i)) as [->|?].
      * by apply Hrow.
      * apply Hrows; lia.
  - destruct HP as (Hsh & Hd). exists ld. done.
Qed.

(** *** The cost matrix *)

(** The cells of row [i] that the body of the fill visits. *)
Definition in_body (m band_width i j : Z) : bool :=
  (Z.max 1 (i - band_width) <=? j) && (j <? Z.min m (wrap_int (i + band_width + 1))).

(** What the fill leaves in cell [(i, j)], in terms of the local distances
    [d] and of the cells before it. *)
Definition cell_spec (d : Z → Z → double) (m band_width : Z)
    (C : list (list double)) (i j : Z) : Prop :=
  ∃ c, vget2 C i j = Some c ∧
       if (i =? 0) && (j =? 0) then c = d 0 0
       else if i =? 0 then
         if j <=? band_width
         then ∃ p, vget2 C 0 (j - 1) = Some p ∧ c = (p + d 0%Z j)%float
         else c = infinity
       else if j =? 0 then
         if i <=? band_width
         then ∃ p, vget2 C (i - 1) 0 = Some p ∧ c = (p + d i 0%Z)%float
         else c = infinity
       else if in_body m band_width i j && fne (d i j) infinity
         then ∃ mp, min_prev C i j = Some mp ∧ c = (d i j + mp)%float
         else c = infinity.

Lemma min_prev_frame (C C' : list (list double)) i j i0 j0 :
  (∀ i' j', i' ≠ i0 ∨ j' ≠ j0 → vget2 C' i' j' = vget2 C i' j') →
  (i - 1 ≠ i0 ∨ j - 1 ≠ j0) → (i - 1 ≠ i0 ∨ j ≠ j0) → (i ≠ i0 ∨ j - 1 ≠ j0) →
  min_prev C' i j = min_prev C i j.
Proof.
  intros Hagree H1 H2 H3. unfold min_prev. by rewrite !Hagree.
Qed.

Lemma cell_spec_frame d m bw (C C' : list (list double)) i j i0 j0 :
  (∀ i' j', i' ≠ i0 ∨ j' ≠ j0 → vget2 C' i' j' = vget2 C i' j') →
  (i ≠ i0 ∨ j ≠ j0) →
  (i - 1 ≠ i0 ∨ j - 1 ≠ j0) → (i - 1 ≠ i0 ∨ j ≠ j0) → (i ≠ i0 ∨ j - 1 ≠ j0) →
  cell_spec d m bw C i j → cell_spec d m bw C' i j.
Proof.
  intros Hagree H0 H1 H2 H3 (c & Hc & Hspec). exists c.
  rewrite Hagree by done. split; [done|].
  destruct ((i =? 0) && (j =? 0)); [done|].
  destruct (Z.eqb_spec i 0) as [->|Hi].
  { destruct (j <=? bw); [|done]. destruct Hspec as (p & Hp & ->).
    exists p. rewrite Hagree by lia. done. }
  destruct (Z.eqb_spec j 0) as [->|Hj].
  { destruct (i <=? bw); [|done]. destruct Hspec as (p & Hp & ->).
    exists p. rewrite Hagree by lia. done. }
  destruct (in_body m bw i j && fne (d i j) infinity); [|done].
  destruct Hspec as (mp & Hmp & ->). exists mp.
  by rewrite (min_prev_frame C C' i j i0 j0).
Qed.

Lemma min_prev_total n m (C : list (list double)) i j :
  mshape n m C → 1 ≤ i < n → 1 ≤ j < m → is_Some (min_prev C i j).
Proof.
  intros Hsh Hi Hj. unfold min_prev.
  destruct (Z.ltb_spec 0 i); [|lia]. destruct (Z.ltb_spec 0 j); [|lia]. simpl.
  destruct (vget2_is_Some _ _ _ (i - 1) (j - 1) Hsh) as [c1 ->]; [lia|lia|]. simpl.
  destruct (vget2_is_Some _ _ _ (i - 1) j Hsh) as [c2 ->]; [lia|lia|]. simpl.
  destruct (vget2_is_Some _ _ _ i (j - 1) Hsh) as [c3 ->]; [lia|lia|]. simpl.
  done.
Qed.

Section CellSpec.
Context (d : Z → Z → double) (m bw : Z).
Implicit Types (C : list (list double)).

Lemma cell_spec_origin C :
  vget2 C 0 0 = Some (d 0 0) → cell_spec d m bw C 0 0.
Proof. intros E. exists (d 0 0). done. Qed.

Lemma cell_spec_row0 C j p :
  1 ≤ j → j ≤ bw → vget2 C 0 (j - 1) = Some p →
  vget2 C 0 j = Some (p + d 0%Z j)%float → cell_spec d m bw C 0 j.
Proof.
  intros Hj Hb Hp E. eexists. split; [done|].
  destruct (Z.eqb_spec j 0); [lia|]. simpl.
  destruct (Z.leb_spec j bw); [|lia]. eauto.
Qed.

Lemma cell_spec_row0_inf C j :
  1 ≤ j → bw < j → vget2 C 0 j = Some infinity → cell_spec d m bw C 0 j.
Proof.
  intros Hj Hb E. eexists. split; [done|].
  destruct (Z.eqb_spec j 0); [lia|]. simpl.
  destruct (Z.leb_spec j bw); [lia|]. done.
Qed.

Lemma cell_spec_col0 C i p :
  1 ≤ i → i ≤ bw → vget2 C (i - 1) 0 = Some p →
  vget2 C i 0 = Some (p + d i 0%Z)%float → cell_spec d m bw C i 0.
Proof.
  intros Hi Hb Hp E. eexists. split; [done|].
  destruct (Z.eqb_spec i 0); [lia|]. simpl.
  destruct (Z.leb_spec i bw); [|lia]. eauto.
Qed.

Lemma cell_spec_col0_inf C i :
  1 ≤ i → bw < i → vget2 C i 0 = Some infinity → cell_spec d m bw C i 0.
Proof.
  intros Hi Hb E. eexists. split; [done|].
  destruct (Z.eqb_spec i 0); [lia|]. simpl.
  destruct (Z.leb_spec i bw); [lia|]. done.
Qed.

Lemma cell_spec_body C i j mp :
  1 ≤ i → 1 ≤ j → in_body m bw i j = true → fne (d i j) infinity = true →
  min_prev C i j = Some mp → vget2 C i j = Some (d i j + mp)%float →
  cell_spec d m bw C i j.
Proof.
  intros Hi Hj Hin Hne Hmp E. eexists. split; [done|].
  destruct (Z.eqb_spec i 0); [lia|]. destruct (Z.eqb_spec j 0); [lia|]. simpl.
  rewrite Hin, Hne. simpl. eauto.
Qed.

Lemma cell_spec_body_inf C i j :
  1 ≤ i → 1 ≤ j → in_body m bw i j && fne (d i j) infinity = false →
  vget2 C i j = Some infinity → cell_spec d m bw C i j.
Proof.
  intros Hi Hj Hin E. eexists. split; [done|].
  destruct (Z.eqb_spec i 0); [lia|]. destruct (Z.eqb_spec j 0); [lia|]. simpl.
  by rewrite Hin.
Qed.

Lemma fill_first_row_spec n (ld C0 : list (list double)) :
  0 < n → 0 < m → 1 ≤ bw →
  mshape n m ld → (∀ i j, 0 ≤ i < n → 0 ≤ j < m → vget2 ld i j = Some (d i j)) →
  mshape n m C0 → vget2 C0 0 0 = Some (d 0 0) →
  (∀ i j, 0 ≤ i < n → 0 ≤ j < m → 1 ≤ i ∨ 1 ≤ j → vget2 C0 i j = Some infinity) →
  ∃ C, fill_first_row ld m bw C0 = Some C ∧ mshape n m C ∧
       (∀ j, 0 ≤ j < m → cell_spec d m bw C 0 j) ∧
       (∀ i j, 1 ≤ i < n → 0 ≤ j < m → vget2 C i j = Some infinity).
Proof.
  intros Hn Hm Hbw Hld Hd Hsh0 H00 Hinf0. unfold fill_first_row.
  set (P := λ (j : Z) C,
         mshape n m C ∧
         (∀ j', 0 ≤ j' < j → j' < m → cell_spec d m bw C 0 j') ∧
         (∀ i' j', 0 ≤ i' < n → 0 ≤ j' < m → 1 ≤ i' ∨ j ≤ j' →
                   vget2 C i' j' = Some infinity)).
  loop_inv P as C Hr HP; [lia| | |].
  - split; [done|]. split.
    + intros j' Hj' _. replace j' with 0 by lia. by apply cell_spec_origin.
    + intros i' j' Hi' Hj' Hor. apply Hinf0; lia.
  - intros j C Hj (Hsh & Hrow & Hinf).
    destruct (vget2_is_Some _ _ _ 0 (j - 1) Hsh) as [p Hp]; [lia|lia|].
    rewrite Hp. simpl. rewrite Hd by lia. simpl.
    destruct (vset2_spec _ _ _ 0 j (p + d 0 j)%float Hsh) as (C' & -> & Hsh' & Hg & Hne & _);
      [lia|lia|].
    exists C'. split; [done|]. split; [done|]. split.
    + intros j' Hj' Hm'. destruct (decide (j' = j)) as [->|Hne'].
      * apply (cell_spec_row0 C' j p); [lia|lia| |done]. rewrite Hne by lia. done.
      * apply (cell_spec_frame d m bw C C' 0 j' 0 j); try done; try lia.
        apply Hrow; lia.
    + intros i' j' Hi' Hj' Hor. rewrite Hne by lia. apply Hinf; lia.
  - destruct HP as (Hsh & Hrow & Hinf). exists C. split; [done|]. split; [done|]. split.
    + intros j Hj. destruct (Z_lt_le_dec j (Z.min m (bw + 1))).
      * apply Hrow; lia.
      * apply cell_spec_row0_inf; [lia|lia|]. apply Hinf; lia.
    + intros i j Hi Hj. apply Hinf; lia.
Qed.

Lemma fill_first_column_spec n (ld C0 : list (list double)) :
  0 < n → 0 < m → 1 ≤ bw →
  mshape n m ld → (∀ i j, 0 ≤ i < n → 0 ≤ j < m → vget2 ld i j = Some (d i j)) →
  mshape n m C0 →
  (∀ j, 0 ≤ j < m → cell_spec d m bw C0 0 j) →
  (∀ i j, 1 ≤ i < n → 0 ≤ j < m → vget2 C0 i j = Some infinity) →
  ∃ C, fill_first_column ld n bw C0 = Some C ∧ mshape n m C ∧
       (∀ i j, 0 ≤ i < n → 0 ≤ j < m → i = 0 ∨ j = 0 → cell_spec d m bw C i j) ∧
       (∀ i j, 1 ≤ i < n → 1 ≤ j < m → vget2 C i j = Some infinity).
Proof.
  intros Hn Hm Hbw Hld Hd Hsh0 Hrow0 Hinf0. unfold fill_first_column.
  set (P := λ (i : Z) C,
         mshape n m C ∧
         (∀ j', 0 ≤ j' < m → cell_spec d m bw C 0 j') ∧
         (∀ i', 1 ≤ i' < i → i' < n → cell_spec d m bw C i' 0) ∧
         (∀ i' j', 1 ≤ i' < n → 0 ≤ j' < m → i ≤ i' ∨ 1 ≤ j' →
                   vget2 C i' j' = Some infinity)).
  loop_inv P as C Hr HP; [lia| | |].
  - split; [done|]. split; [done|]. split; [intros; lia|].
    intros i' j' Hi' Hj' _. by apply Hinf0.
  - intros i C Hi (Hsh & Hrow & Hcol & Hinf).
    destruct (vget2_is_Some _ _ _ (i - 1) 0 Hsh) as [p Hp]; [lia|lia|].
    rewrite Hp. simpl. rewrite Hd by lia. simpl.
    destruct (vset2_spec _ _ _ i 0 (p + d i 0)%float Hsh) as (C' & -> & Hsh' & Hg & Hne & _);
      [lia|lia|].
    exists C'. split; [done|]. split; [done|]. split; [|split].
    + intros j' Hj'. apply (cell_spec_frame d m bw C C' 0 j' i 0); try done; try lia.
      by apply Hrow.
    + intros i' Hi' Hn'. destruct (decide (i' = i)) as [->|Hne'].
      * apply (cell_spec_col0 C' i p); [lia|lia| |done]. rewrite Hne by lia. done.
      * apply (cell_spec_frame d m bw C C' i' 0 i 0); try done; try lia.
        apply Hcol; lia.
    + intros i' j' Hi' Hj' Hor. rewrite Hne by lia. apply Hinf; lia.
  - destruct HP as (Hsh & Hrow & Hcol & Hinf).
    exists C. split; [done|]. split; [done|]. split.
    + intros i j Hi Hj [->| ->]; [by apply Hrow|].
      destruct (decide (i = 0)) as [->|Hne]; [by apply Hrow|].
      destruct (Z_lt_le_dec i (Z.min n (bw + 1))).
      * apply Hcol; lia.
      * apply cell_spec_col0_inf; [lia|lia|]. apply Hinf; lia.
    + intros i j Hi Hj. apply Hinf; lia.
Qed.

End CellSpec.

Lemma fill_body_spec d n m bw (ld C0 : list (list double)) :
  0 < n → 0 < m → 1 ≤ bw →
  mshape n m ld → (∀ i j, 0 ≤ i < n → 0 ≤ j < m → vget2 ld i j = Some (d i j)) →
  mshape n m C0 →
  (∀ i j, 0 ≤ i < n → 0 ≤ j < m → i = 0 ∨ j = 0 → cell_spec d m bw C0 i j) →
  (∀ i j, 1 ≤ i < n → 1 ≤ j < m → vget2 C0 i j = Some infinity) →
  ∃ C, fill_body ld n m bw C0 = Some C ∧ mshape n m C ∧
       ∀ i j, 0 ≤ i < n → 0 ≤ j < m → cell_spec d m bw C i j.
Proof.
  intros Hn Hm Hbw Hld Hd Hsh0 Hedge0 Hinf0. unfold fill_body.
  set (P := λ (i : Z) (C : list (list double)),
         mshape n m C ∧
         (∀ i' j', 0 ≤ i' < n → 0 ≤ j' < m → i' < i ∨ j' = 0 → cell_spec d m bw C i' j') ∧
         (∀ i' j', i ≤ i' < n → 1 ≤ j' < m → vget2 C i' j' = Some infinity)).
  loop_inv P as C Hr HP; [lia| | |].
  - split; [done|]. split.
    + intros i' j' Hi' Hj' Hor. apply Hedge0; lia.
    + intros i' j' Hi' Hj'. apply Hinf0; lia.
  - intros i C Hi (Hsh & Hdone & Hinf).
    set (js := Z.max 1 (i - bw)). set (je := Z.min m (wrap_int (i + bw + 1))).
    set (Q := λ (j : Z) (C' : list (list double)),
           mshape n m C' ∧
           (∀ i' j', 0 ≤ i' < n → 0 ≤ j' < m → i' < i ∨ j' = 0 ∨ (i' = i ∧ j' < j) →
                     cell_spec d m bw C' i' j') ∧
           (∀ i' j', 0 ≤ i' < n → 1 ≤ j' < m → i < i' ∨ (i' = i ∧ j ≤ j') →
                     vget2 C' i' j' = Some infinity)).
    loop_inv_max Q as C' Hr' HQ.
    + split; [done|]. split.
      * intros i' j' Hi' Hj' [?|[?|[-> ?]]]; [apply Hdone; lia|apply Hdone; lia|].
        destruct (decide (j' = 0)) as [->|?]; [apply Hdone; lia|].
        apply cell_spec_body_inf; [lia|lia| |apply Hinf; lia].
        unfold in_body. fold js. destruct (Z.leb_spec js j'); [lia|]. done.
      * intros i' j' Hi' Hj' Hor. apply Hinf; lia.
    + intros j C1 Hj (Hsh1 & Hdone1 & Hinf1).
      assert (1 ≤ j < m) as Hjm by (subst js je; lia).
      assert (in_body m bw i j = true) as Hin.
      { unfold in_body. fold js je.
        destruct (Z.leb_spec js j); [|lia]. destruct (Z.ltb_spec j je); [|lia]. done. }
      unfold fill_cell. rewrite Hd by lia. simpl.
      destruct (d i j =? infinity)%float eqn:Einf.
      * exists C1. split; [done|]. split; [done|]. split.
        -- intros i' j' Hi' Hj' [?|[?|[-> ?]]];
             [apply Hdone1; lia|apply Hdone1; lia|].
           destruct (decide (j' = j)) as [->|?]; [|apply Hdone1; lia].
           apply cell_spec_body_inf; [lia|lia| |apply Hinf1; lia].
           unfold fne. rewrite Einf. by rewrite andb_false_r.
        -- intros i' j' Hi' Hj' Hor. apply Hinf1; lia.
      * destruct (min_prev_total n m C1 i j Hsh1) as [mp Hmp]; [lia|lia|].
        rewrite Hmp. simpl.
        destruct (vset2_spec _ _ _ i j (d i j + mp)%float Hsh1)
          as (C2 & -> & Hsh2 & Hg & Hne & _); [lia|lia|].
        exists C2. split; [done|]. split; [done|]. split.
        -- intros i' j' Hi' Hj' Hor.
           destruct (decide (i' = i ∧ j' = j)) as [[-> ->]|Hne'].
           ++ apply (cell_spec_body d m bw C2 i j mp); [lia|lia|done| | |done].
              ** unfold fne. by rewrite Einf.
              ** rewrite (min_prev_frame C1 C2 i j i j); [done|done|lia|lia|lia].
           ++ apply (cell_spec_frame d m bw C1 C2 i' j' i j); [done|lia|lia|lia|lia|].
              apply Hdone1; lia.
        -- intros i' j' Hi' Hj' Hor. rewrite Hne by lia. apply Hinf1; lia.
    + destruct HQ as (Hsh' & Hdone' & Hinf').
      exists C'. split; [done|]. split; [done|]. split.
      * intros i' j' Hi' Hj' Hor.
        destruct (decide (i' = i)) as [->|?]; [|apply Hdone'; lia].
        destruct (decide (j' = 0)) as [->|?]; [apply Hdone'; lia|].
        destruct (Z_lt_le_dec j' (Z.max js je)); [apply Hdone'; lia|].
        apply cell_spec_body_inf; [lia|lia| |apply Hinf'; lia].
        unfold in_body. fold js je. destruct (Z.ltb_spec j' je); [lia|].
        by rewrite andb_false_r.
      * intros i' j' Hi' Hj'. apply Hinf'; lia.
  - destruct HP as (Hsh & Hdone & _). exists C. split; [done|]. split; [done|].
    intros i j Hi Hj. apply Hdone; lia.
Qed.

(** The fill runs without fault on non-empty sequences, and every cell of
    the cost matrix satisfies [cell_spec]. *)
Lemma fill_cost_matrix_spec sequence1 sequence2 bw metric :
  0 < vsize sequence1 → 0 < vsize sequence2 → 1 ≤ bw →
  ∃ C, fill_cost_matrix sequence1 sequence2 bw metric = Some C ∧
       mshape (vsize sequence1) (vsize sequence2) C ∧
       ∀ i j, 0 ≤ i < vsize sequence1 → 0 ≤ j < vsize sequence2 →
              cell_spec (local_dist sequence1 sequence2 bw metric) (vsize sequence2) bw C i j.
Proof.
  intros Hn Hm Hbw. unfold fill_cost_matrix.
  destruct (local_distance_matrix_spec sequence1 sequence2 bw metric)
    as (ld & -> & Hld & Hd).
  set (n := vsize sequence1) in *. set (m := vsize sequence2) in *.
  set (d := local_dist sequence1 sequence2 bw metric) in *.
  simpl. rewrite Hd by lia. simpl.
  destruct (vset2_spec n m (vmake n (vmake m infinity)) 0 0 (d 0 0))
    as (C0 & -> & Hsh0 & Hg0 & Hne0 & _); [apply mshape_vmake; lia|lia|lia|].
  simpl.
  destruct (fill_first_row_spec d m bw n ld C0) as (C1 & -> & Hsh1 & Hrow1 & Hinf1);
    try done.
  { intros i j Hi Hj Hor. rewrite Hne0 by lia. by apply vget2_vmake. }
  simpl.
  destruct (fill_first_column_spec d m bw n ld C1) as (C2 & -> & Hsh2 & Hedge2 & Hinf2);
    try done.
  simpl. by apply fill_body_spec.
Qed.

(** *** Backtracking and the result *)

Lemma backtrack_loop_total n m (C : list (list double)) fuel :
  mshape n m C →
  ∀ i j path, 0 ≤ i < n → 0 ≤ j < m → i + j ≤ Z.of_nat fuel →
              is_Some (backtrack_loop fuel C i j path).
Proof.
  intros Hsh. induction fuel as [|fuel IH]; intros i j path Hi Hj Hsum.
  - simpl. destruct (Z.ltb_spec 0 i); [lia|]. destruct (Z.ltb_spec 0 j); [lia|]. done.
  - cbn [backtrack_loop].
    destruct ((0 <? i) || (0 <? j)) eqn:Hc; [|done].
    destruct (Z.eqb_spec i 0) as [->|Hi0].
    { apply IH; lia. }
    destruct (Z.eqb_spec j 0) as [->|Hj0].
    { apply IH; lia. }
    destruct (vget2_is_Some _ _ _ (i - 1) (j - 1) Hsh) as [diag ->]; [lia|lia|].
    destruct (vget2_is_Some _ _ _ (i - 1) j Hsh) as [up ->]; [lia|lia|].
    destruct (vget2_is_Some _ _ _ i (j - 1) Hsh) as [left ->]; [lia|lia|].
    simpl. destruct (_ && _); [apply IH; lia|].
    destruct (up <=? left)%float; apply IH; lia.
Qed.

Lemma backtrack_total n m (C : list (list double)) :
  mshape n m C → 0 < n → 0 < m → is_Some (backtrack C n m).
Proof.
  intros Hsh Hn Hm. unfold backtrack.
  destruct (backtrack_loop_total n m C (Z.to_nat (n + m)) Hsh (n - 1) (m - 1) [])
    as [path ->]; [lia|lia|lia|]. done.
Qed.

Lemma effective_band_pos n m band_width :
  0 < n → 0 < m → 1 ≤ effective_band n m band_width.
Proof. intros. unfold effective_band. destruct (Z.leb_spec band_width 0); lia. Qed.

(** [computeDTW] on non-empty sequences: it returns, with the corner of the
    cost matrix as distance, and with the backtracked path exactly when a
    path was asked for and the distance is not [+∞]. *)
Lemma computeDTW_nonempty sequence1 sequence2 band_width metric return_path :
  0 < vsize sequence1 → 0 < vsize sequence2 →
  ∃ C dist r,
    fill_cost_matrix sequence1 sequence2
      (effective_band (vsize sequence1) (vsize sequence2) band_width) metric = Some C ∧
    mshape (vsize sequence1) (vsize sequence2) C ∧
    vget2 C (vsize sequence1 - 1) (vsize sequence2 - 1) = Some dist ∧
    computeDTW sequence1 sequence2 band_width metric return_path = Some r ∧
    distance r = dist ∧ cost_matrix r = C ∧
    (if return_path && fne dist infinity
     then backtrack C (vsize sequence1) (vsize sequence2) = Some (path r)
     else path r = []).
Proof.
  intros Hn Hm. unfold computeDTW.
  destruct (Z.eqb_spec (vsize sequence1) 0); [lia|].
  destruct (Z.eqb_spec (vsize sequence2) 0); [lia|]. simpl.
  destruct (fill_cost_matrix_spec sequence1 sequence2
              (effective_band (vsize sequence1) (vsize sequence2) band_width) metric)
    as (C & HC & Hsh & Hspec); [done|done|by apply effective_band_pos|].
  destruct (vget2_is_Some _ _ _ (vsize sequence1 - 1) (vsize sequence2 - 1) Hsh)
    as [dist Hdist]; [lia|lia|].
  rewrite HC. simpl. rewrite Hdist. simpl.
  exists C, dist.
  destruct (return_path && fne dist infinity) eqn:Hc.
  - destruct (backtrack_total _ _ C Hsh Hn Hm) as [p Hp]. rewrite Hp. simpl.
    eexists. repeat (split; [done|]). simpl. done.
  - eexists. repeat (split; [done|]). simpl. done.
Qed.

(** C10.  For every pair of non-empty sequences, [dtw_align] returns; and
    when the corner [cost[n-1][m-1]] of the cost matrix is [+∞], the object
    it returns carries that [+∞] distance and an empty path. *)
Theorem dtw_align_infinite_corner seq1 seq2 band_width :
  0 < vsize seq1 → 0 < vsize seq2 →
  ∃ C res,
    fill_cost_matrix seq1 seq2
      (effective_band (vsize seq1) (vsize seq2) band_width) EUCLIDEAN = Some C ∧
    dtw_align seq1 seq2 band_width = Some res ∧
    (vget2 C (vsize seq1 - 1) (vsize seq2 - 1) = Some infinity →
     align_distance res = infinity ∧ align_path res = []).
Proof.
  intros Hn Hm.
  destruct (computeDTW_nonempty seq1 seq2 band_width EUCLIDEAN true Hn Hm)
    as (C & dist & r & HC & _ & Hdist & Hr & Hd & _ & Hpath).
  exists C. unfold dtw_align. rewrite Hr. simpl. eexists. split; [done|]. split; [done|].
  simpl. intros Hinf. rewrite Hinf in Hdist. injection Hdist as <-.
  split; [done|]. done.
Qed.

(** *** The band *)

Lemma wrap_int_le x : INT_MIN ≤ x → wrap_int x ≤ x.
Proof.
  unfold wrap_int, INT_MIN. intros Hx.
  pose proof (Z.mod_le (x + 2 ^ 31) (2 ^ 32)). lia.
Qed.

Lemma wrap_int_id x : INT_MIN ≤ x ≤ INT_MAX → wrap_int x = x.
Proof.
  unfold wrap_int, INT_MIN, INT_MAX. intros Hx.
  rewrite Z.mod_small by lia. lia.
Qed.

(** Inside the band, and as long as [i + band_width + 1] is an [int], the
    body of the fill visits cell [(i, j)]. *)
Lemma in_body_band m bw i j :
  1 ≤ i → 1 ≤ j < m → 1 ≤ bw → Z.abs (i - j) ≤ bw → i + bw < INT_MAX →
  in_body m bw i j = true.
Proof.
  intros Hi Hj Hbw Hband Hmax. unfold in_body.
  rewrite wrap_int_id by (unfold INT_MIN, INT_MAX in *; lia).
  destruct (Z.leb_spec (Z.max 1 (i - bw)) j); [|lia].
  destruct (Z.ltb_spec j (Z.min m (i + bw + 1))); [done|lia].
Qed.

Lemma in_body_out_of_band m bw i j :
  0 ≤ i → 1 ≤ bw → bw < Z.abs (i - j) → in_body m bw i j = false.
Proof.
  intros Hi Hbw Hband. unfold in_body.
  pose proof (wrap_int_le (i + bw + 1)) as Hw. unfold INT_MIN in Hw.
  destruct (Z.leb_spec (Z.max 1 (i - bw)) j); [|done].
  destruct (Z.ltb_spec j (Z.min m (wrap_int (i + bw + 1)))); [lia|done].
Qed.

(** The minimum over the previous cells that lie inside the band: the
    reading of the specification, in which a cell outside the band is not a
    candidate.  It follows the order of the source. *)
Definition min_prev_in_band (cost_matrix : list (list double))
    (band_width i j : Z) : option double :=
  let min_prev := infinity in
  min_prev ← (if (0 <? i) && (0 <? j) && (Z.abs ((i - 1) - (j - 1)) <=? band_width)
              then c ← vget2 cost_matrix (i - 1) (j - 1); Some (std_min min_prev c)
              else Some min_prev);
  min_prev ← (if (0 <? i) && (Z.abs ((i - 1) - j) <=? band_width)
              then c ← vget2 cost_matrix (i - 1) j; Some (std_min min_prev c)
              else Some min_prev);
  if (0 <? j) && (Z.abs (i - (j - 1)) <=? band_width)
  then c ← vget2 cost_matrix i (j - 1); Some (std_min min_prev c)
  else Some min_prev.

(** Where the cells outside the band hold [+∞], reading them changes no
    minimum. *)
Lemma min_prev_in_band_eq n m bw (C : list (list double)) i j :
  mshape n m C →
  (∀ i' j', 0 ≤ i' < n → 0 ≤ j' < m → bw < Z.abs (i' - j') →
            vget2 C i' j' = Some infinity) →
  1 ≤ i < n → 1 ≤ j < m →
  min_prev C i j = min_prev_in_band C bw i j.
Proof.
  intros Hsh Hout Hi Hj. unfold min_prev, min_prev_in_band.
  destruct (Z.ltb_spec 0 i); [|lia]. destruct (Z.ltb_spec 0 j); [|lia]. simpl.
  destruct (vget2_is_Some _ _ _ (i - 1) (j - 1) Hsh) as [c1 E1]; [lia|lia|].
  destruct (vget2_is_Some _ _ _ (i - 1) j Hsh) as [c2 E2]; [lia|lia|].
  destruct (vget2_is_Some _ _ _ i (j - 1) Hsh) as [c3 E3]; [lia|lia|].
  rewrite E1, E2, E3. simpl.
  assert ((if Z.abs (i - 1 - (j - 1)) <=? bw then Some (std_min infinity c1)
           else Some infinity) = Some (std_min infinity c1)) as ->.
  { destruct (Z.leb_spec (Z.abs (i - 1 - (j - 1))) bw); [done|].
    rewrite Hout in E1 by lia. injection E1 as <-. done. }
  simpl.
  assert ((if Z.abs (i - 1 - j) <=? bw then Some (std_min (std_min infinity c1) c2)
           else Some (std_min infinity c1)) = Some (std_min (std_min infinity c1) c2)) as ->.
  { destruct (Z.leb_spec (Z.abs (i - 1 - j)) bw); [done|].
    rewrite Hout in E2 by lia. injection E2 as <-. by rewrite std_min_infinity_r. }
  simpl.
  destruct (Z.leb_spec (Z.abs (i - (j - 1))) bw); [done|].
  rewrite Hout in E3 by lia. injection E3 as <-. by rewrite std_min_infinity_r.
Qed.

Lemma cell_spec_out_of_band d m bw (C : list (list double)) i j :
  0 ≤ i → 0 ≤ j → 1 ≤ bw → bw < Z.abs (i - j) →
  cell_spec d m bw C i j → vget2 C i j = Some infinity.
Proof.
  intros Hi Hj Hbw Hband (c & Hc & Hspec). rewrite Hc. f_equal.
  destruct (Z.eqb_spec i 0) as [->|Hi0].
  - destruct (Z.eqb_spec j 0) as [->|Hj0]; [lia|]. simpl in Hspec.
    destruct (Z.leb_spec j bw); [lia|done].
  - simpl in Hspec. destruct (Z.eqb_spec j 0) as [->|Hj0].
    + destruct (Z.leb_spec i bw); [lia|done].
    + by rewrite in_body_out_of_band in Hspec.
Qed.

(** C4.  For every pair of non-empty sequences and every band width,
    [computeDTW] fills a cost matrix in which every cell [(i, j)] with
    [|i - j|] above the effective band width still holds [+∞]; and every
    cell the body of the fill writes (inside the band, with a local distance
    other than [+∞]) holds its local distance plus the minimum taken over
    the previous cells inside the band only: the cells outside the band
    determine no minimum. *)
Theorem band_cells_stay_infinite sequence1 sequence2 band_width metric return_path :
  let n := vsize sequence1 in
  let m := vsize sequence2 in
  let bw := effective_band n m band_width in
  let d := local_dist sequence1 sequence2 bw metric in
  0 < n → 0 < m →
  ∃ r, computeDTW sequence1 sequence2 band_width metric return_path = Some r ∧
       (∀ i j, 0 ≤ i < n → 0 ≤ j < m → bw < Z.abs (i - j) →
               vget2 (cost_matrix r) i j = Some infinity) ∧
       (∀ i j, 1 ≤ i < n → 1 ≤ j < m → Z.abs (i - j) ≤ bw → i + bw < INT_MAX →
               fne (d i j) infinity = true →
               ∃ mp, min_prev_in_band (cost_matrix r) bw i j = Some mp ∧
                     vget2 (cost_matrix r) i j = Some (d i j + mp)%float).
Proof.
  intros n m bw d Hn Hm.
  destruct (computeDTW_nonempty sequence1 sequence2 band_width metric return_path Hn Hm)
    as (C & dist & r & HC & Hsh & _ & Hr & _ & Hcm & _).
  destruct (fill_cost_matrix_spec sequence1 sequence2 bw metric)
    as (C' & HC' & _ & Hspec); [done|done|by apply effective_band_pos|].
  fold n m bw in HC, Hsh. rewrite HC in HC'. injection HC' as <-.
  pose proof (effective_band_pos n m band_width Hn Hm) as Hbw. fold bw in Hbw.
  assert (∀ i j, 0 ≤ i < n → 0 ≤ j < m → bw < Z.abs (i - j) →
                 vget2 C i j = Some infinity) as Hout.
  { intros i j Hi Hj Hband.
    apply (cell_spec_out_of_band d m bw); [lia|lia|done|done|]. by apply Hspec. }
  exists r. split; [done|]. rewrite Hcm. split; [done|].
  intros i j Hi Hj Hband Hmax Hne.
  destruct (Hspec i j) as (c & Hc & Hcell); [lia|lia|].
  destruct (Z.eqb_spec i 0); [lia|]. destruct (Z.eqb_spec j 0); [lia|]. simpl in Hcell.
  fold d in Hcell. rewrite in_body_band, Hne in Hcell by lia. simpl in Hcell.
  destruct Hcell as (mp & Hmp & ->). exists mp. split; [|done].
  by rewrite <- (min_prev_in_band_eq n m bw C i j).
Qed.

(** *** Self-distance *)

Lemma min_prev_nonneg (C : list (list double)) i j mp :
  1 ≤ i → 1 ≤ j →
  (∀ c, vget2 C (i - 1) (j - 1) = Some c → nonneg c) →
  (∀ c, vget2 C (i - 1) j = Some c → nonneg c) →
  (∀ c, vget2 C i (j - 1) = Some c → nonneg c) →
  min_prev C i j = Some mp → nonneg mp.
Proof.
  intros Hi Hj H1 H2 H3. unfold min_prev.
  destruct (Z.ltb_spec 0 i); [|lia]. destruct (Z.ltb_spec 0 j); [|lia]. simpl.
  destruct (vget2 C (i - 1) (j - 1)) as [c1|] eqn:E1; [|done]. simpl.
  destruct (vget2 C (i - 1) j) as [c2|] eqn:E2; [|done]. simpl.
  destruct (vget2 C i (j - 1)) as [c3|] eqn:E3; [|done]. simpl.
  intros [= <-].
  apply std_min_nonneg; [apply std_min_nonneg; [apply std_min_nonneg|]|]; eauto.
  apply nonneg_infinity.
Qed.

(** With local distances that are not negative, no cell of the cost matrix
    is negative (or NaN). *)
Lemma cells_nonneg d n m bw (C : list (list double)) :
  (∀ i j, 0 ≤ i < n → 0 ≤ j < m → nonneg (d i j)) →
  (∀ i j, 0 ≤ i < n → 0 ≤ j < m → cell_spec d m bw C i j) →
  ∀ i j c, 0 ≤ i < n → 0 ≤ j < m → vget2 C i j = Some c → nonneg c.
Proof.
  intros Hd Hspec.
  assert (∀ k : nat, ∀ i j c, 0 ≤ i < n → 0 ≤ j < m → i + j < Z.of_nat k →
                              vget2 C i j = Some c → nonneg c) as Hind.
  { induction k as [|k IH]; intros i j c Hi Hj Hk Hc; [lia|].
    destruct (Hspec i j Hi Hj) as (c' & Hc' & Hcell).
    rewrite Hc in Hc'. injection Hc' as <-.
    destruct (Z.eqb_spec i 0) as [->|Hi0].
    - destruct (Z.eqb_spec j 0) as [->|Hj0]; simpl in Hcell.
      + subst c. apply Hd; lia.
      + destruct (j <=? bw).
        * destruct Hcell as (p & Hp & ->). apply add_nonneg; [|apply Hd; lia].
          apply (IH 0 (j - 1)); [lia|lia|lia|done].
        * subst c. apply nonneg_infinity.
    - simpl in Hcell. destruct (Z.eqb_spec j 0) as [->|Hj0].
      + destruct (i <=? bw).
        * destruct Hcell as (p & Hp & ->). apply add_nonneg; [|apply Hd; lia].
          apply (IH (i - 1) 0); [lia|lia|lia|done].
        * subst c. apply nonneg_infinity.
      + destruct (in_body m bw i j && fne (d i j) infinity).
        * destruct Hcell as (mp & Hmp & ->). apply add_nonneg; [apply Hd; lia|].
          apply (min_prev_nonneg C i j mp); [lia|lia| | | |done].
          -- intros c'. apply IH; lia.
          -- intros c'. apply IH; lia.
          -- intros c'. apply IH; lia.
        * subst c. apply nonneg_infinity. }
  intros i j c Hi Hj. apply (Hind (Z.to_nat (i + j + 1))); [done|done|lia].
Qed.

(** With zero local distances on the diagonal, the diagonal of the cost
    matrix is zero. *)
Lemma diagonal_zero d n bw (C : list (list double)) :
  (∀ i j, 0 ≤ i < n → 0 ≤ j < n → nonneg (d i j)) →
  (∀ i, 0 ≤ i < n → d i i = 0%float) →
  (∀ i j, 0 ≤ i < n → 0 ≤ j < n → cell_spec d n bw C i j) →
  (∀ i, 1 ≤ i < n → in_body n bw i i = true) →
  ∀ i, 0 ≤ i < n → vget2 C i i = Some 0%float.
Proof.
  intros Hd Hdiag Hspec Hin.
  pose proof (cells_nonneg d n n bw C Hd Hspec) as Hnn.
  assert (∀ k : nat, Z.of_nat k < n → vget2 C (Z.of_nat k) (Z.of_nat k) = Some 0%float) as Hind.
  { induction k as [|k IH]; intros Hk.
    - change (Z.of_nat 0) with 0.
      destruct (Hspec 0 0) as (c & Hc & Hcell); [lia|lia|]. simpl in Hcell.
      rewrite Hc, Hcell, Hdiag by lia. done.
    - set (i := Z.of_nat (S k)) in *.
      destruct (Hspec i i) as (c & Hc & Hcell); [lia|lia|].
      destruct (Z.eqb_spec i 0); [lia|]. simpl in Hcell.
      rewrite Hin, Hdiag in Hcell by lia. simpl in Hcell.
      destruct Hcell as (mp & Hmp & ->). rewrite Hc. f_equal.
      unfold min_prev in Hmp.
      destruct (Z.ltb_spec 0 i); [|lia]. simpl in Hmp.
      replace (i - 1) with (Z.of_nat k) in Hmp by lia.
      rewrite IH in Hmp by lia. simpl in Hmp.
      destruct (vget2 C (Z.of_nat k) i) as [c2|] eqn:E2; [|done]. simpl in Hmp.
      destruct (vget2 C i (Z.of_nat k)) as [c3|] eqn:E3; [|done]. simpl in Hmp.
      injection Hmp as <-.
      change (std_min infinity 0) with 0%float.
      rewrite (std_min_0_nonneg c2) by (apply (Hnn (Z.of_nat k) i); [lia|lia|done]).
      rewrite (std_min_0_nonneg c3) by (apply (Hnn i (Z.of_nat k)); [lia|lia|done]).
      reflexivity. }
  intros i Hi. specialize (Hind (Z.to_nat i)). rewrite Z2Nat.id in Hind by lia.
  apply Hind. lia.
Qed.

(** The cells [(k, k), ..., (1, 1)], in the order the backtracking visits
    them. *)
Fixpoint rev_diag (k : nat) : list (Z * Z) :=
  match k with
  | O => []
  | Datatypes.S k' => (Z.of_nat k, Z.of_nat k) :: rev_diag k'
  end.

Lemma reverse_rev_diag k :
  reverse (rev_diag k ++ [(0, 0)]) = (λ i, (i, i)) <$> seqZ 0 (Z.of_nat (Datatypes.S k)).
Proof.
  induction k as [|k IH]; [done|].
  cbn [rev_diag app]. rewrite reverse_cons, IH.
  rewrite (seqZ_S 0 (Datatypes.S k)), fmap_app. done.
Qed.

(** On a matrix with a zero diagonal and no negative cell the backtracking
    walks down the diagonal. *)
Lemma backtrack_loop_diagonal n (C : list (list double)) :
  mshape n n C →
  (∀ i, 0 ≤ i < n → vget2 C i i = Some 0%float) →
  (∀ i j c, 0 ≤ i < n → 0 ≤ j < n → vget2 C i j = Some c → nonneg c) →
  ∀ (k fuel : nat) path, (k ≤ fuel)%nat → Z.of_nat k < n →
    backtrack_loop fuel C (Z.of_nat k) (Z.of_nat k) path = Some (path ++ rev_diag k).
Proof.
  intros Hsh Hdiag Hnn. induction k as [|k IH]; intros fuel path Hfuel Hk.
  - destruct fuel; simpl; by rewrite app_nil_r.
  - destruct fuel as [|fuel]; [lia|].
    set (i := Z.of_nat (Datatypes.S k)) in *. cbn [backtrack_loop].
    destruct (Z.ltb_spec 0 i); [|lia]. simpl.
    destruct (Z.eqb_spec i 0); [lia|].
    replace (i - 1) with (Z.of_nat k) by lia.
    rewrite Hdiag by lia. simpl.
    destruct (vget2_is_Some _ _ _ (Z.of_nat k) i Hsh) as [up Hup]; [lia|lia|].
    destruct (vget2_is_Some _ _ _ i (Z.of_nat k) Hsh) as [left Hleft]; [lia|lia|].
    rewrite Hup, Hleft. simpl.
    assert (nonneg up) as -> by (apply (Hnn (Z.of_nat k) i); [lia|lia|done]).
    assert (nonneg left) as -> by (apply (Hnn i (Z.of_nat k)); [lia|lia|done]).
    simpl. rewrite IH by lia. by rewrite <- app_assoc.
Qed.

(** The local distances of a sequence of finite vectors against itself. *)
Lemma local_dist_self_nonneg s bw i j :
  (∀ k v, vget s k = Some v → finite_vec v) →
  nonneg (local_dist s s bw EUCLIDEAN i j).
Proof.
  intros Hf. unfold local_dist.
  destruct (Z.abs (i - j) <=? bw); [|apply nonneg_infinity].
  destruct (vget s i) as [a|] eqn:Ea; [|apply nonneg_infinity]. simpl.
  destruct (vget s j) as [b|] eqn:Eb; [|apply nonneg_infinity]. simpl.
  destruct (calculateDistance a b EUCLIDEAN) as [x|] eqn:Ex; [|apply nonneg_infinity].
  simpl. apply (euclidean_nonneg a b); eauto.
Qed.

Lemma local_dist_self_diag s bw i :
  (∀ k v, vget s k = Some v → finite_vec v) →
  0 ≤ bw → 0 ≤ i < vsize s →
  local_dist s s bw EUCLIDEAN i i = 0%float.
Proof.
  intros Hf Hbw Hi. unfold local_dist.
  replace (i - i) with 0 by lia. change (Z.abs 0) with 0.
  destruct (Z.leb_spec 0 bw); [|lia].
  destruct (vget_is_Some s i) as [a Ha]; [done|]. rewrite Ha. simpl.
  rewrite euclidean_self by eauto. done.
Qed.

(** C5.  For every non-empty sequence [s] of feature vectors with finite
    components (at most [2^30 - 1] of them, so that the [int] arithmetic of
    the band limits is exact), [computeDTW(s, s)] with an unconstrained band
    ([band_width <= 0]) and the Euclidean metric returns the distance [0] and
    the path [(0,0), (1,1), ..., (n-1,n-1)]. *)
Theorem dtw_self_distance s band_width :
  0 < vsize s → 2 * vsize s < 2 ^ 31 →
  (∀ k v, vget s k = Some v → finite_vec v) →
  band_width ≤ 0 →
  ∃ r, computeDTW s s band_width EUCLIDEAN true = Some r ∧
       distance r = 0%float ∧
       path r = (λ i, (i, i)) <$> seqZ 0 (vsize s).
Proof.
  intros Hn Hsize Hf Hband. set (n := vsize s) in *.
  destruct (computeDTW_nonempty s s band_width EUCLIDEAN true Hn Hn)
    as (C & dist & r & HC & Hsh & Hdist & Hr & Hd & _ & Hpath).
  fold n in HC, Hsh, Hdist, Hpath.
  assert (effective_band n n band_width = n) as Hbw.
  { unfold effective_band. destruct (Z.leb_spec band_width 0); lia. }
  rewrite Hbw in HC.
  destruct (fill_cost_matrix_spec s s n EUCLIDEAN) as (C' & HC' & _ & Hspec);
    [done|done|lia|].
  fold n in Hspec. rewrite HC in HC'. injection HC' as <-.
  set (d := local_dist s s n EUCLIDEAN) in *.
  assert (∀ i j, 0 ≤ i < n → 0 ≤ j < n → nonneg (d i j)) as Hdnn.
  { intros i j _ _. by apply local_dist_self_nonneg. }
  assert (∀ i, 0 ≤ i < n → d i i = 0%float) as Hdd.
  { intros i Hi. apply local_dist_self_diag; [done|lia|done]. }
  assert (∀ i, 1 ≤ i < n → in_body n n i i = true) as Hin.
  { intros i Hi. apply in_body_band; unfold INT_MAX; lia. }
  pose proof (cells_nonneg d n n n C Hdnn Hspec) as Hnn.
  pose proof (diagonal_zero d n n C Hdnn Hdd Hspec Hin) as Hdiag.
  rewrite Hdiag in Hdist by lia. injection Hdist as <-.
  exists r. split; [done|]. split; [done|].
  change (true && fne 0 infinity) with true in Hpath. cbn iota in Hpath.
  unfold backtrack in Hpath.
  replace (n - 1) with (Z.of_nat (Z.to_nat (n - 1))) in Hpath by lia.
  rewrite (backtrack_loop_diagonal n C Hsh Hdiag Hnn (Z.to_nat (n - 1))) in Hpath
    by lia.
  simpl in Hpath. rewrite reverse_rev_diag in Hpath.
  replace (Z.of_nat (Datatypes.S (Z.to_nat (n - 1)))) with n in Hpath by lia.
  by injection Hpath as <-.
Qed.

(** *** Concrete alignments *)

Definition finite_seqb (s : list (list double)) : bool :=
  forallb (forallb is_finite) s.

Lemma finite_seqb_correct s :
  finite_seqb s = true → ∀ k v, vget s k = Some v → finite_vec v.
Proof.
  unfold finite_seqb. rewrite forallb_forall. intros Hall k v [_ Hv]%vget_Some.
  apply list_elem_of_lookup_2, list_elem_of_In in Hv. specialize (Hall v Hv).
  rewrite forallb_forall in Hall. intros i x [_ Hx]%vget_Some.
  apply list_elem_of_lookup_2, list_elem_of_In in Hx. by apply Hall.
Qed.

(** Scenario S4 of the specification. *)
Definition s4_seq : list (list double) :=
  [[0; 0]; [1; 1]; [2; 2]]%float.

(** Witness of C5: scenario S4. *)
Lemma dtw_self_distance_witness :
  0 < vsize s4_seq ∧ 2 * vsize s4_seq < 2 ^ 31 ∧ finite_seqb s4_seq = true ∧ -1 ≤ 0 ∧
  ∃ r, computeDTW s4_seq s4_seq (-1) EUCLIDEAN true = Some r ∧
       distance r = 0%float ∧ path r = [(0, 0); (1, 1); (2, 2)].
Proof.
  assert (0 < vsize s4_seq) as Hn by (vm_compute; reflexivity).
  assert (2 * vsize s4_seq < 2 ^ 31) as Hsize by (vm_compute; reflexivity).
  assert (finite_seqb s4_seq = true) as Hf by (vm_compute; reflexivity).
  assert (-1 ≤ 0) as Hb by lia.
  split; [exact Hn|]. split; [exact Hsize|]. split; [exact Hf|]. split; [exact Hb|].
  exact (dtw_self_distance s4_seq (-1) Hn Hsize (finite_seqb_correct s4_seq Hf) Hb).
Defined.

(** Witness of C4: three frames against two, band width 1; the cell
    [(2, 0)] is outside the band. *)
Lemma band_cells_stay_infinite_witness :
  0 < vsize [[0]; [1]; [2]]%float ∧ 0 < vsize [[0]; [1]]%float ∧
  ∃ r, computeDTW [[0]; [1]; [2]]%float [[0]; [1]]%float 1 EUCLIDEAN true = Some r ∧
       vget2 (cost_matrix r) 2 0 = Some infinity.
Proof.
  assert (0 < vsize [[0]; [1]; [2]]%float) as Hn by (vm_compute; reflexivity).
  assert (0 < vsize [[0]; [1]]%float) as Hm by (vm_compute; reflexivity).
  split; [exact Hn|]. split; [exact Hm|].
  destruct (band_cells_stay_infinite [[0]; [1]; [2]]%float [[0]; [1]]%float 1
              EUCLIDEAN true Hn Hm) as (r & Hr & Hout & _).
  exists r. split; [exact Hr|].
  apply Hout; vm_compute; split; congruence.
Defined.

(** Witness of C10: one frame against three with band width 1, where the
    band leaves the corner [(0, 2)] unreachable. *)
Lemma dtw_align_infinite_corner_witness :
  0 < vsize [[0]]%float ∧ 0 < vsize [[0]; [0]; [1]]%float ∧
  ∃ C res,
    fill_cost_matrix [[0]]%float [[0]; [0]; [1]]%float 1 EUCLIDEAN = Some C ∧
    vget2 C 0 2 = Some infinity ∧
    dtw_align [[0]]%float [[0]; [0]; [1]]%float 1 = Some res ∧
    align_distance res = infinity ∧ align_path res = [].
Proof.
  assert (0 < vsize [[0]]%float) as Hn by (vm_compute; reflexivity).
  assert (0 < vsize [[0]; [0]; [1]]%float) as Hm by (vm_compute; reflexivity).
  split; [exact Hn|]. split; [exact Hm|].
  destruct (dtw_align_infinite_corner [[0]]%float [[0]; [0]; [1]]%float 1 Hn Hm)
    as (C & res & HC & Hres & Hinf).
  assert (vget2 C 0 2 = Some infinity) as Hcorner.
  { vm_compute in HC. injection HC as <-. reflexivity. }
  exists C, res. split; [exact HC|]. split; [exact Hcorner|]. split; [exact Hres|].
  exact (Hinf Hcorner).
Defined.

(** The same with vectors of different dimensions: every local distance is
    [+∞], and so is the corner. *)
Example dtw_align_mismatched_dimensions :
  dtw_align [[0]; [1]]%float [[0; 1]; [1; 2]]%float (-1)
    = Some (mkAlignResult infinity infinity []).
Proof. vm_compute. reflexivity. Qed.

(** ** Pitch *)

(** [R(τ) = Σᵢ x[i]·x[i+τ]] for [i] in [[0, L - τ)], summed in binary64 in
    the order of the indices (the reading of the specification). *)
Definition autocorr_sum (x : list double) (τ : Z) : double :=
  foldl (λ acc i, (acc + (x !!! Z.to_nat i) * (x !!! Z.to_nat (i + τ)))%float)
    0%float (seqZ 0 (vsize x - τ)).

Lemma vget_lookup_total (x : list double) i a :
  vget x i = Some a → x !!! Z.to_nat i = a.
Proof. intros [_ E]%vget_Some. by apply list_lookup_total_correct. Qed.

Lemma autocorrelation_sum x τ :
  0 ≤ τ → autocorrelation x τ = Some (autocorr_sum x τ).
Proof.
  intros Hτ. unfold autocorrelation, autocorr_sum.
  destruct (Z_le_gt_dec (vsize x - τ) 0).
  { rewrite for_range_empty by lia. by rewrite seqZ_nil by lia. }
  set (f := λ acc i, (acc + (x !!! Z.to_nat i) * (x !!! Z.to_nat (i + τ)))%float).
  loop_inv (λ k acc, acc = foldl f 0%float (seqZ 0 k)) as r Hr HP; [lia|done| |by subst r].
  intros k acc Hk ->.
  destruct (vget_is_Some x k) as [a Ha]; [lia|].
  destruct (vget_is_Some x (k + τ)) as [b Hb]; [lia|].
  rewrite Ha, Hb. simpl. eexists. split; [done|].
  rewrite (seqZ_app 0 k 1) by lia. rewrite foldl_app. simpl.
  replace (Z.of_nat 0 + (0 + k)) with k by lia.
  unfold f. by rewrite (vget_lookup_total x k a), (vget_lookup_total x (k + τ) b).
Qed.

(** The state of the scan after the lags in [[lo, k)]: either no lag had a
    positive autocorrelation, or [best] is the first lag of the largest
    one. *)
Definition scan_inv (x : list double) (lo k : Z) (st : double * Z) : Prop :=
  let R := autocorr_sum x in
  (st.2 = 0 ∧ st.1 = 0%float ∧ ∀ τ, lo ≤ τ < k → (0 <? R τ)%float = false) ∨
  (lo ≤ st.2 < k ∧ st.1 = R st.2 ∧ (0 <? R st.2)%float = true ∧
   (∀ τ, lo ≤ τ < k → (R st.2 <? R τ)%float = false) ∧
   (∀ τ, lo ≤ τ < st.2 → (R st.2 <=? R τ)%float = false)).

Lemma scan_inv_step x lo k mx best :
  1 ≤ lo ≤ k → scan_inv x lo k (mx, best) →
  scan_inv x lo (k + 1)
    (if fgt (autocorr_sum x k) mx then (autocorr_sum x k, k) else (mx, best)).
Proof.
  intros Hk Hinv. unfold scan_inv, fgt in *. simpl in Hinv.
  set (R := autocorr_sum x) in *.
  assert (∀ a b c, (a <? b)%float = true → (a <? c)%float = false →
                   (b <? c)%float = false) as Hlt.
  { intros a b c Hab Hac. apply not_true_is_false. intros Hbc.
    by rewrite (ltb_trans a b c) in Hac. }
  assert (∀ a b c, (a <? b)%float = true → (a <? c)%float = false →
                   (b <=? c)%float = false) as Hle.
  { intros a b c Hab Hac. apply not_true_is_false. intros Hbc.
    by rewrite (ltb_leb_trans a b c) in Hac. }
  destruct (mx <? R k)%float eqn:Hcmp; simpl.
  - right. split; [lia|]. split; [done|].
    destruct Hinv as [(-> & -> & Hnone)|(Hb & -> & Hpos & Hmax & Hfirst)].
    + split; [done|]. split.
      * intros τ Hτ. destruct (decide (τ = k)) as [->|?]; [apply ltb_irrefl|].
        apply (Hlt 0%float); [done|]. apply Hnone. lia.
      * intros τ Hτ. apply (Hle 0%float); [done|]. apply Hnone. lia.
    + split; [by apply (ltb_trans _ (R best))|]. split.
      * intros τ Hτ. destruct (decide (τ = k)) as [->|?]; [apply ltb_irrefl|].
        apply (Hlt (R best)); [done|]. apply Hmax. lia.
      * intros τ Hτ. apply (Hle (R best)); [done|]. apply Hmax. lia.
  - destruct Hinv as [(-> & -> & Hnone)|(Hb & -> & Hpos & Hmax & Hfirst)].
    + left. split; [done|]. split; [done|].
      intros τ Hτ. destruct (decide (τ = k)) as [->|?]; [done|]. apply Hnone. lia.
    + right. split; [lia|]. split; [done|]. split; [done|]. split; [|done].
      intros τ Hτ. destruct (decide (τ = k)) as [->|?]; [done|]. apply Hmax. lia.
Qed.

Lemma pitch_scan_spec x min_period max_period :
  1 ≤ min_period →
  ∃ st, pitch_scan x min_period max_period = Some st ∧
        scan_inv x min_period
          (Z.max min_period (Z.min (max_period + 1) (vsize x))) st.
Proof.
  intros Hlo. unfold pitch_scan. destruct (Z.ltb_spec min_period 0); [lia|].
  loop_inv_max (scan_inv x min_period) as st Hst HP.
  - left. simpl. split; [done|]. split; [done|]. intros; lia.
  - intros k [mx best] Hk Hinv.
    rewrite autocorrelation_sum by lia. simpl.
    exists (if fgt (autocorr_sum x k) mx then (autocorr_sum x k, k) else (mx, best)).
    split; [by destruct (fgt _ _)|]. apply scan_inv_step; [lia|done].
  - exists st. done.
Qed.

(** C8 (as amended).  For every frame [x] and sample rate whose smallest
    lag [⌊sr/maxHz⌋] is at least 1, [calculatePitch] returns [sr/τ*] where
    [τ*] is the lag in [[⌊sr/maxHz⌋, ⌊sr/minHz⌋]] with [τ* < L] that
    maximises [R(τ) = Σᵢ x[i]·x[i+τ]] (the sum taken in binary64), the
    smallest such lag on ties; it returns [0.0] when no lag of the range has
    a strictly positive autocorrelation. *)
Theorem calculatePitch_spec x sample_rate min_freq max_freq min_period max_period :
  double_to_int (sample_rate / max_freq)%float = Some min_period →
  double_to_int (sample_rate / min_freq)%float = Some max_period →
  1 ≤ min_period →
  let R := autocorr_sum x in
  let in_range τ := min_period ≤ τ ≤ max_period ∧ τ < vsize x in
  (calculatePitch x sample_rate min_freq max_freq = Some 0%float ∧
   ∀ τ, in_range τ → (0 <? R τ)%float = false) ∨
  (∃ best,
     calculatePitch x sample_rate min_freq max_freq
       = Some (sample_rate / double_of_int best)%float ∧
     in_range best ∧ (0 <? R best)%float = true ∧
     (∀ τ, in_range τ → (R best <? R τ)%float = false) ∧
     (∀ τ, in_range τ → τ < best → (R best <=? R τ)%float = false)).
Proof.
  intros Hmin Hmax Hlo R in_range. unfold calculatePitch.
  rewrite Hmin, Hmax. simpl.
  destruct (pitch_scan_spec x min_period max_period Hlo) as ([mx best] & -> & Hinv).
  simpl. unfold scan_inv in Hinv. simpl in Hinv. fold R in Hinv.
  destruct Hinv as [(-> & -> & Hnone)|(Hb & -> & Hpos & Hbest & Hfirst)].
  - left. split; [done|]. intros τ [Hτ1 Hτ2]. apply Hnone. lia.
  - right. exists best. destruct (Z.ltb_spec 0 best); [|lia].
    split; [done|]. split; [unfold in_range; lia|]. split; [done|]. split.
    + intros τ [Hτ1 Hτ2]. apply Hbest. lia.
    + intros τ [Hτ1 Hτ2] Hlt. apply Hfirst. lia.
Qed.

(** Witness of C8: a frame of period 2 sampled at 8 Hz, searched between
    1 Hz and 4 Hz. *)
Lemma calculatePitch_spec_witness :
  double_to_int (8 / 4)%float = Some 2 ∧ double_to_int (8 / 1)%float = Some 8 ∧ 1 ≤ 2 ∧
  calculatePitch [1; 0; 1; 0; 1; 0; 1; 0]%float 8 1 4 = Some 4%float.
Proof.
  assert (double_to_int (8 / 4)%float = Some 2) as Hmin by (vm_compute; reflexivity).
  assert (double_to_int (8 / 1)%float = Some 8) as Hmax by (vm_compute; reflexivity).
  assert (1 ≤ 2) as Hlo by lia.
  split; [exact Hmin|]. split; [exact Hmax|]. split; [exact Hlo|].
  destruct (calculatePitch_spec [1; 0; 1; 0; 1; 0; 1; 0]%float 8 1 4 2 8 Hmin Hmax Hlo)
    as [[E _]|(best & E & _)]; vm_compute; reflexivity.
Defined.

(** Counterexample to C8 as stated.  At a sample rate of 100 Hz the range
    of lags of the default band (80 Hz to 400 Hz) is [[0, 1]].  On the frame
    [[1; 1]] the lag 0 has the largest autocorrelation, [R(0) = 2 > 0], and
    the lag 1 has [R(1) = 1 > 0]; the function returns [0.0]. *)
Lemma calculatePitch_counterexample :
  double_to_int (100 / 400)%float = Some 0 ∧
  double_to_int (100 / 80)%float = Some 1 ∧
  autocorr_sum [1; 1]%float 0 = 2%float ∧
  autocorr_sum [1; 1]%float 1 = 1%float ∧
  calculatePitch [1; 1]%float 100 80 400 = Some 0%float.
Proof. vm_compute. repeat split. Qed.

(** ** Bounds of the accesses of [extractMFCC] *)

Section AudioBounds.
Context `{Cmath}.

Lemma pre_emphasis_total (x : list double) :
  ∃ y, pre_emphasis x = Some y ∧ vsize y = vsize x.
Proof.
  unfold pre_emphasis. destruct (Z_le_gt_dec (vsize x) 0).
  { exists x. by rewrite for_down_empty by lia. }
  loop_inv (λ (_ : Z) (f : list double), vsize f = vsize x) as y Hy HP; [lia|done| |by eauto].
  intros k f Hk Hs.
  destruct (vget_is_Some f k) as [a ->]; [lia|].
  destruct (vget_is_Some f (k - 1)) as [b ->]; [lia|]. simpl.
  rewrite vset_ok by lia. eexists. split; [done|]. by rewrite vsize_insert.
Qed.

Lemma hamming_window_total length :
  0 ≤ length → ∃ w, hamming_window length = Some w ∧ vsize w = length.
Proof.
  intros Hl. unfold hamming_window, valloc. destruct (Z.leb_spec 0 length); [|lia]. simpl.
  loop_inv (λ (_ : Z) (w : list double), vsize w = length) as w Hw HP; [done| | |].
  - by apply vsize_vmake.
  - intros i w Hi Hs. rewrite vset_ok by lia. eexists. split; [done|].
    by rewrite vsize_insert.
  - eauto.
Qed.

Lemma apply_window_total frame window frame_length :
  vsize window = frame_length →
  ∃ frame', apply_window frame window frame_length = Some frame' ∧
            vsize frame' = vsize frame.
Proof.
  intros Hw. unfold apply_window.
  loop_inv_max (λ (_ : Z) (f : list double), vsize f = vsize frame) as f Hf HP.
  - done.
  - intros i f Hi Hs.
    destruct (vget_is_Some f i) as [a ->]; [lia|].
    destruct (vget_is_Some window i) as [w ->]; [lia|]. simpl.
    rewrite vset_ok by lia. eexists. split; [done|]. by rewrite vsize_insert.
  - eauto.
Qed.

Lemma dft_total signal :
  ∃ spectrum, dft signal = Some spectrum ∧ vsize spectrum = vsize signal ÷ 2 + 1.
Proof.
  unfold dft. assert (0 ≤ vsize signal) as HN by apply Zle_0_nat.
  assert (0 ≤ vsize signal ÷ 2) as HN2 by (apply Z.quot_pos; lia).
  loop_inv (λ (_ : Z) (mg : list double), vsize mg = vsize signal ÷ 2 + 1) as mg Hmg HP;
    [lia| | |].
  - apply vsize_vmake. lia.
  - intros k mg Hk Hs. unfold dft_bin.
    loop_inv (λ (_ : Z) (_ : double * double), True) as ri Hri HT; [done|done| |].
    + intros n [re im] Hn _. destruct (vget_is_Some signal n) as [x ->]; [lia|].
      simpl. eauto.
    + destruct ri as [re im]. simpl. rewrite vset_ok by lia. eexists. split; [done|].
      by rewrite vsize_insert.
  - eauto.
Qed.

Lemma bin_points_size nfft sample_rate bins :
  bin_points nfft sample_rate = Some bins → vsize bins = NUM_MEL_FILTERS + 2.
Proof.
  unfold bin_points. destruct (mel_points sample_rate) as [mp|]; [|done]. simpl.
  intros E.
  apply (for_range_post (λ (_ : Z) (b : list Z), vsize b = NUM_MEL_FILTERS + 2)) in E;
    [done|done|by apply vsize_vmake|].
  intros i b b' Hi Hs Hb.
  destruct (vget mp i) as [x|]; [|done]. simpl in Hb.
  destruct (double_to_int _) as [z|]; [|done]. simpl in Hb.
  apply vset_Some in Hb as [_ ->]. by rewrite vsize_insert.
Qed.

(** With the bin indices inside the rows, the filterbank is built without
    fault: 26 rows of [nfft/2 + 1] cells. *)
Lemma create_mel_filterbank_total nfft sample_rate bins :
  0 ≤ nfft →
  bin_points nfft sample_rate = Some bins →
  Forall (λ b, 0 ≤ b ≤ nfft ÷ 2 + 1) bins →
  ∃ fb, create_mel_filterbank nfft sample_rate = Some fb ∧
        mshape NUM_MEL_FILTERS (nfft ÷ 2 + 1) fb.
Proof.
  intros Hn Hbins Hrange. unfold create_mel_filterbank, valloc.
  assert (0 ≤ nfft ÷ 2) as HN2 by (apply Z.quot_pos; lia).
  destruct (Z.leb_spec 0 (nfft ÷ 2 + 1)); [|lia]. simpl. rewrite Hbins. simpl.
  pose proof (bin_points_size _ _ _ Hbins) as Hsize.
  assert (∀ i, 0 ≤ i < NUM_MEL_FILTERS + 2 →
               ∃ b, vget bins i = Some b ∧ 0 ≤ b ≤ nfft ÷ 2 + 1) as Hget.
  { intros i Hi. destruct (vget_is_Some bins i) as [b Hb]; [lia|].
    exists b. split; [done|]. apply vget_Some in Hb as [_ Hb].
    rewrite Forall_forall in Hrange. apply Hrange. by eapply list_elem_of_lookup_2. }
  set (Sh := λ (_ : Z) (fb : list (list double)), mshape NUM_MEL_FILTERS (nfft ÷ 2 + 1) fb).
  loop_inv Sh as fb Hfb HP; [done| | |by eauto].
  - apply mshape_vmake; [done|lia].
  - intros m fb Hm Hsh. unfold NUM_MEL_FILTERS in *.
    destruct (Hget (m - 1)) as (fm1 & -> & Hfm1); [lia|].
    destruct (Hget m) as (fm & -> & Hfm); [lia|].
    destruct (Hget (m + 1)) as (fm2 & -> & Hfm2); [lia|]. simpl.
    loop_inv_max Sh as fb1 Hfb1 HP1; [done| |].
    { intros k fb' Hk Hsh'.
      destruct (vset2_spec _ _ _ (m - 1) k
                  (double_of_int (k - fm1) / double_of_int (fm - fm1))%float Hsh')
        as (fb'' & -> & ? & _); [unfold NUM_MEL_FILTERS; lia|lia|]. eauto. }
    simpl.
    loop_inv_max Sh as fb2 Hfb2 HP2; [done| |by eauto].
    intros k fb' Hk Hsh'.
    destruct (vset2_spec _ _ _ (m - 1) k
                (double_of_int (fm2 - k) / double_of_int (fm2 - fm))%float Hsh')
      as (fb'' & -> & ? & _); [unfold NUM_MEL_FILTERS; lia|lia|]. eauto.
Qed.

Lemma dct_total signal num_coeffs :
  0 ≤ num_coeffs → is_Some (dct signal num_coeffs).
Proof.
  intros Hc. unfold dct, valloc. destruct (Z.leb_spec 0 num_coeffs); [|lia]. simpl.
  loop_inv (λ (_ : Z) (c : list double), vsize c = num_coeffs) as c Hcf HP; [done| | |done].
  - by apply vsize_vmake.
  - intros k c Hk Hs.
    loop_inv (λ (_ : Z) (_ : double), True) as sum Hsum HT;
      [apply Zle_0_nat|done| |].
    + intros n sum Hn _. destruct (vget_is_Some signal n) as [x ->]; [lia|].
      simpl. eauto.
    + simpl. rewrite vset_ok by lia. eexists. split; [done|]. by rewrite vsize_insert.
Qed.

(** The accumulation loop stays inside the rows of the filterbank exactly
    when the spectrum is not longer than a row. *)
Lemma mel_accumulate_total spectrum (filterbank : list (list double)) c :
  mshape NUM_MEL_FILTERS c filterbank → vsize spectrum ≤ c →
  is_Some (mel_accumulate spectrum filterbank).
Proof.
  intros Hsh Hlen. unfold mel_accumulate.
  set (Sz := λ (_ : Z) (me : list double), vsize me = NUM_MEL_FILTERS).
  loop_inv Sz as me Hme HP; [done| | |done].
  - by apply vsize_vmake.
  - intros i me Hi Hs.
    loop_inv Sz as me1 Hme1 HP1; [apply Zle_0_nat|done| |].
    + intros j me' Hj Hs'.
      destruct (vget_is_Some me' i) as [e ->]; [unfold Sz in Hs'; lia|].
      destruct (vget_is_Some spectrum j) as [sp ->]; [lia|]. simpl.
      destruct (vget2_is_Some _ _ _ i j Hsh) as [f ->]; [lia|lia|]. simpl.
      rewrite vset_ok by (unfold Sz in Hs'; lia). eexists. split; [done|].
      unfold Sz. by rewrite vsize_insert.
    + simpl. destruct (vget_is_Some me1 i) as [e ->]; [unfold Sz in HP1; lia|]. simpl.
      rewrite vset_ok by (unfold Sz in HP1; lia). eexists. split; [done|].
      unfold Sz. by rewrite vsize_insert.
Qed.

Lemma mel_accumulate_fault spectrum (filterbank : list (list double)) c :
  mshape NUM_MEL_FILTERS c filterbank → 0 ≤ c < vsize spectrum →
  mel_accumulate spectrum filterbank = None.
Proof.
  intros Hsh Hlen. unfold mel_accumulate.
  apply (for_range_None (λ (_ : Z) (me : list double), vsize me = NUM_MEL_FILTERS)
           _ 0 NUM_MEL_FILTERS 0); [done|by apply vsize_vmake|intros; lia|].
  intros me Hs.
  rewrite (for_range_None (λ (_ : Z) (me' : list double), vsize me' = NUM_MEL_FILTERS)
             _ 0 (vsize spectrum) c me); [done|lia|done| |].
  - intros j me' Hj Hs'.
    destruct (vget_is_Some me' 0) as [e ->]; [rewrite Hs'; done|].
    destruct (vget_is_Some spectrum j) as [sp ->]; [lia|]. simpl.
    destruct (vget2_is_Some _ _ _ 0 j Hsh) as [f ->]; [done|lia|]. simpl.
    rewrite vset_ok by (rewrite Hs'; done). eexists. split; [done|].
    by rewrite vsize_insert.
  - intros me' Hs'.
    destruct (vget_is_Some me' 0) as [e ->]; [rewrite Hs'; done|].
    destruct (vget_is_Some spectrum c) as [sp ->]; [lia|]. simpl.
    unfold vget2. destruct (vget filterbank 0) as [row|] eqn:Er; [|done]. simpl.
    rewrite vget_None_ge; [done|]. destruct Hsh as [_ Hc]. rewrite (Hc 0 row Er). lia.
Qed.


(** C9 (as amended).  Let the mel bin indices computed for [frame_length]
    lie inside a filterbank row (between 0 and [frame_length/2 + 1]), and let
    [frame_length] and [num_coeffs] be non-negative.  Then [extractMFCC]
    performs only in-bounds accesses whenever
    [frame.size()/2 <= frame_length/2], in particular whenever the length of
    the input frame equals [frame_length]; and whenever
    [frame.size()/2 > frame_length/2] all stages up to the filterbank run
    without fault and the accumulation loop indexes a filterbank row (of
    length [frame_length/2 + 1]) past its end. *)
Theorem extractMFCC_bounds audio_frame frame_length num_coeffs bins :
  0 ≤ frame_length → 0 ≤ num_coeffs →
  bin_points frame_length SAMPLE_RATE = Some bins →
  Forall (λ b, 0 ≤ b ≤ frame_length ÷ 2 + 1) bins →
  (vsize audio_frame = frame_length →
   is_Some (extractMFCC audio_frame frame_length num_coeffs)) ∧
  (vsize audio_frame ÷ 2 ≤ frame_length ÷ 2 →
   is_Some (extractMFCC audio_frame frame_length num_coeffs)) ∧
  (frame_length ÷ 2 < vsize audio_frame ÷ 2 →
   ∃ frame window frame' spectrum filterbank,
     pre_emphasis audio_frame = Some frame ∧
     hamming_window frame_length = Some window ∧
     apply_window frame window frame_length = Some frame' ∧
     dft frame' = Some spectrum ∧
     create_mel_filterbank frame_length SAMPLE_RATE = Some filterbank ∧
     vsize spectrum = vsize audio_frame ÷ 2 + 1 ∧
     mshape NUM_MEL_FILTERS (frame_length ÷ 2 + 1) filterbank ∧
     mel_accumulate spectrum filterbank = None ∧
     extractMFCC audio_frame frame_length num_coeffs = None).
Proof.
  intros HL Hc Hbins Hrange.
  destruct (pre_emphasis_total audio_frame) as (frame & Hpre & Hsz).
  destruct (hamming_window_total frame_length HL) as (window & Hwin & Hwsz).
  destruct (apply_window_total frame window frame_length Hwsz) as (frame' & Happ & Hsz').
  destruct (dft_total frame') as (spectrum & Hdft & Hspec).
  rewrite Hsz', Hsz in Hspec.
  destruct (create_mel_filterbank_total frame_length SAMPLE_RATE bins HL Hbins Hrange)
    as (fb & Hfb & Hsh).
  assert (vsize audio_frame ÷ 2 ≤ frame_length ÷ 2 →
          is_Some (extractMFCC audio_frame frame_length num_coeffs)) as Hok.
  { intros Hle. unfold extractMFCC. rewrite Hpre. simpl. rewrite Hwin. simpl.
    rewrite Happ. simpl. rewrite Hdft. simpl. rewrite Hfb. simpl.
    destruct (mel_accumulate_total spectrum fb (frame_length ÷ 2 + 1) Hsh) as [me ->];
      [lia|].
    simpl. by apply dct_total. }
  split; [|split].
  - intros E. apply Hok. rewrite E. lia.
  - done.
  - intros Hgt. exists frame, window, frame', spectrum, fb.
    assert (0 ≤ frame_length ÷ 2) as HL2 by (apply Z.quot_pos; lia).
    assert (mel_accumulate spectrum fb = None) as Hacc.
    { apply (mel_accumulate_fault spectrum fb (frame_length ÷ 2 + 1) Hsh). lia. }
    repeat (split; [done|]).
    unfold extractMFCC. rewrite Hpre. simpl. rewrite Hwin. simpl.
    rewrite Happ. simpl. rewrite Hdft. simpl. rewrite Hfb. simpl. by rewrite Hacc.
Qed.

End AudioBounds.

(** Witness of C9: a frame of four samples with [frame_length = 4], under
    the reference library. *)
Lemma extractMFCC_bounds_witness :
  let bins := [0; 0; 0; 0; 0; 0; 0; 0; 0; 0; 0; 0; 0; 0; 0; 0; 0; 0; 0; 0; 0;
               1; 1; 1; 1; 1; 2; 2] in
  0 ≤ 4 ∧ 0 ≤ 13 ∧
  @bin_points RefCmath.cmath 4 SAMPLE_RATE = Some bins ∧
  Forall (λ b, 0 ≤ b ≤ 4 ÷ 2 + 1) bins ∧
  is_Some (@extractMFCC RefCmath.cmath [1; 1; 1; 1]%float 4 13).
Proof.
  intros bins.
  assert (0 ≤ 4) as HL by lia. assert (0 ≤ 13) as Hc by lia.
  assert (@bin_points RefCmath.cmath 4 SAMPLE_RATE = Some bins) as Hbins
    by (vm_compute; reflexivity).
  assert (Forall (λ b, 0 ≤ b ≤ 4 ÷ 2 + 1) bins) as Hrange
    by (repeat constructor; vm_compute; congruence).
  split; [exact HL|]. split; [exact Hc|]. split; [exact Hbins|]. split; [exact Hrange|].
  destruct (@extractMFCC_bounds RefCmath.cmath [1; 1; 1; 1]%float 4 13 bins
              HL Hc Hbins Hrange) as (Heq & _ & _).
  apply Heq. reflexivity.
Defined.

(** Counterexample to C9 as stated.  A frame of five samples is longer than
    [frame_length = 4], but its spectrum has [5/2 + 1 = 3] bins, the length
    of a filterbank row ([4/2 + 1 = 3]): the accumulation loop indexes the
    rows at positions 0 to 2 and [extractMFCC] runs without any access
    outside a vector.  With six samples the loop does leave the row. *)
Lemma extractMFCC_longer_frame_in_bounds :
  vsize [1; 1; 1; 1; 1]%float = 5 ∧ 4 < 5 ∧ 5 ÷ 2 + 1 = 4 ÷ 2 + 1 ∧
  is_Some (@extractMFCC RefCmath.cmath [1; 1; 1; 1; 1]%float 4 13) ∧
  @extractMFCC RefCmath.cmath [1; 1; 1; 1; 1; 1]%float 4 13 = None.
Proof.
  split; [reflexivity|]. split; [lia|]. split; [reflexivity|]. split.
  - vm_compute. eauto.
  - vm_compute. reflexivity.
Qed.

(** * Part III: further properties of the code *)

(** ** The warping path of [computeDTW] *)

(** One step of a warping path: diagonal, down or right. *)
Definition path_step (p q : Z * Z) : Prop :=
  q = (p.1 + 1, p.2 + 1) ∨ q = (p.1 + 1, p.2) ∨ q = (p.1, p.2 + 1).

(** The trail the backtracking loop leaves from [(i, j)]: it starts at
    [(i, j)], every point is one step after the next one, and the point after
    the last one is [(0, 0)]. *)
Fixpoint trail (i j : Z) (l : list (Z * Z)) : Prop :=
  match l with
  | [] => i = 0 ∧ j = 0
  | p :: l =>
      p = (i, j) ∧
      ∃ i' j', 0 ≤ i' ∧ 0 ≤ j' ∧ path_step (i', j') (i, j) ∧ trail i' j' l
  end.

Lemma backtrack_loop_trail (C : list (list double)) fuel :
  ∀ i j acc out, 0 ≤ i → 0 ≤ j →
    backtrack_loop fuel C i j acc = Some out → ∃ l, out = acc ++ l ∧ trail i j l.
Proof.
  induction fuel as [|fuel IH]; intros i j acc out Hi Hj.
  - simpl. destruct (Z.ltb_spec 0 i); [done|]. destruct (Z.ltb_spec 0 j); [done|].
    simpl. intros [= <-]. exists []. rewrite app_nil_r. split; [done|]. simpl. lia.
  - cbn [backtrack_loop]. destruct ((0 <? i) || (0 <? j)) eqn:Hc.
    + assert (∀ i' j', 0 ≤ i' → 0 ≤ j' → path_step (i', j') (i, j) →
                backtrack_loop fuel C i' j' (acc ++ [(i, j)]) = Some out →
                ∃ l, out = acc ++ l ∧ trail i j l) as Hstep.
      { intros i' j' Hi' Hj' Hs E. destruct (IH _ _ _ _ Hi' Hj' E) as (l & -> & Hl).
        exists ((i, j) :: l). rewrite <- app_assoc. split; [done|]. simpl.
        split; [done|]. exists i', j'. done. }
      destruct (Z.eqb_spec i 0) as [->|Hi0].
      { apply Hstep; [lia|simpl in Hc; lia|]. right. right. simpl. f_equal. lia. }
      destruct (Z.eqb_spec j 0) as [->|Hj0].
      { apply Hstep; [lia|lia|]. right. left. simpl. f_equal. lia. }
      destruct (vget2 C (i - 1) (j - 1)) as [diag|]; [|done].
      destruct (vget2 C (i - 1) j) as [up|]; [|done].
      destruct (vget2 C i (j - 1)) as [left|]; [|done]. simpl.
      destruct (_ && _).
      { apply Hstep; [lia|lia|]. left. simpl. f_equal; lia. }
      destruct (up <=? left)%float.
      { apply Hstep; [lia|lia|]. right. left. simpl. f_equal. lia. }
      apply Hstep; [lia|lia|]. right. right. simpl. f_equal. lia.
    + intros [= <-]. exists []. rewrite app_nil_r. split; [done|]. simpl.
      apply orb_false_elim in Hc as [H1 H2]. lia.
Qed.

(** What a trail says of the list of points, closed by [(0, 0)]. *)
Lemma trail_spec l :
  ∀ i j, 0 ≤ i → 0 ≤ j → trail i j l →
    let D := l ++ [(0, 0)] in
    head D = Some (i, j) ∧ last D = Some (0, 0) ∧
    (∀ (k : nat) p q, D !! k = Some q → D !! Datatypes.S k = Some p → path_step p q) ∧
    (∀ p, p ∈ D → 0 ≤ p.1 ≤ i ∧ 0 ≤ p.2 ≤ j) ∧
    Z.max i j + 1 ≤ Z.of_nat (length D) ≤ i + j + 1.
Proof.
  induction l as [|p l IH]; intros i j Hi Hj Ht; simpl in Ht.
  - destruct Ht as [-> ->]. simpl. split; [done|]. split; [done|].
    split; [|split; [|lia]].
    + intros [|k] p q; simpl; intros; done.
    + intros p ->%list_elem_of_singleton. simpl. lia.
  - destruct Ht as (-> & i' & j' & Hi' & Hj' & Hs & Ht).
    destruct (IH i' j' Hi' Hj' Ht) as (Hh & Hl & Hst & Hin & Hlen).
    assert (i' ≤ i ∧ j' ≤ j ∧ i + j - 2 ≤ i' + j' ≤ i + j - 1 ∧
            Z.max i j - 1 ≤ Z.max i' j') as Hb.
    { destruct Hs as [E|[E|E]]; simpl in E; injection E as -> ->; lia. }
    simpl. split; [done|]. split.
    { rewrite last_cons. by rewrite Hl. }
    split; [|split].
    + intros [|k] p q; simpl.
      * intros [= <-] Hp. rewrite <- head_lookup, Hh in Hp. by injection Hp as <-.
      * apply Hst.
    + intros p [->|Hp]%elem_of_cons; [simpl; lia|].
      destruct (Hin p Hp). lia.
    + rewrite length_app in *. simpl in *. lia.
Qed.

(** A path the backtracking returns is a warping path of the [n × m]
    matrix. *)
Definition warping_path (n m : Z) (p : list (Z * Z)) : Prop :=
  head p = Some (0, 0) ∧ last p = Some (n - 1, m - 1) ∧
  (∀ (k : nat) a b, p !! k = Some a → p !! Datatypes.S k = Some b → path_step a b) ∧
  (∀ a, a ∈ p → 0 ≤ a.1 < n ∧ 0 ≤ a.2 < m) ∧
  Z.max n m ≤ Z.of_nat (length p) ≤ n + m - 1.

Lemma backtrack_warping_path (C : list (list double)) n m p :
  0 < n → 0 < m → backtrack C n m = Some p → warping_path n m p.
Proof.
  intros Hn Hm. unfold backtrack.
  destruct (backtrack_loop _ C (n - 1) (m - 1) []) as [out|] eqn:E; [|done].
  simpl. intros [= <-].
  apply backtrack_loop_trail in E as (l & -> & Ht); [|lia|lia]. simpl.
  destruct (trail_spec l (n - 1) (m - 1)) as (Hh & Hl & Hst & Hin & Hlen); [lia|lia|done|].
  simpl in *. set (D := l ++ [(0, 0)]) in *.
  split; [by rewrite head_reverse|]. split; [by rewrite last_reverse|].
  split; [|split].
  - intros k a b Ha Hb.
    apply reverse_lookup_Some in Ha as [Ha Hka]. apply reverse_lookup_Some in Hb as [Hb Hkb].
    apply (Hst (length D - Datatypes.S (Datatypes.S k))%nat); [done|].
    replace (Datatypes.S (length D - Datatypes.S (Datatypes.S k)))
      with (length D - Datatypes.S k)%nat by lia. done.
  - intros a Ha. rewrite elem_of_reverse in Ha. destruct (Hin a Ha). lia.
  - rewrite length_reverse. lia.
Qed.

(** X1.  For every pair of non-empty sequences, every band width and every
    metric, [computeDTW] returns; and when the distance is not [+∞] the path
    it returns is a warping path: it starts at [(0, 0)], ends at
    [(n-1, m-1)], advances at every step by [(1, 1)], [(1, 0)] or [(0, 1)],
    stays inside the matrix, and has between [max(n, m)] and [n + m - 1]
    points. *)
Theorem computeDTW_warping_path sequence1 sequence2 band_width metric :
  0 < vsize sequence1 → 0 < vsize sequence2 →
  ∃ r, computeDTW sequence1 sequence2 band_width metric true = Some r ∧
       (fne (distance r) infinity = true →
        warping_path (vsize sequence1) (vsize sequence2) (path r)).
Proof.
  intros Hn Hm.
  destruct (computeDTW_nonempty sequence1 sequence2 band_width metric true Hn Hm)
    as (C & dist & r & _ & _ & _ & Hr & Hd & _ & Hpath).
  exists r. split; [done|]. rewrite Hd. intros Hne. rewrite Hne in Hpath. simpl in Hpath.
  by apply (backtrack_warping_path C).
Qed.

(** Witness of X1: three frames against two. *)
Lemma computeDTW_warping_path_witness :
  0 < vsize [[0]; [1]; [3]]%float ∧ 0 < vsize [[0]; [3]]%float ∧
  ∃ r, computeDTW [[0]; [1]; [3]]%float [[0]; [3]]%float (-1) EUCLIDEAN true = Some r ∧
       path r = [(0, 0); (1, 0); (2, 1)] ∧ warping_path 3 2 (path r).
Proof.
  assert (0 < vsize [[0]; [1]; [3]]%float) as Hn by (vm_compute; reflexivity).
  assert (0 < vsize [[0]; [3]]%float) as Hm by (vm_compute; reflexivity).
  split; [exact Hn|]. split; [exact Hm|].
  destruct (computeDTW_warping_path [[0]; [1]; [3]]%float [[0]; [3]]%float (-1)
              EUCLIDEAN Hn Hm) as (r & Hr & Hw).
  exists r. split; [exact Hr|].
  vm_compute in Hr. injection Hr as <-.
  split; [reflexivity|]. apply Hw. reflexivity.
Defined.

(** ** Distance and path of [computeDTW] *)

Lemma computeDTW_empty sequence1 sequence2 band_width metric return_path :
  vsize sequence1 = 0 ∨ vsize sequence2 = 0 →
  computeDTW sequence1 sequence2 band_width metric return_path
    = Some (mkDTWResult infinity [] []).
Proof.
  intros Hz. unfold computeDTW.
  destruct (Z.eqb_spec (vsize sequence1) 0); [done|].
  destruct (Z.eqb_spec (vsize sequence2) 0); [done|]. lia.
Qed.

Lemma vsize_nonneg {A} (v : list A) : 0 ≤ vsize v.
Proof. apply Zle_0_nat. Qed.

Lemma vsize_0_or_pos {A} (v w : list A) :
  (vsize v = 0 ∨ vsize w = 0) ∨ (0 < vsize v ∧ 0 < vsize w).
Proof. pose proof (vsize_nonneg v). pose proof (vsize_nonneg w). lia. Qed.

(** X2.  Asking for the path changes neither the distance nor the cost
    matrix [computeDTW] returns, whatever the sequences, the band width and
    the metric; without the path the result carries an empty one.  So
    [dtw_distance] and [dtw_align] always return, with the same distance and
    the same normalised distance. *)
Theorem dtw_distance_agrees_with_dtw_align seq1 seq2 band_width :
  (∀ metric, ∃ r r',
      computeDTW seq1 seq2 band_width metric true = Some r ∧
      computeDTW seq1 seq2 band_width metric false = Some r' ∧
      distance r' = distance r ∧ cost_matrix r' = cost_matrix r ∧ path r' = []) ∧
  ∃ a d, dtw_align seq1 seq2 band_width = Some a ∧
         dtw_distance seq1 seq2 band_width = Some d ∧
         dist_distance d = align_distance a ∧
         dist_normalized_distance d = align_normalized_distance a.
Proof.
  assert (∀ metric, ∃ r r',
      computeDTW seq1 seq2 band_width metric true = Some r ∧
      computeDTW seq1 seq2 band_width metric false = Some r' ∧
      distance r' = distance r ∧ cost_matrix r' = cost_matrix r ∧ path r' = []) as Hflag.
  { intros metric. destruct (vsize_0_or_pos seq1 seq2) as [Hz|[Hn Hm]].
    - rewrite !computeDTW_empty by done. eauto 10.
    - destruct (computeDTW_nonempty seq1 seq2 band_width metric true Hn Hm)
        as (C & dist & r & HC & _ & Hdist & Hr & Hd & Hc & _).
      destruct (computeDTW_nonempty seq1 seq2 band_width metric false Hn Hm)
        as (C' & dist' & r' & HC' & _ & Hdist' & Hr' & Hd' & Hc' & Hpath').
      rewrite HC in HC'. injection HC' as <-.
      rewrite Hdist in Hdist'. injection Hdist' as <-.
      exists r, r'. simpl in Hpath'. repeat (split; [congruence|]). done. }
  split; [done|].
  destruct (Hflag EUCLIDEAN) as (r & r' & Hr & Hr' & Hd & _).
  unfold dtw_align, dtw_distance. rewrite Hr, Hr'. simpl.
  eexists _, _. split; [done|]. split; [done|]. simpl. by rewrite Hd.
Qed.

(** ** Signs *)

Lemma local_dist_nonneg sequence1 sequence2 bw i j :
  (∀ k v, vget sequence1 k = Some v → finite_vec v) →
  (∀ k v, vget sequence2 k = Some v → finite_vec v) →
  nonneg (local_dist sequence1 sequence2 bw EUCLIDEAN i j).
Proof.
  intros Hf1 Hf2. unfold local_dist.
  destruct (Z.abs (i - j) <=? bw); [|apply nonneg_infinity].
  destruct (vget sequence1 i) as [a|] eqn:Ea; [|apply nonneg_infinity]. simpl.
  destruct (vget sequence2 j) as [b|] eqn:Eb; [|apply nonneg_infinity]. simpl.
  destruct (calculateDistance a b EUCLIDEAN) as [x|] eqn:Ex; [|apply nonneg_infinity].
  simpl. apply (euclidean_nonneg a b); eauto.
Qed.

(** X3.  On sequences of vectors with finite components, whatever their
    lengths and the band width, the Euclidean DTW never produces a negative
    number or a NaN: the distance and every cell of the cost matrix compare
    [>= 0] (they may be [+∞]). *)
Theorem computeDTW_nonneg seq1 seq2 band_width return_path :
  (∀ k v, vget seq1 k = Some v → finite_vec v) →
  (∀ k v, vget seq2 k = Some v → finite_vec v) →
  ∃ r, computeDTW seq1 seq2 band_width EUCLIDEAN return_path = Some r ∧
       nonneg (distance r) ∧
       ∀ i j c, vget2 (cost_matrix r) i j = Some c → nonneg c.
Proof.
  intros Hf1 Hf2. destruct (vsize_0_or_pos seq1 seq2) as [Hz|[Hn Hm]].
  { rewrite computeDTW_empty by done. eexists. split; [done|]. simpl.
    split; [apply nonneg_infinity|]. intros i j c. unfold vget2, vget.
    destruct (0 <=? i); simpl; done. }
  destruct (computeDTW_nonempty seq1 seq2 band_width EUCLIDEAN return_path Hn Hm)
    as (C & dist & r & HC & Hsh & Hdist & Hr & Hd & Hc & _).
  set (bw := effective_band (vsize seq1) (vsize seq2) band_width) in *.
  destruct (fill_cost_matrix_spec seq1 seq2 bw EUCLIDEAN Hn Hm)
    as (C' & HC' & _ & Hspec); [by apply effective_band_pos|].
  rewrite HC in HC'. injection HC' as <-.
  assert (∀ i j c, 0 ≤ i < vsize seq1 → 0 ≤ j < vsize seq2 →
                   vget2 C i j = Some c → nonneg c) as Hcells.
  { apply (cells_nonneg (local_dist seq1 seq2 bw EUCLIDEAN) _ _ bw); [|done].
    intros. by apply local_dist_nonneg. }
  exists r. split; [done|]. rewrite Hd, Hc. split.
  - apply (Hcells (vsize seq1 - 1) (vsize seq2 - 1)); [lia|lia|done].
  - intros i j c Hget. apply (Hcells i j); [| |done].
    + unfold vget2 in Hget. destruct (vget C i) as [row|] eqn:Er; [|done].
      apply vget_lt in Er. destruct Hsh as [<- _]. done.
    + unfold vget2 in Hget. destruct (vget C i) as [row|] eqn:Er; [|done].
      simpl in Hget. apply vget_lt in Hget. destruct Hsh as [_ Hcol].
      by rewrite <- (Hcol i row Er).
Qed.

(** Witness of X3: scenario S4 against a shifted copy. *)
Lemma computeDTW_nonneg_witness :
  finite_seqb s4_seq = true ∧ finite_seqb [[1; 0]; [2; 5]]%float = true ∧
  ∃ r, computeDTW s4_seq [[1; 0]; [2; 5]]%float 1 EUCLIDEAN false = Some r ∧
       nonneg (distance r).
Proof.
  assert (finite_seqb s4_seq = true) as H1 by (vm_compute; reflexivity).
  assert (finite_seqb [[1; 0]; [2; 5]]%float = true) as H2 by (vm_compute; reflexivity).
  split; [exact H1|]. split; [exact H2|].
  destruct (computeDTW_nonneg s4_seq [[1; 0]; [2; 5]]%float 1 false
              (finite_seqb_correct _ H1) (finite_seqb_correct _ H2)) as (r & Hr & Hd & _).
  exists r. split; [exact Hr|exact Hd].
Defined.

(** ** A band narrower than the difference of the lengths *)

(** X4.  With a band width of at least 1 that is smaller than the
    difference of the two lengths, the corner of the cost matrix lies outside
    the band: [computeDTW] returns the distance [+∞] and no path, for every
    metric, and so does [dtw_align]. *)
Theorem dtw_band_below_length_difference seq1 seq2 band_width :
  1 ≤ band_width → band_width < Z.abs (vsize seq1 - vsize seq2) →
  (∀ metric return_path,
      ∃ r, computeDTW seq1 seq2 band_width metric return_path = Some r ∧
           distance r = infinity ∧ path r = []) ∧
  ∃ res, dtw_align seq1 seq2 band_width = Some res ∧
         align_distance res = infinity ∧ align_path res = [].
Proof.
  intros Hbw Hdiff.
  assert (∀ metric return_path,
      ∃ r, computeDTW seq1 seq2 band_width metric return_path = Some r ∧
           distance r = infinity ∧ path r = []) as Hinf.
  { intros metric return_path. destruct (vsize_0_or_pos seq1 seq2) as [Hz|[Hn Hm]].
    { rewrite computeDTW_empty by done. eauto. }
    destruct (computeDTW_nonempty seq1 seq2 band_width metric return_path Hn Hm)
      as (C & dist & r & HC & Hsh & Hdist & Hr & Hd & Hc & Hpath).
    assert (effective_band (vsize seq1) (vsize seq2) band_width = band_width) as Heff.
    { unfold effective_band. destruct (Z.leb_spec band_width 0); [lia|done]. }
    rewrite Heff in HC.
    destruct (fill_cost_matrix_spec seq1 seq2 band_width metric Hn Hm Hbw)
      as (C' & HC' & _ & Hspec).
    rewrite HC in HC'. injection HC' as <-.
    assert (vget2 C (vsize seq1 - 1) (vsize seq2 - 1) = Some infinity) as Hcorner.
    { apply (cell_spec_out_of_band (local_dist seq1 seq2 band_width metric)
               (vsize seq2) band_width); [lia|lia|done|lia|].
      apply Hspec; lia. }
    rewrite Hcorner in Hdist. injection Hdist as <-.
    exists r. split; [done|]. split; [done|].
    rewrite andb_false_r in Hpath. done. }
  split; [done|].
  destruct (Hinf EUCLIDEAN true) as (r & Hr & Hd & Hp).
  unfold dtw_align. rewrite Hr. simpl. eexists. split; [done|]. simpl. done.
Qed.

(** Witness of X4: four frames against one, band width 2. *)
Lemma dtw_band_below_length_difference_witness :
  1 ≤ 2 ∧ 2 < Z.abs (vsize [[0]; [1]; [2]; [3]]%float - vsize [[0]]%float) ∧
  ∃ res, dtw_align [[0]; [1]; [2]; [3]]%float [[0]]%float 2 = Some res ∧
         align_distance res = infinity ∧ align_path res = [].
Proof.
  assert (1 ≤ 2) as H1 by lia.
  assert (2 < Z.abs (vsize [[0]; [1]; [2]; [3]]%float - vsize [[0]]%float)) as H2
    by (vm_compute; reflexivity).
  split; [exact H1|]. split; [exact H2|].
  exact (proj2 (dtw_band_below_length_difference
                  [[0]; [1]; [2]; [3]]%float [[0]]%float 2 H1 H2)).
Defined.

(** ** A band as wide as the matrix *)

(** Matrices of the same dimensions with the same cells are equal. *)
Lemma vector_ext {A} (v w : list A) :
  vsize v = vsize w → (∀ i, 0 ≤ i < vsize v → vget v i = vget w i) → v = w.
Proof.
  intros Hlen Hget. unfold vsize in Hlen.
  apply list_eq_same_length with (length v); [lia|lia|].
  intros i x y Hi Hx Hy.
  specialize (Hget (Z.of_nat i)). unfold vget, vsize in Hget.
  destruct (Z.leb_spec 0 (Z.of_nat i)); [|lia].
  rewrite Nat2Z.id, Hx, Hy in Hget. assert (Some x = Some y) as [= ->] by (apply Hget; lia).
  done.
Qed.

Lemma matrix_ext {A} r c (M M' : list (list A)) :
  mshape r c M → mshape r c M' →
  (∀ i j, 0 ≤ i < r → 0 ≤ j < c → vget2 M i j = vget2 M' i j) → M = M'.
Proof.
  intros [Hr Hc] [Hr' Hc'] Hcells. apply vector_ext; [lia|].
  intros i Hi.
  destruct (vget_is_Some M i) as [row Hrow]; [done|].
  destruct (vget_is_Some M' i) as [row' Hrow']; [lia|].
  rewrite Hrow, Hrow'. f_equal. apply vector_ext.
  { rewrite (Hc i row Hrow), (Hc' i row' Hrow'). done. }
  intros j Hj. rewrite (Hc i row Hrow) in Hj.
  specialize (Hcells i j). unfold vget2 in Hcells. rewrite Hrow, Hrow' in Hcells.
  apply Hcells; lia.
Qed.

Lemma min_prev_agree (C C' : list (list double)) i j :
  vget2 C (i - 1) (j - 1) = vget2 C' (i - 1) (j - 1) →
  vget2 C (i - 1) j = vget2 C' (i - 1) j →
  vget2 C i (j - 1) = vget2 C' i (j - 1) →
  min_prev C i j = min_prev C' i j.
Proof. intros E1 E2 E3. unfold min_prev. by rewrite E1, E2, E3. Qed.

(** Two matrices filled from the same local distances, under band widths
    that both cover every cell, are equal. *)
Lemma cell_spec_wide_unique d d' n m bw bw' (C C' : list (list double)) :
  mshape n m C → mshape n m C' →
  n - 1 ≤ bw → m - 1 ≤ bw → n - 1 ≤ bw' → m - 1 ≤ bw' →
  (∀ i j, 1 ≤ i < n → 1 ≤ j < m → in_body m bw i j = in_body m bw' i j) →
  (∀ i j, 0 ≤ i < n → 0 ≤ j < m → d i j = d' i j) →
  (∀ i j, 0 ≤ i < n → 0 ≤ j < m → cell_spec d m bw C i j) →
  (∀ i j, 0 ≤ i < n → 0 ≤ j < m → cell_spec d' m bw' C' i j) →
  C = C'.
Proof.
  intros Hsh Hsh' Hn Hm Hn' Hm' Hbody Hd Hspec Hspec'.
  apply (matrix_ext n m); [done|done|].
  assert (∀ k : nat, ∀ i j, 0 ≤ i < n → 0 ≤ j < m → i + j < Z.of_nat k →
                            vget2 C i j = vget2 C' i j) as Hind.
  { induction k as [|k IH]; intros i j Hi Hj Hk; [lia|].
    destruct (Hspec i j Hi Hj) as (c & Hc & Hcell).
    destruct (Hspec' i j Hi Hj) as (c' & Hc' & Hcell').
    rewrite Hc, Hc'. f_equal.
    destruct (Z.eqb_spec i 0) as [->|Hi0].
    - destruct (Z.eqb_spec j 0) as [->|Hj0]; simpl in Hcell, Hcell'.
      + rewrite <- (Hd 0 0) in Hcell' by lia. congruence.
      + destruct (Z.leb_spec j bw); [|lia]. destruct (Z.leb_spec j bw'); [|lia].
        destruct Hcell as (p & Hp & ->), Hcell' as (p' & Hp' & ->).
        rewrite <- (Hd 0 j) by lia.
        rewrite (IH 0 (j - 1)) in Hp by lia. congruence.
    - simpl in Hcell, Hcell'. destruct (Z.eqb_spec j 0) as [->|Hj0].
      + destruct (Z.leb_spec i bw); [|lia]. destruct (Z.leb_spec i bw'); [|lia].
        destruct Hcell as (p & Hp & ->), Hcell' as (p' & Hp' & ->).
        rewrite <- (Hd i 0) by lia.
        rewrite (IH (i - 1) 0) in Hp by lia. congruence.
      + rewrite <- (Hbody i j), <- (Hd i j) in Hcell' by lia.
        destruct (in_body m bw i j && fne (d i j) infinity); [|congruence].
        destruct Hcell as (mp & Hmp & ->), Hcell' as (mp' & Hmp' & ->).
        rewrite (min_prev_agree C C' i j) in Hmp; [congruence| | |]; apply IH; lia. }
  intros i j Hi Hj. apply (Hind (Z.to_nat (i + j + 1))); [done|done|lia].
Qed.

Lemma local_dist_wide sequence1 sequence2 bw bw' metric i j :
  Z.abs (i - j) ≤ bw → Z.abs (i - j) ≤ bw' →
  local_dist sequence1 sequence2 bw metric i j
    = local_dist sequence1 sequence2 bw' metric i j.
Proof.
  intros H1 H2. unfold local_dist.
  destruct (Z.leb_spec (Z.abs (i - j)) bw); [|lia].
  destruct (Z.leb_spec (Z.abs (i - j)) bw'); [|lia]. done.
Qed.

Lemma fill_cost_matrix_wide sequence1 sequence2 bw bw' metric :
  let n := vsize sequence1 in
  let m := vsize sequence2 in
  0 < n → 0 < m → 1 ≤ bw → 1 ≤ bw' →
  Z.max n m - 1 ≤ bw → Z.max n m - 1 ≤ bw' → n + bw < 2 ^ 31 → n + bw' < 2 ^ 31 →
  fill_cost_matrix sequence1 sequence2 bw metric
    = fill_cost_matrix sequence1 sequence2 bw' metric.
Proof.
  intros n m Hn Hm Hbw Hbw' Hw Hw' Ho Ho'.
  destruct (fill_cost_matrix_spec sequence1 sequence2 bw metric Hn Hm Hbw)
    as (C & -> & Hsh & Hspec).
  destruct (fill_cost_matrix_spec sequence1 sequence2 bw' metric Hn Hm Hbw')
    as (C' & -> & Hsh' & Hspec').
  f_equal.
  apply (cell_spec_wide_unique
           (local_dist sequence1 sequence2 bw metric)
           (local_dist sequence1 sequence2 bw' metric) n m bw bw');
    try done; try (fold n m; lia).
  - intros i j Hi Hj.
    rewrite !in_body_band; try done; try lia; unfold INT_MAX; lia.
  - intros i j Hi Hj. apply local_dist_wide; lia.
Qed.

(** X5.  A band width of at least [max(n, m) - 1] constrains nothing: as long
    as the band limits [i + band_width + 1] stay in the [int] range,
    [computeDTW] returns the very result of the unconstrained computation
    ([band_width <= 0]): the same distance, path and cost matrix. *)
Theorem dtw_wide_band_is_unconstrained seq1 seq2 band_width band_width' metric return_path :
  Z.max (vsize seq1) (vsize seq2) - 1 ≤ band_width →
  vsize seq1 + band_width < 2 ^ 31 →
  2 * Z.max (vsize seq1) (vsize seq2) < 2 ^ 31 →
  band_width' ≤ 0 →
  computeDTW seq1 seq2 band_width metric return_path
    = computeDTW seq1 seq2 band_width' metric return_path.
Proof.
  intros Hw Ho Hsize Hun.
  destruct (vsize_0_or_pos seq1 seq2) as [Hz|[Hn Hm]].
  { by rewrite !computeDTW_empty. }
  unfold computeDTW.
  destruct (Z.eqb_spec (vsize seq1) 0); [lia|].
  destruct (Z.eqb_spec (vsize seq2) 0); [lia|]. simpl.
  assert (effective_band (vsize seq1) (vsize seq2) band_width'
            = Z.max (vsize seq1) (vsize seq2)) as ->.
  { unfold effective_band. destruct (Z.leb_spec band_width' 0); [done|lia]. }
  unfold effective_band. destruct (Z.leb_spec band_width 0); [done|].
  rewrite (fill_cost_matrix_wide seq1 seq2 band_width
             (Z.max (vsize seq1) (vsize seq2)) metric); try done; lia.
Qed.

(** Witness of X5: three frames against two, band width 2 and the default
    [-1]. *)
Lemma dtw_wide_band_is_unconstrained_witness :
  Z.max (vsize [[0]; [1]; [3]]%float) (vsize [[0]; [3]]%float) - 1 ≤ 2 ∧
  vsize [[0]; [1]; [3]]%float + 2 < 2 ^ 31 ∧
  2 * Z.max (vsize [[0]; [1]; [3]]%float) (vsize [[0]; [3]]%float) < 2 ^ 31 ∧
  -1 ≤ 0 ∧
  computeDTW [[0]; [1]; [3]]%float [[0]; [3]]%float 2 EUCLIDEAN true
    = computeDTW [[0]; [1]; [3]]%float [[0]; [3]]%float (-1) EUCLIDEAN true.
Proof.
  assert (Z.max (vsize [[0]; [1]; [3]]%float) (vsize [[0]; [3]]%float) - 1 ≤ 2) as H1
    by (vm_compute; discriminate).
  assert (vsize [[0]; [1]; [3]]%float + 2 < 2 ^ 31) as H2 by (vm_compute; reflexivity).
  assert (2 * Z.max (vsize [[0]; [1]; [3]]%float) (vsize [[0]; [3]]%float) < 2 ^ 31) as H3
    by (vm_compute; reflexivity).
  assert (-1 ≤ 0) as H4 by lia.
  split; [exact H1|]. split; [exact H2|]. split; [exact H3|]. split; [exact H4|].
  exact (dtw_wide_band_is_unconstrained _ _ 2 (-1) EUCLIDEAN true H1 H2 H3 H4).
Defined.

(** ** Symmetry of the distances *)

(** *** Binary64 facts *)

Lemma SFmul_self_abs prec emax x :
  SFmul prec emax x x = SFmul prec emax (SFabs x) (SFabs x).
Proof. destruct x as [[]|[]| |[] m e]; reflexivity. Qed.

Lemma SFabs_binary_round_aux prec emax s m e l :
  SFabs (binary_round_aux prec emax s m e l)
    = SFabs (binary_round_aux prec emax false m e l).
Proof.
  unfold binary_round_aux.
  destruct (shr_fexp prec emax m e l) as [mrs' e'].
  destruct (shr_fexp prec emax _ e' loc_Exact) as [mrs'' e''].
  destruct (shr_m mrs''); [done| |done]. by destruct (_ <=? _).
Qed.

Lemma SFabs_binary_normalize_opp prec emax z e :
  SFabs (binary_normalize prec emax (- z) e false)
    = SFabs (binary_normalize prec emax z e false).
Proof.
  destruct z as [|p|p]; simpl; [done| |]; unfold binary_round;
    destruct (shl_align _ _ _) as [mz ez]; by rewrite (SFabs_binary_round_aux _ _ true).
Qed.

(** [y - x] is [x - y] with the other sign. *)
Lemma SFabs_SFsub_sym prec emax x y :
  SFabs (SFsub prec emax x y) = SFabs (SFsub prec emax y x).
Proof.
  destruct x as [[]|[]| |sx mx ex], y as [[]|[]| |sy my ey]; try reflexivity.
  simpl. rewrite (Z.min_comm ey ex).
  set (A := cond_Zopp sx _). set (B := cond_Zopp sy _).
  replace (B - A) with (- (A - B)) by lia. symmetry. apply SFabs_binary_normalize_opp.
Qed.

Lemma SFmul_comm prec emax x y : SFmul prec emax x y = SFmul prec emax y x.
Proof.
  destruct x as [[]|[]| |[] mx ex], y as [[]|[]| |[] my ey]; try reflexivity;
    simpl; by rewrite Pos.mul_comm, Z.add_comm.
Qed.

Lemma fmul_comm a b : (a * b)%float = (b * a)%float.
Proof. apply Prim2SF_inj. rewrite !mul_spec. apply SFmul_comm. Qed.

Lemma sq_diff_sym a b : ((a - b) * (a - b))%float = ((b - a) * (b - a))%float.
Proof.
  apply Prim2SF_inj. rewrite !mul_spec, !sub_spec. unfold SF64mul, SF64sub.
  rewrite SFmul_self_abs, (SFabs_SFsub_sym _ _ (Prim2SF a)). symmetry. apply SFmul_self_abs.
Qed.

Lemma abs_diff_sym a b : abs (a - b) = abs (b - a).
Proof.
  apply Prim2SF_inj. rewrite !abs_spec, !sub_spec. apply SFabs_SFsub_sym.
Qed.

(** *** Loops in lockstep *)

Lemma for_up_rel {S S'} (R : S → S' → Prop) body body' n :
  ∀ i s s',
    (∀ k t t', i ≤ k < i + Z.of_nat n → R t t' →
               option_Forall2 R (body k t) (body' k t')) →
    R s s' → option_Forall2 R (for_up n i body s) (for_up n i body' s').
Proof.
  induction n as [|n IH]; intros i s s' Hbody Hs; simpl.
  - by constructor.
  - destruct (Hbody i s s') as [t t' Ht|]; [lia|done| |by constructor]. simpl.
    apply IH; [|done]. intros k u u' Hk. apply Hbody. lia.
Qed.

Lemma for_range_rel {S S'} (R : S → S' → Prop) body body' lo hi s s' :
  (∀ k t t', lo ≤ k < hi → R t t' → option_Forall2 R (body k t) (body' k t')) →
  R s s' → option_Forall2 R (for_range lo hi body s) (for_range lo hi body' s').
Proof.
  intros Hbody Hs. unfold for_range. apply for_up_rel; [|done].
  intros k t t' Hk. apply Hbody. lia.
Qed.

Lemma for_range_ext {S} (body body' : Z → S → option S) lo hi s :
  (∀ k t, lo ≤ k < hi → body k t = body' k t) →
  for_range lo hi body s = for_range lo hi body' s.
Proof.
  intros Hbody.
  destruct (for_range_rel eq body body' lo hi s s) as [r r' <-|]; try done.
  intros k t t' Hk <-. rewrite <- Hbody by done.
  destruct (body k t); by constructor.
Qed.

(** [calculateDistance] does not depend on the order of its two vectors. *)
Lemma calculateDistance_comm vec1 vec2 metric :
  calculateDistance vec1 vec2 metric = calculateDistance vec2 vec1 metric.
Proof.
  unfold calculateDistance. rewrite (Z.eqb_sym (vsize vec2)).
  destruct (Z.eqb_spec (vsize vec1) (vsize vec2)) as [E|]; [|done]. simpl.
  rewrite <- E. destruct metric.
  - f_equal. apply for_range_ext. intros i d Hi.
    destruct (vget vec1 i) as [a|], (vget vec2 i) as [b|]; simpl; try done.
    by rewrite sq_diff_sym.
  - apply for_range_ext. intros i d Hi.
    destruct (vget vec1 i) as [a|], (vget vec2 i) as [b|]; simpl; try done.
    by rewrite abs_diff_sym.
  - set (R := λ (t t' : double * double * double),
             t.1.1 = t'.1.1 ∧ t.1.2 = t'.2 ∧ t.2 = t'.1.2).
    match goal with
    | |- context [for_range 0 ?n ?b ?s] =>
        match goal with
        | |- _ = mbind _ (for_range 0 n ?b' s) =>
            destruct (for_range_rel R b b' 0 n s s) as [[[dp n1] n2] [[dp' n1'] n2'] HR|]
        end
    end.
    + intros i [[dp n1] n2] [[dp' n1'] n2'] Hi (Hd & H1 & H2). simpl in *. subst.
      destruct (vget vec1 i) as [a|], (vget vec2 i) as [b|]; simpl; try by constructor.
      constructor. unfold R. simpl. by rewrite fmul_comm.
    + done.
    + destruct HR as (Hd & H1 & H2). simpl in *. subst. rewrite orb_comm.
      destruct (_ || _); [done|]. by rewrite (fmul_comm (sqrt n1')).
    + done.
Qed.

(** *** The Manhattan distance of finite vectors *)

Lemma abs_diff_nonneg a b :
  is_finite a = true → is_finite b = true → nonneg (abs (a - b)).
Proof.
  rewrite !is_finite_sf, nonneg_sf, abs_spec, sub_spec. intros Ha Hb.
  destruct (SFsub_finite_not_nan prec emax _ _ Ha Hb) as [Hf|[s Hs]].
  - unfold SF64sub. by destruct (SFsub _ _ _ _) as [[]|[]| |[] m e].
  - unfold SF64sub. by rewrite Hs.
Qed.

Lemma manhattan_nonneg vec1 vec2 d :
  finite_vec vec1 → finite_vec vec2 →
  calculateDistance vec1 vec2 MANHATTAN = Some d → nonneg d.
Proof.
  intros H1 H2. unfold calculateDistance.
  destruct (Z.eqb_spec (vsize vec1) (vsize vec2)) as [E|]; simpl.
  - pose proof (Zle_0_nat (length vec1)) as Hn. fold (vsize vec1) in Hn.
    loop_inv (λ (_ : Z) (s : double), nonneg s) as s Hs HP; [done|done| |].
    + intros i s Hi Hnn.
      destruct (vget_is_Some vec1 i) as [a Ha]; [lia|].
      destruct (vget_is_Some vec2 i) as [b Hb]; [lia|]. rewrite Ha, Hb. simpl.
      eexists. split; [done|]. apply add_nonneg; [done|].
      apply abs_diff_nonneg; eauto.
    + by intros [= <-].
  - intros [= <-]. done.
Qed.

Lemma manhattan_self vec :
  finite_vec vec → calculateDistance vec vec MANHATTAN = Some 0%float.
Proof.
  intros Hf. unfold calculateDistance. rewrite Z.eqb_refl. simpl.
  pose proof (Zle_0_nat (length vec)) as Hn. fold (vsize vec) in Hn.
  loop_inv (λ (_ : Z) (s : double), s = 0%float) as s Hs HP; [done|done| |].
  - intros i s Hi ->.
    destruct (vget_is_Some vec i) as [a Ha]; [lia|]. rewrite Ha. simpl.
    eexists. split; [done|]. rewrite (sub_diag a) by eauto. reflexivity.
  - by subst s.
Qed.

(** X6.  The laws of a distance that [calculateDistance] keeps in binary64
    arithmetic.  It always returns, and it is symmetric in its two vectors
    for each of the three metrics and for all doubles, NaN and infinities
    included.  Vectors of different lengths are at distance [+∞] under every
    metric.  On vectors of finite numbers the Euclidean and the Manhattan
    distance are never negative and never NaN, and they are [+0.0] from a
    vector to itself. *)
Theorem calculateDistance_laws vec1 vec2 metric :
  (∃ d, calculateDistance vec1 vec2 metric = Some d ∧
        calculateDistance vec2 vec1 metric = Some d) ∧
  (vsize vec1 ≠ vsize vec2 → calculateDistance vec1 vec2 metric = Some infinity) ∧
  (finite_vec vec1 → finite_vec vec2 → metric ≠ COSINE →
   ∃ d, calculateDistance vec1 vec2 metric = Some d ∧ nonneg d ∧
        calculateDistance vec1 vec1 metric = Some 0%float).
Proof.
  split; [|split].
  - destruct (calculateDistance_total vec1 vec2 metric) as [d Hd].
    exists d. split; [done|]. by rewrite <- calculateDistance_comm.
  - intros Hne. unfold calculateDistance.
    destruct (Z.eqb_spec (vsize vec1) (vsize vec2)); done.
  - intros H1 H2 Hm.
    destruct (calculateDistance_total vec1 vec2 metric) as [d Hd].
    exists d. split; [done|]. destruct metric; [| |done].
    + split; [by apply (euclidean_nonneg vec1 vec2)|by apply euclidean_self].
    + split; [by apply (manhattan_nonneg vec1 vec2)|by apply manhattan_self].
Qed.

(** ** Symmetry of the DTW distance *)

(** *** Doubles with a clear sign bit *)

(** [+0.0], the positive numbers and [+∞]: on these [<] is a strict total
    order. *)
Definition positive_signed (x : double) : Prop := sf_signed false (Prim2SF x).

Lemma SFadd_signed_false prec emax x y :
  sf_signed false x → sf_signed false y → sf_signed false (SFadd prec emax x y).
Proof.
  destruct x as [[]|[]| |[] mx ex], y as [[]|[]| |[] my ey]; simpl; try done.
  intros _ _. unfold binary_normalize.
  destruct (shl_align mx ex (Z.min ex ey)) as [a ?], (shl_align my ey (Z.min ex ey)) as [b ?].
  simpl. apply binary_round_signed.
Qed.

Lemma SFmul_self_signed_false prec emax x :
  x ≠ S754_nan → sf_signed false (SFmul prec emax x x).
Proof.
  destruct x as [[]|[]| |[] mx ex]; simpl; try done;
    intros _; apply binary_round_aux_signed; lia.
Qed.

Lemma SFsqrt_signed_false prec emax x :
  sf_signed false x → sf_signed false (SFsqrt prec emax x).
Proof.
  destruct x as [[]|[]| |[] mx ex]; simpl; try done.
  intros _. unfold SFsqrt_core_binary.
  set (m' := match _ - _ with Z0 => _ | Zpos _ => _ | Zneg _ => _ end).
  pose proof (Z.sqrtrem_sqrt m') as Hq. pose proof (Z.sqrt_nonneg m') as Hn.
  destruct (Z.sqrtrem m') as [q r]. simpl in Hq. subst q.
  by apply binary_round_aux_signed.
Qed.

Lemma positive_signed_infinity : positive_signed infinity.
Proof. reflexivity. Qed.

Lemma positive_signed_add x y :
  positive_signed x → positive_signed y → positive_signed (x + y).
Proof. unfold positive_signed. rewrite add_spec. apply SFadd_signed_false. Qed.

Lemma positive_signed_sqrt x : positive_signed x → positive_signed (sqrt x).
Proof. unfold positive_signed. rewrite sqrt_spec. apply SFsqrt_signed_false. Qed.

Lemma positive_signed_sq_diff a b :
  is_finite a = true → is_finite b = true → positive_signed ((a - b) * (a - b)).
Proof.
  rewrite !is_finite_sf. unfold positive_signed. rewrite mul_spec, sub_spec. intros Ha Hb.
  apply SFmul_self_signed_false.
  destruct (SFsub_finite_not_nan prec emax _ _ Ha Hb) as [Hf|[s Hs]].
  - intros E. unfold SF64sub in E. rewrite E in Hf. done.
  - unfold SF64sub. by rewrite Hs.
Qed.

(** Two such doubles neither of which is below the other are the same
    double. *)
Lemma positive_signed_eq x y :
  positive_signed x → positive_signed y →
  (x <? y)%float = false → (y <? x)%float = false → x = y.
Proof.
  unfold positive_signed. rewrite !FloatAxioms.ltb_spec. intros Hx Hy H1 H2.
  apply Prim2SF_inj. unfold SFltb in *.
  destruct (Prim2SF x) as [[]|[]| |[] mx ex], (Prim2SF y) as [[]|[]| |[] my ey];
    simpl in *; try done.
  change (Pos.compare_cont Eq mx my) with (Pos.compare mx my) in H1.
  change (Pos.compare_cont Eq my mx) with (Pos.compare my mx) in H2.
  destruct (Z.compare_spec ex ey), (Z.compare_spec ey ex); try done; try lia. subst.
  destruct (Pos.compare_spec mx my), (Pos.compare_spec my mx); try done; try lia.
  by subst.
Qed.

Lemma ltb_asym x y : (x <? y)%float = true → (y <? x)%float = false.
Proof.
  intros H1. apply not_true_is_false. intros H2.
  pose proof (ltb_trans x y x H1 H2) as H3. by rewrite ltb_irrefl in H3.
Qed.

Lemma positive_signed_std_min x y :
  positive_signed x → positive_signed y → positive_signed (std_min x y).
Proof. intros. unfold std_min. by destruct (y <? x)%float. Qed.

Lemma std_min_infinity_l x : positive_signed x → std_min infinity x = x.
Proof.
  intros Hx. unfold std_min. destruct (x <? infinity)%float eqn:E; [done|].
  symmetry. apply positive_signed_eq; [done|apply positive_signed_infinity|done|].
  apply ltb_infinity_l.
Qed.

(** The minimum of three does not depend on the order in which the last two
    are taken. *)
Lemma std_min_swap a b c :
  positive_signed a → positive_signed b → positive_signed c →
  std_min (std_min a b) c = std_min (std_min a c) b.
Proof.
  intros Ha Hb Hc. unfold std_min.
  destruct (b <? a)%float eqn:Eba, (c <? a)%float eqn:Eca; cbv iota; rewrite ?Eba, ?Eca.
  - destruct (c <? b)%float eqn:Ecb.
    + by rewrite (ltb_asym c b).
    + destruct (b <? c)%float eqn:Ebc; [done|]. by apply positive_signed_eq.
  - destruct (c <? b)%float eqn:Ecb; [|done].
    by rewrite (ltb_trans c b a) in Eca.
  - destruct (b <? c)%float eqn:Ebc; [|done].
    by rewrite (ltb_trans b c a) in Eba.
  - done.
Qed.

Lemma euclidean_positive_signed vec1 vec2 d :
  finite_vec vec1 → finite_vec vec2 →
  calculateDistance vec1 vec2 EUCLIDEAN = Some d → positive_signed d.
Proof.
  intros H1 H2. unfold calculateDistance.
  destruct (Z.eqb_spec (vsize vec1) (vsize vec2)) as [E|]; simpl.
  - pose proof (Zle_0_nat (length vec1)) as Hn. fold (vsize vec1) in Hn.
    loop_inv (λ (_ : Z) (s : double), positive_signed s) as s Hs HP; [done|done| |].
    + intros i s Hi Hnn.
      destruct (vget_is_Some vec1 i) as [a Ha]; [lia|].
      destruct (vget_is_Some vec2 i) as [b Hb]; [lia|]. rewrite Ha, Hb. simpl.
      eexists. split; [done|]. apply positive_signed_add; [done|].
      apply positive_signed_sq_diff; eauto.
    + simpl. intros [= <-]. by apply positive_signed_sqrt.
  - intros [= <-]. done.
Qed.

Lemma local_dist_positive_signed sequence1 sequence2 bw i j :
  (∀ k v, vget sequence1 k = Some v → finite_vec v) →
  (∀ k v, vget sequence2 k = Some v → finite_vec v) →
  positive_signed (local_dist sequence1 sequence2 bw EUCLIDEAN i j).
Proof.
  intros Hf1 Hf2. unfold local_dist.
  destruct (Z.abs (i - j) <=? bw); [|done].
  destruct (vget sequence1 i) as [a|] eqn:Ea; [|done]. simpl.
  destruct (vget sequence2 j) as [b|] eqn:Eb; [|done]. simpl.
  destruct (calculateDistance a b EUCLIDEAN) as [x|] eqn:Ex; [|done].
  simpl. apply (euclidean_positive_signed a b); eauto.
Qed.

(** *** The cells of the cost matrix *)

Lemma min_prev_value (C : list (list double)) i j c1 c2 c3 :
  1 ≤ i → 1 ≤ j →
  vget2 C (i - 1) (j - 1) = Some c1 → vget2 C (i - 1) j = Some c2 →
  vget2 C i (j - 1) = Some c3 →
  min_prev C i j = Some (std_min (std_min (std_min infinity c1) c2) c3).
Proof.
  intros Hi Hj E1 E2 E3. unfold min_prev.
  destruct (Z.ltb_spec 0 i); [|lia]. destruct (Z.ltb_spec 0 j); [|lia]. simpl.
  by rewrite E1, E2, E3.
Qed.

(** A property of doubles that [+∞] and the local distances have, and that
    sums and minima keep, holds of every cell. *)
Lemma cells_closed (P : double → Prop) d n m bw (C : list (list double)) :
  P infinity → (∀ x y, P x → P y → P (x + y)%float) →
  (∀ x y, P x → P y → P (std_min x y)) →
  mshape n m C →
  (∀ i j, 0 ≤ i < n → 0 ≤ j < m → P (d i j)) →
  (∀ i j, 0 ≤ i < n → 0 ≤ j < m → cell_spec d m bw C i j) →
  ∀ i j c, 0 ≤ i < n → 0 ≤ j < m → vget2 C i j = Some c → P c.
Proof.
  intros Hinf Hadd Hmin Hsh Hd Hspec.
  assert (∀ k : nat, ∀ i j c, 0 ≤ i < n → 0 ≤ j < m → i + j < Z.of_nat k →
                              vget2 C i j = Some c → P c) as Hind.
  { induction k as [|k IH]; intros i j c Hi Hj Hk Hc; [lia|].
    destruct (Hspec i j Hi Hj) as (c' & Hc' & Hcell).
    rewrite Hc in Hc'. injection Hc' as <-.
    destruct (Z.eqb_spec i 0) as [->|Hi0].
    - destruct (Z.eqb_spec j 0) as [->|Hj0]; simpl in Hcell.
      + subst c. apply Hd; lia.
      + destruct (j <=? bw); [|by subst c].
        destruct Hcell as (p & Hp & ->). apply Hadd; [|apply Hd; lia].
        apply (IH 0 (j - 1)); [lia|lia|lia|done].
    - simpl in Hcell. destruct (Z.eqb_spec j 0) as [->|Hj0].
      + destruct (i <=? bw); [|by subst c].
        destruct Hcell as (p & Hp & ->). apply Hadd; [|apply Hd; lia].
        apply (IH (i - 1) 0); [lia|lia|lia|done].
      + destruct (in_body m bw i j && fne (d i j) infinity); [|by subst c].
        destruct Hcell as (mp & Hmp & ->). apply Hadd; [apply Hd; lia|].
        destruct (vget2_is_Some _ _ _ (i - 1) (j - 1) Hsh) as [c1 E1]; [lia|lia|].
        destruct (vget2_is_Some _ _ _ (i - 1) j Hsh) as [c2 E2]; [lia|lia|].
        destruct (vget2_is_Some _ _ _ i (j - 1) Hsh) as [c3 E3]; [lia|lia|].
        rewrite (min_prev_value C i j c1 c2 c3) in Hmp by (done || lia).
        injection Hmp as <-.
        repeat apply Hmin; try done.
        * apply (IH (i - 1) (j - 1)); [lia|lia|lia|done].
        * apply (IH (i - 1) j); [lia|lia|lia|done].
        * apply (IH i (j - 1)); [lia|lia|lia|done]. }
  intros i j c Hi Hj. apply (Hind (Z.to_nat (i + j + 1))); [done|done|lia].
Qed.

Lemma in_body_sym n m bw i j :
  1 ≤ i < n → 1 ≤ j < m → 1 ≤ bw → n + bw < 2 ^ 31 → m + bw < 2 ^ 31 →
  in_body m bw i j = in_body n bw j i.
Proof.
  intros Hi Hj Hbw Hn Hm. unfold in_body.
  rewrite !wrap_int_id by (unfold INT_MIN, INT_MAX; lia).
  destruct (Z.leb_spec (Z.max 1 (i - bw)) j), (Z.ltb_spec j (Z.min m (i + bw + 1))),
    (Z.leb_spec (Z.max 1 (j - bw)) i), (Z.ltb_spec i (Z.min n (j + bw + 1)));
    simpl; try done; lia.
Qed.

Lemma local_dist_sym sequence1 sequence2 bw metric i j :
  local_dist sequence2 sequence1 bw metric j i
    = local_dist sequence1 sequence2 bw metric i j.
Proof.
  unfold local_dist. replace (Z.abs (j - i)) with (Z.abs (i - j)) by lia.
  destruct (Z.abs (i - j) <=? bw); [|done].
  destruct (vget sequence1 i) as [a|], (vget sequence2 j) as [b|]; simpl; try done.
  by rewrite calculateDistance_comm.
Qed.

(** The matrix filled for [(sequence2, sequence1)] is the transpose of the
    matrix filled for [(sequence1, sequence2)]. *)
Lemma cell_spec_transpose d d' n m bw (C C' : list (list double)) :
  mshape n m C → mshape m n C' → 1 ≤ bw → n + bw < 2 ^ 31 → m + bw < 2 ^ 31 →
  (∀ i j, d' j i = d i j) →
  (∀ i j, 0 ≤ i < n → 0 ≤ j < m → positive_signed (d i j)) →
  (∀ i j, 0 ≤ i < n → 0 ≤ j < m → cell_spec d m bw C i j) →
  (∀ i j, 0 ≤ i < n → 0 ≤ j < m → cell_spec d' n bw C' j i) →
  ∀ i j, 0 ≤ i < n → 0 ≤ j < m → vget2 C' j i = vget2 C i j.
Proof.
  intros Hsh Hsh' Hbw Hno Hmo Hd Hpos Hspec Hspec'.
  pose proof (cells_closed positive_signed d n m bw C positive_signed_infinity
                positive_signed_add positive_signed_std_min Hsh Hpos Hspec) as Hcells.
  assert (∀ k : nat, ∀ i j, 0 ≤ i < n → 0 ≤ j < m → i + j < Z.of_nat k →
                            vget2 C' j i = vget2 C i j) as Hind.
  { induction k as [|k IH]; intros i j Hi Hj Hk; [lia|].
    destruct (Hspec i j Hi Hj) as (c & Hc & Hcell).
    destruct (Hspec' i j Hi Hj) as (c' & Hc' & Hcell').
    rewrite Hc, Hc'. f_equal. rewrite andb_comm in Hcell'.
    destruct (Z.eqb_spec i 0) as [->|Hi0].
    - destruct (Z.eqb_spec j 0) as [->|Hj0]; simpl in Hcell, Hcell'.
      + rewrite Hd in Hcell'. congruence.
      + destruct (j <=? bw); [|congruence].
        destruct Hcell as (p & Hp & ->), Hcell' as (p' & Hp' & ->).
        rewrite Hd. rewrite (IH 0 (j - 1)) in Hp' by lia. congruence.
    - simpl in Hcell, Hcell'. destruct (Z.eqb_spec j 0) as [->|Hj0].
      + destruct (i <=? bw); [|congruence].
        destruct Hcell as (p & Hp & ->), Hcell' as (p' & Hp' & ->).
        rewrite Hd. rewrite (IH (i - 1) 0) in Hp' by lia. congruence.
      + rewrite <- (in_body_sym n m bw i j), Hd in Hcell' by lia.
        destruct (in_body m bw i j && fne (d i j) infinity); [|congruence].
        destruct Hcell as (mp & Hmp & ->), Hcell' as (mp' & Hmp' & ->).
        destruct (vget2_is_Some _ _ _ (i - 1) (j - 1) Hsh) as [c1 E1]; [lia|lia|].
        destruct (vget2_is_Some _ _ _ (i - 1) j Hsh) as [c2 E2]; [lia|lia|].
        destruct (vget2_is_Some _ _ _ i (j - 1) Hsh) as [c3 E3]; [lia|lia|].
        rewrite (min_prev_value C i j c1 c2 c3) in Hmp by (done || lia).
        rewrite (min_prev_value C' j i c1 c3 c2) in Hmp'; try lia.
        * injection Hmp as <-. injection Hmp' as <-. f_equal.
          apply std_min_swap.
          -- apply positive_signed_std_min; [done|].
             apply (Hcells (i - 1) (j - 1)); [lia|lia|done].
          -- apply (Hcells i (j - 1)); [lia|lia|done].
          -- apply (Hcells (i - 1) j); [lia|lia|done].
        * rewrite (IH (i - 1) (j - 1)) by lia. done.
        * rewrite (IH i (j - 1)) by lia. done.
        * rewrite (IH (i - 1) j) by lia. done. }
  intros i j Hi Hj. apply (Hind (Z.to_nat (i + j + 1))); [done|done|lia].
Qed.

Lemma vget2_None {A} r c (M : list (list A)) i j :
  mshape r c M → ¬ (0 ≤ i < r ∧ 0 ≤ j < c) → vget2 M i j = None.
Proof.
  intros [Hr Hc] Hout. unfold vget2.
  destruct (vget M i) as [row|] eqn:Er; [|done]. simpl.
  pose proof (vget_lt _ _ _ Er) as Hi. rewrite Hr in Hi.
  destruct (vget row j) as [x|] eqn:Ex; [|done].
  apply vget_lt in Ex. rewrite (Hc i row Er) in Ex. lia.
Qed.

(** X7.  On sequences of vectors with finite components the Euclidean DTW
    is symmetric: exchanging the two sequences transposes the cost matrix and
    leaves the distance unchanged, for every band width (as long as the band
    limits stay in the [int] range).  [dtw_distance] then reports the same
    two numbers for [(seq1, seq2)] and for [(seq2, seq1)]. *)
Theorem dtw_symmetric seq1 seq2 band_width :
  (∀ k v, vget seq1 k = Some v → finite_vec v) →
  (∀ k v, vget seq2 k = Some v → finite_vec v) →
  2 * Z.max (vsize seq1) (vsize seq2) < 2 ^ 31 →
  Z.max (vsize seq1) (vsize seq2) + band_width < 2 ^ 31 →
  (∀ return_path return_path',
      ∃ r r', computeDTW seq1 seq2 band_width EUCLIDEAN return_path = Some r ∧
              computeDTW seq2 seq1 band_width EUCLIDEAN return_path' = Some r' ∧
              distance r' = distance r ∧
              ∀ i j, vget2 (cost_matrix r') j i = vget2 (cost_matrix r) i j) ∧
  dtw_distance seq2 seq1 band_width = dtw_distance seq1 seq2 band_width.
Proof.
  intros Hf1 Hf2 Hsize Hband.
  assert (∀ return_path return_path',
      ∃ r r', computeDTW seq1 seq2 band_width EUCLIDEAN return_path = Some r ∧
              computeDTW seq2 seq1 band_width EUCLIDEAN return_path' = Some r' ∧
              distance r' = distance r ∧
              ∀ i j, vget2 (cost_matrix r') j i = vget2 (cost_matrix r) i j) as Hsym.
  { intros rp rp'. destruct (vsize_0_or_pos seq1 seq2) as [Hz|[Hn Hm]].
    { rewrite !computeDTW_empty by (done || tauto). eexists _, _.
      split; [done|]. split; [done|]. split; [done|]. simpl. intros i j.
      unfold vget2, vget. by destruct (0 <=? i), (0 <=? j). }
    destruct (computeDTW_nonempty seq1 seq2 band_width EUCLIDEAN rp Hn Hm)
      as (C & dist & r & HC & Hsh & Hdist & Hr & Hd & Hc & _).
    destruct (computeDTW_nonempty seq2 seq1 band_width EUCLIDEAN rp' Hm Hn)
      as (C' & dist' & r' & HC' & Hsh' & Hdist' & Hr' & Hd' & Hc' & _).
    assert (effective_band (vsize seq2) (vsize seq1) band_width
              = effective_band (vsize seq1) (vsize seq2) band_width) as Heff.
    { unfold effective_band. by rewrite Z.max_comm. }
    rewrite Heff in HC'.
    set (bw := effective_band (vsize seq1) (vsize seq2) band_width) in *.
    assert (1 ≤ bw) as Hbw by (by apply effective_band_pos).
    assert (bw ≤ Z.max (Z.max (vsize seq1) (vsize seq2)) band_width) as Hle.
    { unfold bw, effective_band. destruct (Z.leb_spec band_width 0); lia. }
    destruct (fill_cost_matrix_spec seq1 seq2 bw EUCLIDEAN Hn Hm Hbw)
      as (C1 & HC1 & _ & Hspec).
    rewrite HC in HC1. injection HC1 as <-.
    destruct (fill_cost_matrix_spec seq2 seq1 bw EUCLIDEAN Hm Hn Hbw)
      as (C1' & HC1' & _ & Hspec').
    rewrite HC' in HC1'. injection HC1' as <-.
    assert (∀ i j, 0 ≤ i < vsize seq1 → 0 ≤ j < vsize seq2 →
                   vget2 C' j i = vget2 C i j) as Htr.
    { apply (cell_spec_transpose (local_dist seq1 seq2 bw EUCLIDEAN)
               (local_dist seq2 seq1 bw EUCLIDEAN) _ _ bw); try done; try lia.
      - intros i j. apply local_dist_sym.
      - intros. by apply local_dist_positive_signed.
      - intros i j Hi Hj. by apply Hspec'. }
    exists r, r'. split; [done|]. split; [done|]. rewrite Hd, Hd', Hc, Hc'. split.
    - rewrite (Htr (vsize seq1 - 1) (vsize seq2 - 1)) in Hdist' by lia. congruence.
    - intros i j.
      destruct (decide (0 ≤ i < vsize seq1 ∧ 0 ≤ j < vsize seq2)) as [[Hi Hj]|Hout].
      + by apply Htr.
      + rewrite (vget2_None _ _ C i j Hsh Hout).
        apply (vget2_None _ _ C' j i Hsh'). tauto. }
  split; [done|].
  destruct (Hsym false false) as (r & r' & Hr & Hr' & Hd & _).
  unfold dtw_distance. rewrite Hr, Hr'. simpl. by rewrite Hd, Z.max_comm.
Qed.

(** Witness of X7: scenario S4 against a shorter sequence. *)
Lemma dtw_symmetric_witness :
  finite_seqb s4_seq = true ∧ finite_seqb [[1; 0]; [2; 5]]%float = true ∧
  2 * Z.max (vsize s4_seq) (vsize [[1; 0]; [2; 5]]%float) < 2 ^ 31 ∧
  Z.max (vsize s4_seq) (vsize [[1; 0]; [2; 5]]%float) + 1 < 2 ^ 31 ∧
  dtw_distance [[1; 0]; [2; 5]]%float s4_seq 1 = dtw_distance s4_seq [[1; 0]; [2; 5]]%float 1.
Proof.
  assert (finite_seqb s4_seq = true) as H1 by (vm_compute; reflexivity).
  assert (finite_seqb [[1; 0]; [2; 5]]%float = true) as H2 by (vm_compute; reflexivity).
  assert (2 * Z.max (vsize s4_seq) (vsize [[1; 0]; [2; 5]]%float) < 2 ^ 31) as H3
    by (vm_compute; reflexivity).
  assert (Z.max (vsize s4_seq) (vsize [[1; 0]; [2; 5]]%float) + 1 < 2 ^ 31) as H4
    by (vm_compute; reflexivity).
  split; [exact H1|]. split; [exact H2|]. split; [exact H3|]. split; [exact H4|].
  exact (proj2 (dtw_symmetric s4_seq [[1; 0]; [2; 5]]%float 1
                  (finite_seqb_correct _ H1) (finite_seqb_correct _ H2) H3 H4)).
Defined.

(** ** The decoder *)

(** *** The parameter setters *)

(** A call of one of the three setters. *)
Inductive setter :=
  | SetTransition (from_state to_state : Z) (prob : double)
  | SetEmission (state observation : Z) (prob : double)
  | SetInitial (state : Z) (prob : double).

Section Setters.
Context `{Cmath}.
Implicit Types (h : HMM) (c : setter).

Definition apply_setter h c : option HMM :=
  match c with
  | SetTransition i j p => setTransitionProb h i j p
  | SetEmission s o p => setEmissionProb h s o p
  | SetInitial s p => setInitialProb h s p
  end.

(** A call with a positive probability and indices inside the tables. *)
Definition valid_setter h c : Prop :=
  match c with
  | SetTransition i j p =>
      fgt p 0 = true ∧ 0 ≤ i < num_states h ∧ 0 ≤ j < num_states h
  | SetEmission s o p =>
      fgt p 0 = true ∧ 0 ≤ s < num_states h ∧ 0 ≤ o < num_observations h
  | SetInitial s p => fgt p 0 = true ∧ 0 ≤ s < num_states h
  end.

(** Two calls that address the same entry of the same table. *)
Definition same_entry c c' : Prop :=
  match c, c' with
  | SetTransition i j _, SetTransition i' j' _ => i = i' ∧ j = j'
  | SetEmission s o _, SetEmission s' o' _ => s = s' ∧ o = o'
  | SetInitial s _, SetInitial s' _ => s = s'
  | _, _ => False
  end.

(** A valid call stores its value: the result in closed form. *)
Definition mstore (M : list (list double)) (i j : Z) (x : double) : list (list double) :=
  alter (<[Z.to_nat j := x]>) (Z.to_nat i) M.

Definition store h c : HMM :=
  match c with
  | SetTransition i j p =>
      mkHMM (num_states h) (num_observations h) (mstore (transition_probs h) i j (log p))
        (emission_probs h) (initial_probs h)
  | SetEmission s o p =>
      mkHMM (num_states h) (num_observations h) (transition_probs h)
        (mstore (emission_probs h) s o (log p)) (initial_probs h)
  | SetInitial s p =>
      mkHMM (num_states h) (num_observations h) (transition_probs h) (emission_probs h)
        (<[Z.to_nat s := log p]> (initial_probs h))
  end.

Lemma vset2_mstore (r n : Z) (M : list (list double)) i j x :
  mshape r n M → 0 ≤ i < r → 0 ≤ j < n → vset2 M i j x = Some (mstore M i j x).
Proof.
  intros [Hr Hc] Hi Hj. unfold vset2, mstore.
  destruct (vget_is_Some M i) as [row Hrow]; [lia|].
  pose proof (Hc i row Hrow) as Hlen.
  rewrite Hrow. simpl. rewrite vset_ok by lia. simpl. rewrite vset_ok by lia.
  f_equal. apply vget_Some in Hrow as [_ Hrow].
  apply list_eq. intros k. destruct (decide (k = Z.to_nat i)) as [->|Hne].
  - rewrite list_lookup_alter_eq, Hrow. simpl. apply list_lookup_insert_eq.
    apply lookup_lt_Some in Hrow. done.
  - rewrite list_lookup_alter_ne by done. by apply list_lookup_insert_ne.
Qed.

Lemma apply_valid_setter h c :
  hmm_wf h → valid_setter h c → apply_setter h c = Some (store h c).
Proof.
  intros (HN & HK & Ht & He & Hi) Hv. destruct c as [i j p|s o p|s p]; simpl in *.
  - destruct Hv as (Hp & Hi' & Hj'). unfold setTransitionProb. rewrite Hp.
    destruct (Z.ltb_spec i (num_states h)); [|lia].
    destruct (Z.ltb_spec j (num_states h)); [|lia]. simpl.
    by rewrite (vset2_mstore _ _ _ _ _ _ Ht).
  - destruct Hv as (Hp & Hi' & Hj'). unfold setEmissionProb. rewrite Hp.
    destruct (Z.ltb_spec s (num_states h)); [|lia].
    destruct (Z.ltb_spec o (num_observations h)); [|lia]. simpl.
    by rewrite (vset2_mstore _ _ _ _ _ _ He).
  - destruct Hv as (Hp & Hi'). unfold setInitialProb. rewrite Hp.
    destruct (Z.ltb_spec s (num_states h)); [|lia]. simpl.
    by rewrite vset_ok by lia.
Qed.

Lemma mshape_mstore (r n : Z) (M : list (list double)) i j x :
  mshape r n M → mshape r n (mstore M i j x).
Proof.
  intros [Hr Hc]. unfold mstore. split.
  - unfold vsize in *. by rewrite length_alter.
  - intros k row [Hk Hrow]%vget_Some.
    destruct (decide (Z.to_nat i = Z.to_nat k)) as [E|Hne].
    + rewrite <- E, list_lookup_alter_eq in Hrow.
      destruct (M !! Z.to_nat i) as [row0|] eqn:E0; [|done].
      simpl in Hrow. injection Hrow as <-. rewrite vsize_insert.
      apply (Hc k). apply vget_Some. rewrite <- E. done.
    + rewrite list_lookup_alter_ne in Hrow by done.
      apply (Hc k). by apply vget_Some.
Qed.

Lemma store_wf h c : hmm_wf h → hmm_wf (store h c).
Proof.
  intros (HN & HK & Ht & He & Hi). unfold hmm_wf.
  destruct c as [i j p|s o p|s p]; simpl.
  - split; [done|]. split; [done|]. split; [by apply mshape_mstore|done].
  - split; [done|]. split; [done|]. split; [done|]. split; [by apply mshape_mstore|done].
  - split; [done|]. split; [done|]. split; [done|]. split; [done|]. by rewrite vsize_insert.
Qed.

Lemma store_valid h c c' : valid_setter h c' → valid_setter (store h c) c'.
Proof. by destruct c, c'. Qed.

Lemma mstore_mstore_eq (M : list (list double)) i j x y :
  mstore (mstore M i j x) i j y = mstore M i j y.
Proof.
  unfold mstore. rewrite list_alter_alter_eq. apply list_alter_ext; [|done].
  intros row _. simpl. apply list_insert_insert_eq.
Qed.

Lemma mstore_mstore_ne (M : list (list double)) i j i' j' x y :
  0 ≤ i → 0 ≤ j → 0 ≤ i' → 0 ≤ j' → ¬ (i = i' ∧ j = j') →
  mstore (mstore M i j x) i' j' y = mstore (mstore M i' j' y) i j x.
Proof.
  intros Hi Hj Hi' Hj' Hne. unfold mstore.
  destruct (decide (i = i')) as [<-|Hii].
  - rewrite !list_alter_alter_eq. apply list_alter_ext; [|done].
    intros row _. simpl. apply list_insert_insert_ne. lia.
  - apply list_alter_alter_ne. lia.
Qed.

(** X8.  How valid setter calls compose on a well-formed decoder (a call is
    valid when its probability is positive and its indices are inside the
    tables).  Two valid calls in a row both run and store their values; when
    they address the same entry the result is that of the second call alone,
    and otherwise the result does not depend on their order. *)
Theorem setters_compose h c c' :
  hmm_wf h → valid_setter h c → valid_setter h c' →
  ∃ h1 h1' h2,
    apply_setter h c = Some h1 ∧ apply_setter h1 c' = Some h2 ∧
    apply_setter h c' = Some h1' ∧
    (same_entry c c' → h2 = h1') ∧
    (¬ same_entry c c' → apply_setter h1' c = Some h2).
Proof.
  intros Hwf Hv Hv'.
  exists (store h c), (store h c'), (store (store h c) c').
  rewrite !apply_valid_setter; try done; try (by apply store_wf); try (by apply store_valid).
  split; [done|]. split; [done|]. split; [done|]. split.
  - intros Hsame. destruct c as [i j p|s o p|s p], c' as [i' j' p'|s' o' p'|s' p'];
      simpl in Hsame; try done; simpl.
    + destruct Hsame as [<- <-]. by rewrite mstore_mstore_eq.
    + destruct Hsame as [<- <-]. by rewrite mstore_mstore_eq.
    + subst s'. by rewrite list_insert_insert_eq.
  - intros Hdiff. f_equal.
    destruct c as [i j p|s o p|s p], c' as [i' j' p'|s' o' p'|s' p'];
      simpl in *; try done.
    + f_equal. apply mstore_mstore_ne; lia || tauto.
    + f_equal. apply mstore_mstore_ne; lia || tauto.
    + f_equal. apply list_insert_insert_ne. lia.
Qed.

End Setters.

(** Witness of X8: two transitions of a fresh two-state decoder. *)
Lemma setters_compose_witness :
  hmm_wf (fresh_hmm 2 2) ∧
  valid_setter (fresh_hmm 2 2) (SetTransition 0 1 0.3) ∧
  valid_setter (fresh_hmm 2 2) (SetTransition 1 0 0.4) ∧
  ∃ h1 h1' h2,
    @apply_setter RefCmath.cmath (fresh_hmm 2 2) (SetTransition 0 1 0.3) = Some h1 ∧
    @apply_setter RefCmath.cmath h1 (SetTransition 1 0 0.4) = Some h2 ∧
    @apply_setter RefCmath.cmath (fresh_hmm 2 2) (SetTransition 1 0 0.4) = Some h1' ∧
    (same_entry (SetTransition 0 1 0.3) (SetTransition 1 0 0.4) → h2 = h1') ∧
    (¬ same_entry (SetTransition 0 1 0.3) (SetTransition 1 0 0.4) →
     @apply_setter RefCmath.cmath h1' (SetTransition 0 1 0.3) = Some h2).
Proof.
  assert (hmm_wf (fresh_hmm 2 2)) as Hwf by (apply hmm_wfb_correct; vm_compute; reflexivity).
  assert (valid_setter (fresh_hmm 2 2) (SetTransition 0 1 0.3)) as Hv.
  { simpl. split; [reflexivity|]. split; lia. }
  assert (valid_setter (fresh_hmm 2 2) (SetTransition 1 0 0.4)) as Hv'.
  { simpl. split; [reflexivity|]. split; lia. }
  split; [exact Hwf|]. split; [exact Hv|]. split; [exact Hv'|].
  exact (@setters_compose RefCmath.cmath (fresh_hmm 2 2) _ _ Hwf Hv Hv').
Defined.

(** *** The JavaScript interface *)

(** A call of the interface that changes the global decoder. *)
Inductive js_call :=
  | CreateHMM (num_states num_observations : Z)
  | SetParameter (c : setter)
  | CleanupHMM.

Section Interface.
Context `{Cmath}.

Definition js_step (global_hmm : option HMM) (call : js_call) : option (option HMM) :=
  match call with
  | CreateHMM n k => JS.createHMM global_hmm n k
  | SetParameter (SetTransition i j p) => JS.setTransition global_hmm i j p
  | SetParameter (SetEmission s o p) => JS.setEmission global_hmm s o p
  | SetParameter (SetInitial s p) => JS.setInitial global_hmm s p
  | CleanupHMM => Some (JS.cleanupHMM global_hmm)
  end.

Fixpoint js_run (global_hmm : option HMM) (calls : list js_call) : option (option HMM) :=
  match calls with
  | [] => Some global_hmm
  | call :: calls => g ← js_step global_hmm call; js_run g calls
  end.

(** The global pointer is null or points to a decoder whose tables have the
    dimensions it records. *)
Definition js_ok (global_hmm : option HMM) : Prop :=
  match global_hmm with
  | Some h => hmm_wf h
  | None => True
  end.

Lemma js_step_ok g call g' : js_ok g → js_step g call = Some g' → js_ok g'.
Proof.
  intros Hok. destruct call as [n k|[i j p|s o p|s p]|]; simpl.
  - unfold JS.createHMM. destruct (HMM_new n k) as [h|] eqn:E; [|done].
    simpl. intros [= <-]. simpl. by apply (HMM_new_wf n k).
  - destruct g as [h|]; simpl; [|by intros [= <-]].
    destruct (setTransitionProb h i j p) as [h'|] eqn:E; [|done].
    simpl. intros [= <-]. simpl. by apply (setTransitionProb_wf h i j p).
  - destruct g as [h|]; simpl; [|by intros [= <-]].
    destruct (setEmissionProb h s o p) as [h'|] eqn:E; [|done].
    simpl. intros [= <-]. simpl. by apply (setEmissionProb_wf h s o p).
  - destruct g as [h|]; simpl; [|by intros [= <-]].
    destruct (setInitialProb h s p) as [h'|] eqn:E; [|done].
    simpl. intros [= <-]. simpl. by apply (setInitialProb_wf h s p).
  - by intros [= <-].
Qed.

Lemma js_run_ok calls : ∀ g g', js_ok g → js_run g calls = Some g' → js_ok g'.
Proof.
  induction calls as [|call calls IH]; intros g g' Hok; simpl.
  - by intros [= <-].
  - destruct (js_step g call) as [g1|] eqn:E; [|done]. simpl.
    apply IH. by apply (js_step_ok g call).
Qed.

(** X9.  Whatever sequence of [createHMM], setter and [cleanupHMM] calls
    has run (and returned) since the start of the program, the global decoder
    is absent or has tables of the dimensions it records, and [forward] and
    [backward] return on every observation sequence without negative
    symbols: no such call sequence can make them read outside a table.
    Without a decoder they return [-∞] and [viterbi] returns the empty
    sequence. *)
Theorem js_interface_safe calls g observations :
  js_run None calls = Some g → symbols_nonneg observations →
  js_ok g ∧
  is_Some (JS.forward g observations) ∧ is_Some (JS.backward g observations) ∧
  (g = None → JS.forward g observations = Some neg_infinity ∧
              JS.backward g observations = Some neg_infinity ∧
              JS.viterbi g observations = Some []).
Proof.
  intros Hrun Hnn.
  assert (js_ok g) as Hok by (by apply (js_run_ok calls None)).
  split; [done|].
  assert (0 ≤ vsize observations) as HT by apply Zle_0_nat.
  destruct g as [h|]; simpl in *.
  - split; [|split; [|done]].
    + destruct (Z.eq_dec (vsize observations) 0) as [E|Hne].
      * unfold forward. by rewrite E.
      * destruct (forward_spec h observations) as (l & -> & _); [done|lia|done|done].
    + destruct (Z.eq_dec (vsize observations) 0) as [E|Hne].
      * unfold backward. by rewrite E.
      * destruct (backward_spec h observations) as (l & -> & _); [done|lia|done|done].
  - done.
Qed.

End Interface.

(** Witness of X9: the calls that build the model of scenario S6, after a
    first decoder was created and cleaned up. *)
Lemma js_interface_safe_witness :
  @js_run RefCmath.cmath None
     [CreateHMM 3 1; CleanupHMM; CreateHMM 2 2;
      SetParameter (SetInitial 0 0.6); SetParameter (SetInitial 1 0.4);
      SetParameter (SetTransition 0 0 0.7); SetParameter (SetTransition 0 1 0.3);
      SetParameter (SetTransition 1 0 0.4); SetParameter (SetTransition 1 1 0.6);
      SetParameter (SetEmission 0 0 0.5); SetParameter (SetEmission 0 1 0.5);
      SetParameter (SetEmission 1 0 0.1); SetParameter (SetEmission 1 1 0.9)]
    = Some (Some s6_hmm) ∧
  symbols_nonneg [0; 1; 5] ∧
  is_Some (@JS.forward RefCmath.cmath (Some s6_hmm) [0; 1; 5]) ∧
  is_Some (@JS.backward RefCmath.cmath (Some s6_hmm) [0; 1; 5]).
Proof.
  match goal with |- ?R = _ ∧ _ => assert (R = Some (Some s6_hmm)) as Hrun end.
  { vm_compute. reflexivity. }
  assert (symbols_nonneg [0; 1; 5]) as Hnn
    by (apply symbols_nonnegb_correct; vm_compute; reflexivity).
  split; [exact Hrun|]. split; [exact Hnn|].
  destruct (@js_interface_safe RefCmath.cmath _ _ [0; 1; 5] Hrun Hnn) as (_ & Hf & Hb & _).
  split; [exact Hf|exact Hb].
Defined.

(** *** The Viterbi recurrence *)

(** The score of reaching state [s] at time [t] through state [k]:
    [viterbi_table[t-1][k] + transition_probs[k][s] + emission_probs[s][observations[t]]]. *)
Definition viterbi_candidate (h : HMM) (observations : list Z) (V : list (list double))
    (t s k : Z) : option double :=
  v ← vget2 V (t - 1) k;
  a ← vget2 (transition_probs h) k s;
  o ← vget observations t;
  e ← vget2 (emission_probs h) s o;
  Some (v + a + e)%float.

(** [(v, p)] is what the scan over the candidates [f 0 .. f (n-1)] leaves:
    either no candidate is above [LOG_ZERO], or [p] is the first of the
    largest candidates and [v] its score. *)
Definition first_maximum (f : Z → option double) (n : Z) (v : double) (p : Z) : Prop :=
  (p = -1 ∧ v = LOG_ZERO ∧
   ∀ k c, 0 ≤ k < n → f k = Some c → (LOG_ZERO <? c)%float = false) ∨
  (0 ≤ p < n ∧ f p = Some v ∧ (LOG_ZERO <? v)%float = true ∧
   (∀ k c, 0 ≤ k < n → f k = Some c → (v <? c)%float = false) ∧
   (∀ k c, 0 ≤ k < p → f k = Some c → (v <=? c)%float = false)).

Lemma first_maximum_step f k mx b prob :
  0 ≤ k → f k = Some prob → first_maximum f k mx b →
  first_maximum f (k + 1)
    (if fgt prob mx then prob else mx) (if fgt prob mx then k else b).
Proof.
  intros Hk Hf Hinv. unfold first_maximum, fgt in *.
  assert (∀ a b c, (a <? b)%float = true → (a <? c)%float = false →
                   (b <? c)%float = false) as Hlt.
  { intros a b' c Hab Hac. apply not_true_is_false. intros Hbc.
    by rewrite (ltb_trans a b' c) in Hac. }
  assert (∀ a b c, (a <? b)%float = true → (a <? c)%float = false →
                   (b <=? c)%float = false) as Hle.
  { intros a b' c Hab Hac. apply not_true_is_false. intros Hbc.
    by rewrite (ltb_leb_trans a b' c) in Hac. }
  destruct (mx <? prob)%float eqn:Hcmp.
  - right. split; [lia|]. split; [done|].
    destruct Hinv as [(-> & -> & Hnone)|(Hb & Hfb & Hpos & Hmax & Hfirst)].
    + split; [done|]. split.
      * intros j c Hj Hc. destruct (decide (j = k)) as [->|?].
        { rewrite Hf in Hc. injection Hc as <-. apply ltb_irrefl. }
        apply (Hlt LOG_ZERO); [done|]. apply (Hnone j); [lia|done].
      * intros j c Hj Hc. apply (Hle LOG_ZERO); [done|]. apply (Hnone j); [lia|done].
    + split; [by apply (ltb_trans _ mx)|]. split.
      * intros j c Hj Hc. destruct (decide (j = k)) as [->|?].
        { rewrite Hf in Hc. injection Hc as <-. apply ltb_irrefl. }
        apply (Hlt mx); [done|]. apply (Hmax j); [lia|done].
      * intros j c Hj Hc. apply (Hle mx); [done|]. apply (Hmax j); [lia|done].
  - destruct Hinv as [(-> & -> & Hnone)|(Hb & Hfb & Hpos & Hmax & Hfirst)].
    + left. split; [done|]. split; [done|].
      intros j c Hj Hc. destruct (decide (j = k)) as [->|?].
      { rewrite Hf in Hc. by injection Hc as <-. }
      apply (Hnone j); [lia|done].
    + right. split; [lia|]. split; [done|]. split; [done|]. split; [|done].
      intros j c Hj Hc. destruct (decide (j = k)) as [->|?].
      { rewrite Hf in Hc. by injection Hc as <-. }
      apply (Hmax j); [lia|done].
Qed.

Lemma first_maximum_ext f g n v p :
  (∀ k, 0 ≤ k < n → f k = g k) → first_maximum f n v p → first_maximum g n v p.
Proof.
  intros Hfg [(-> & -> & Hnone)|(Hp & Hfp & Hpos & Hmax & Hfirst)].
  - left. split; [done|]. split; [done|]. intros k c Hk Hc. apply (Hnone k); [done|].
    by rewrite Hfg.
  - right. split; [done|]. split; [by rewrite <- Hfg|]. split; [done|]. split.
    + intros k c Hk Hc. apply (Hmax k); [done|]. by rewrite Hfg.
    + intros k c Hk Hc. apply (Hfirst k); [done|]. rewrite Hfg; [done|lia].
Qed.

Lemma viterbi_cell_first_maximum h observations V t s mp bp :
  0 ≤ num_states h →
  viterbi_cell h observations V t s = Some (mp, bp) →
  first_maximum (viterbi_candidate h observations V t s) (num_states h) mp bp.
Proof.
  intros HN E. unfold viterbi_cell in E.
  apply (for_range_post
           (λ k (st : double * Z),
              first_maximum (viterbi_candidate h observations V t s) k st.1 st.2))
    in E; [done|done| |].
  - left. simpl. split; [done|]. split; [done|]. intros; lia.
  - intros k [mx b] st' Hk Hinv Hbody. simpl in Hinv.
    destruct (vget2 V (t - 1) k) as [v|] eqn:Ev; [|done]. simpl in Hbody.
    destruct (vget2 (transition_probs h) k s) as [a|] eqn:Ea; [|done]. simpl in Hbody.
    destruct (vget observations t) as [o|] eqn:Eo; [|done]. simpl in Hbody.
    destruct (vget2 (emission_probs h) s o) as [e|] eqn:Ee; [|done]. simpl in Hbody.
    assert (viterbi_candidate h observations V t s k = Some (v + a + e)%float) as Hf.
    { unfold viterbi_candidate. rewrite Ev. simpl. rewrite Ea. simpl. rewrite Eo. simpl.
      by rewrite Ee. }
    pose proof (first_maximum_step _ k mx b _ (proj1 Hk) Hf Hinv) as Hstep.
    destruct (fgt (v + a + e) mx); injection Hbody as <-; done.
Qed.

(** What [viterbi] leaves in the cell [(t, s)] of its two tables. *)
Definition viterbi_cell_ok (h : HMM) (observations : list Z)
    (V : list (list double)) (psi : list (list Z)) (t s : Z) : Prop :=
  ∃ v p o, vget2 V t s = Some v ∧ vget2 psi t s = Some p ∧ vget observations t = Some o ∧
    if num_observations h <=? o then v = LOG_ZERO ∧ p = -1
    else if t =? 0 then
      p = -1 ∧
      (ip ← vget (initial_probs h) s; e ← vget2 (emission_probs h) s o; Some (ip + e)%float)
        = Some v
    else first_maximum (viterbi_candidate h observations V t s) (num_states h) v p.

Lemma vset2_Some_inv {A} r c (M M' : list (list A)) i j x :
  mshape r c M → vset2 M i j x = Some M' →
  0 ≤ i < r ∧ 0 ≤ j < c ∧ mshape r c M' ∧ vget2 M' i j = Some x ∧
  (∀ i' j', (i' ≠ i ∨ j' ≠ j) → vget2 M' i' j' = vget2 M i' j') ∧
  (∀ i', i' ≠ i → vget M' i' = vget M i').
Proof.
  intros Hsh E. pose proof E as E'. unfold vset2 in E'.
  destruct (vget M i) as [row|] eqn:Er; [|done]. simpl in E'.
  destruct (vset row j x) as [row'|] eqn:Es; [|done]. simpl in E'.
  apply vset_Some in Es as [Hj _]. apply vget_lt in Er as Hi.
  destruct Hsh as [Hr Hc]. rewrite (Hc i row Er) in Hj. rewrite Hr in Hi.
  destruct (vset2_spec r c M i j x (conj Hr Hc) Hi Hj) as (M'' & E'' & Hspec).
  rewrite E in E''. injection E'' as <-. done.
Qed.

Lemma viterbi_candidate_frame h observations (V V' : list (list double)) t s k :
  vget V' (t - 1) = vget V (t - 1) →
  viterbi_candidate h observations V' t s k = viterbi_candidate h observations V t s k.
Proof. intros E. unfold viterbi_candidate, vget2. by rewrite E. Qed.

Lemma viterbi_cell_ok_frame h observations (V V' : list (list double))
    (psi psi' : list (list Z)) t s :
  vget V' t = vget V t → vget V' (t - 1) = vget V (t - 1) → vget psi' t = vget psi t →
  viterbi_cell_ok h observations V psi t s → viterbi_cell_ok h observations V' psi' t s.
Proof.
  intros E1 E2 E3 (v & p & o & Hv & Hp & Ho & Hcell). exists v, p, o.
  unfold vget2 in *. rewrite E1, E3. split; [done|]. split; [done|]. split; [done|].
  destruct (num_observations h <=? o); [done|]. destruct (t =? 0); [done|].
  apply (first_maximum_ext (viterbi_candidate h observations V t s)); [|done].
  intros k _. symmetry. by apply viterbi_candidate_frame.
Qed.

(** The first column. *)
Lemma first_column_post h observations (table table' : list (list double)) T o :
  hmm_wf h → mshape T (num_states h) table → 0 < T →
  vget observations 0 = Some o →
  first_column h observations table = Some table' →
  mshape T (num_states h) table' ∧
  (∀ t, t ≠ 0 → vget table' t = vget table t) ∧
  ∀ s, 0 ≤ s < num_states h →
       if num_observations h <=? o then vget2 table' 0 s = vget2 table 0 s
       else ∃ v, vget2 table' 0 s = Some v ∧
                 (ip ← vget (initial_probs h) s; e ← vget2 (emission_probs h) s o;
                  Some (ip + e)%float) = Some v.
Proof.
  intros (HN & HK & Ht & He & Hi) Hsh HT Ho E. unfold first_column in E.
  apply (for_range_post
           (λ k (tb : list (list double)),
              mshape T (num_states h) tb ∧
              (∀ t, t ≠ 0 → vget tb t = vget table t) ∧
              (∀ s, k ≤ s → vget2 tb 0 s = vget2 table 0 s) ∧
              ∀ s, 0 ≤ s < k →
                   if num_observations h <=? o then vget2 tb 0 s = vget2 table 0 s
                   else ∃ v, vget2 tb 0 s = Some v ∧
                             (ip ← vget (initial_probs h) s;
                              e ← vget2 (emission_probs h) s o;
                              Some (ip + e)%float) = Some v)) in E; [|done| |].
  - destruct E as (Hsh' & Hrows & _ & Hcells). done.
  - split; [done|]. split; [done|]. split; [done|]. intros; lia.
  - intros k tb tb' Hk (Hsh' & Hrows & Hrest & Hcells) Hbody.
    rewrite Ho in Hbody. simpl in Hbody.
    destruct (Z.ltb_spec o (num_observations h)) as [Hlt|Hge].
    + destruct (vget (initial_probs h) k) as [ip|] eqn:Eip; [|done]. simpl in Hbody.
      destruct (vget2 (emission_probs h) k o) as [e|] eqn:Ee; [|done]. simpl in Hbody.
      apply (vset2_Some_inv _ _ _ _ _ _ _ Hsh') in Hbody
        as (_ & _ & Hsh'' & Hg & Hne & Hr).
      split; [done|]. split; [|split].
      * intros t Ht'. rewrite Hr by done. by apply Hrows.
      * intros s Hs. rewrite Hne by lia. apply Hrest. lia.
      * intros s Hs. destruct (Z.leb_spec (num_observations h) o); [lia|].
        destruct (decide (s = k)) as [->|?].
        -- exists (ip + e)%float. rewrite Eip. simpl. rewrite Ee. done.
        -- specialize (Hcells s). destruct (Z.leb_spec (num_observations h) o); [lia|].
           rewrite Hne by lia. apply Hcells. lia.
    + injection Hbody as <-. split; [done|]. split; [done|]. split.
      * intros s Hs. apply Hrest. lia.
      * intros s Hs. destruct (Z.leb_spec (num_observations h) o); [|lia].
        destruct (decide (s = k)) as [->|?]; [apply Hrest; lia|].
        specialize (Hcells s). destruct (Z.leb_spec (num_observations h) o); [|lia].
        apply Hcells. lia.
Qed.

Lemma viterbi_tables_post h observations V psi :
  hmm_wf h → 0 < vsize observations →
  viterbi_tables h observations = Some (V, psi) →
  mshape (vsize observations) (num_states h) V ∧
  mshape (vsize observations) (num_states h) psi ∧
  ∀ t s, 0 ≤ t < vsize observations → 0 ≤ s < num_states h →
         viterbi_cell_ok h observations V psi t s.
Proof.
  intros Hwf HT E. pose proof Hwf as (HN & HK & Ht & He & Hi).
  unfold viterbi_tables in E.
  set (T := vsize observations) in *. set (N := num_states h) in *.
  set (K := num_observations h) in *.
  destruct (first_column h observations (vmake T (vmake N LOG_ZERO))) as [V0|] eqn:E0;
    [|done].
  simpl in E.
  destruct (vget_is_Some observations 0) as [o0 Ho0]; [lia|].
  destruct (first_column_post h observations _ V0 T o0 Hwf
              (mshape_vmake T N LOG_ZERO ltac:(lia) HN) HT Ho0 E0)
    as (Hsh0 & Hrows0 & Hcol0).
  set (P := λ (t : Z) (st : list (list double) * list (list Z)),
         mshape T N st.1 ∧ mshape T N st.2 ∧
         (∀ t' s, 0 ≤ t' < t → 0 ≤ s < N → viterbi_cell_ok h observations st.1 st.2 t' s) ∧
         (∀ t' s, t ≤ t' < T → 0 ≤ s < N →
                  vget2 st.1 t' s = Some LOG_ZERO ∧ vget2 st.2 t' s = Some (-1))).
  apply (for_range_post P) in E; [|lia| |].
  - destruct E as (HV & Hpsi & Hcells & _). split; [done|]. split; [done|].
    intros t s Ht' Hs. apply Hcells; lia.
  - split; [done|]. split; [apply mshape_vmake; lia|]. simpl. split.
    + intros t' s Ht' Hs. assert (t' = 0) as -> by lia.
      specialize (Hcol0 s Hs). fold K in Hcol0.
      destruct (Z.leb_spec K o0) as [Hge|Hlt].
      * exists LOG_ZERO, (-1), o0. rewrite Hcol0.
        rewrite !vget2_vmake by lia. fold K. destruct (Z.leb_spec K o0); [done|lia].
      * destruct Hcol0 as (v & Hv & Hval). exists v, (-1), o0.
        rewrite vget2_vmake by lia. fold K. destruct (Z.leb_spec K o0); [lia|]. done.
    + intros t' s Ht' Hs. split; [|apply vget2_vmake; lia].
      unfold vget2. rewrite Hrows0 by lia. apply (vget2_vmake T N); lia.
  - intros t [V1 psi1] [V' psi'] Hrange (HV1 & Hpsi1 & Hcells & Hrest) Hbody.
    simpl in HV1, Hpsi1, Hcells, Hrest.
    destruct (vget observations t) as [o|] eqn:Ho; [|done]. simpl in Hbody.
    destruct (Z.geb_spec o K) as [Hge|Hlt].
    { injection Hbody as <- <-. split; [done|]. split; [done|]. simpl. split.
      - intros t' s Ht' Hs. destruct (decide (t' = t)) as [->|Hne].
        + destruct (Hrest t s) as [E1 E2]; [lia|done|].
          exists LOG_ZERO, (-1), o. fold K. destruct (Z.leb_spec K o); [done|lia].
        + apply Hcells; lia.
      - intros t' s Ht' Hs. apply Hrest; lia. }
    set (Q := λ (k : Z) (st : list (list double) * list (list Z)),
           mshape T N st.1 ∧ mshape T N st.2 ∧
           (∀ t', t' ≠ t → vget st.1 t' = vget V1 t' ∧ vget st.2 t' = vget psi1 t') ∧
           ∀ s, 0 ≤ s < k →
                ∃ v p, vget2 st.1 t s = Some v ∧ vget2 st.2 t s = Some p ∧
                       first_maximum (viterbi_candidate h observations V1 t s) N v p).
    apply (for_range_post Q) in Hbody; [|done| |].
    + destruct Hbody as (HV' & Hpsi' & Hrows & Hrow). simpl in *.
      split; [done|]. split; [done|]. simpl. split.
      * intros t' s Ht' Hs. destruct (decide (t' = t)) as [->|Hne].
        -- destruct (Hrow s Hs) as (v & p & Hv & Hp & Hmax).
           exists v, p, o. fold K. destruct (Z.leb_spec K o); [lia|].
           destruct (Z.eqb_spec t 0); [lia|]. split; [done|]. split; [done|]. split; [done|].
           apply (first_maximum_ext (viterbi_candidate h observations V1 t s)); [|done].
           intros k _. symmetry. apply viterbi_candidate_frame. apply Hrows. lia.
        -- apply (viterbi_cell_ok_frame h observations V1 V' psi1 psi');
             try (apply Hrows; lia). apply Hcells; lia.
      * intros t' s Ht' Hs. destruct (Hrest t' s) as [E1 E2]; [lia|done|].
        unfold vget2 in *. destruct (Hrows t') as [-> ->]; [lia|]. done.
    + split; [done|]. split; [done|]. split; [done|]. intros; lia.
    + intros k [V2 psi2] [V3 psi3] Hk (HV2 & Hpsi2 & Hrows & Hrow) Hstep. simpl in *.
      destruct (viterbi_cell h observations V2 t k) as [[mp bp]|] eqn:Ecell; [|done].
      simpl in Hstep.
      destruct (vset2 V2 t k mp) as [V2'|] eqn:EV; [|done]. simpl in Hstep.
      destruct (vset2 psi2 t k bp) as [psi2'|] eqn:Epsi; [|done]. simpl in Hstep.
      injection Hstep as <- <-.
      apply (vset2_Some_inv _ _ _ _ _ _ _ HV2) in EV as (_ & _ & HV3 & HgV & HneV & HrV).
      apply (vset2_Some_inv _ _ _ _ _ _ _ Hpsi2) in Epsi
        as (_ & _ & Hpsi3 & Hgp & Hnep & Hrp).
      split; [done|]. split; [done|]. split.
      * intros t' Hne. rewrite HrV, Hrp by done. by apply Hrows.
      * intros s Hs. destruct (decide (s = k)) as [->|Hsk].
        -- exists mp, bp. split; [done|]. split; [done|].
           apply (first_maximum_ext (viterbi_candidate h observations V2 t k)).
           ++ intros j _. apply viterbi_candidate_frame. apply Hrows. lia.
           ++ by apply viterbi_cell_first_maximum.
        -- destruct (Hrow s) as (v & p & Hv & Hp & Hmax); [lia|].
           exists v, p. rewrite HneV, Hnep by (right; done). done.
Qed.

(** X10.  The Viterbi recurrence.  For a well-formed decoder and a
    non-empty sequence without negative symbols, [viterbi] fills its two
    tables so that, at every time [t] whose symbol is in the vocabulary:
    at [t = 0] the cell of state [s] holds [initial_probs[s] +
    emission_probs[s][o]]; at [t >= 1] it holds the largest of the scores
    [viterbi_table[t-1][k] + transition_probs[k][s] + emission_probs[s][o]]
    over the states [k], with the first such [k] as back pointer, or
    [LOG_ZERO] with the back pointer [-1] when no score is above [LOG_ZERO].
    A time whose symbol is outside the vocabulary keeps [LOG_ZERO] and
    [-1]. *)
Theorem viterbi_recurrence h observations :
  hmm_wf h → 0 < vsize observations → symbols_nonneg observations →
  ∃ V psi, viterbi_tables h observations = Some (V, psi) ∧
           ∀ t s, 0 ≤ t < vsize observations → 0 ≤ s < num_states h →
                  viterbi_cell_ok h observations V psi t s.
Proof.
  intros Hwf HT Hnn.
  destruct (viterbi_tables_spec h observations Hwf HT Hnn) as (V & psi & E & _).
  exists V, psi. split; [done|].
  by destruct (viterbi_tables_post h observations V psi Hwf HT E) as (_ & _ & Hcells).
Qed.

(** Witness of X10: the model of scenario S6 on [[0; 1; 1]]. *)
Lemma viterbi_recurrence_witness :
  hmm_wf s6_hmm ∧ 0 < vsize [0; 1; 1] ∧ symbols_nonneg [0; 1; 1] ∧
  ∃ V psi, viterbi_tables s6_hmm [0; 1; 1] = Some (V, psi) ∧
           psi = [[-1; -1]; [0; 0]; [0; 1]] ∧
           viterbi_cell_ok s6_hmm [0; 1; 1] V psi 2 1.
Proof.
  assert (hmm_wf s6_hmm) as Hwf by (apply hmm_wfb_correct; vm_compute; reflexivity).
  assert (symbols_nonneg [0; 1; 1]) as Hnn
    by (apply symbols_nonnegb_correct; vm_compute; reflexivity).
  assert (0 < vsize [0; 1; 1]) as HT by (vm_compute; reflexivity).
  assert (num_states s6_hmm = 2) as HN by (vm_compute; reflexivity).
  split; [exact Hwf|]. split; [exact HT|]. split; [exact Hnn|].
  destruct (viterbi_recurrence s6_hmm [0; 1; 1] Hwf HT Hnn) as (V & psi & E & Hcells).
  exists V, psi. split; [exact E|]. split.
  - vm_compute in E. injection E as <- <-. reflexivity.
  - apply Hcells; [vm_compute; split; congruence|rewrite HN; lia].
Defined.

(** *** The states [viterbi] returns *)





(** ** The audio front end *)

(** *** Binary64 facts: integers, zero and one *)

Lemma digits2_pos_bound p : ∀ k, 0 ≤ k → Z.pos p < 2 ^ k → Z.pos (digits2_pos p) ≤ k.
Proof.
  induction p as [p IH|p IH|]; intros k Hk Hp; simpl.
  - destruct (Z.eq_dec k 0) as [->|Hne]; [simpl in Hp; lia|].
    replace k with (Z.succ (k - 1)) in Hp by lia. rewrite Z.pow_succ_r in Hp by lia.
    specialize (IH (k - 1)). lia.
  - destruct (Z.eq_dec k 0) as [->|Hne]; [simpl in Hp; lia|].
    replace k with (Z.succ (k - 1)) in Hp by lia. rewrite Z.pow_succ_r in Hp by lia.
    specialize (IH (k - 1)). lia.
  - destruct (Z.eq_dec k 0) as [->|Hne]; [simpl in Hp; lia|]. lia.
Qed.

Lemma digits2_pos_iter_xO p k :
  digits2_pos (Pos.iter xO p k) = (digits2_pos p + k)%positive.
Proof.
  induction k as [|k IH] using Pos.peano_ind.
  - simpl. lia.
  - rewrite Pos.iter_succ. simpl. rewrite IH. lia.
Qed.

(** A significand in canonical position is its own rounding. *)
Lemma binary_round_aux_canonical s m e :
  fexp prec emax (Z.pos (digits2_pos m) + e) = e → e ≤ emax - prec →
  binary_round_aux prec emax s (Z.pos m) e loc_Exact = S754_finite s m e.
Proof.
  intros Hc He. unfold binary_round_aux, shr_fexp.
  change (Zdigits2 (Z.pos m)) with (Z.pos (digits2_pos m)).
  rewrite Hc, Z.sub_diag.
  change (shr (shr_record_of_loc (Z.pos m) loc_Exact) e 0)
    with (Build_shr_record (Z.pos m) false false, e).
  cbv iota beta.
  change (round_nearest_even (shr_m (Build_shr_record (Z.pos m) false false))
            (loc_of_shr_record (Build_shr_record (Z.pos m) false false)))
    with (Z.pos m).
  change (Zdigits2 (Z.pos m)) with (Z.pos (digits2_pos m)).
  rewrite Hc, Z.sub_diag.
  change (shr (shr_record_of_loc (Z.pos m) loc_Exact) e 0)
    with (Build_shr_record (Z.pos m) false false, e).
  change (shr_m (Build_shr_record (Z.pos m) false false)) with (Z.pos m).
  cbv iota beta. destruct (Z.leb_spec e (emax - prec)); [done|lia].
Qed.

(** The conversion of a positive [int] gives a positive finite double. *)
Lemma double_of_int_pos z :
  0 < z < 2 ^ 53 → ∃ m e, Prim2SF (double_of_int z) = S754_finite false m e.
Proof.
  intros Hz. unfold double_of_int. destruct (Z.ltb_spec z 0); [lia|].
  rewrite of_uint63_spec, Uint63.of_Z_spec.
  rewrite Z.mod_small by (change Uint63Axioms.wB with (2 ^ 63); lia).
  destruct z as [|p|p]; [lia| |lia]. simpl binary_normalize. unfold binary_round.
  pose proof (digits2_pos_bound p 53 ltac:(lia) ltac:(lia)) as Hd.
  assert (∀ d, 1 ≤ d ≤ 53 → fexp prec emax d = d - 53) as Hfexp.
  { intros d Hd'. unfold fexp, emin, prec, emax. lia. }
  rewrite Z.add_0_r, Hfexp by lia. unfold shl_align.
  destruct (Z.pos (digits2_pos p) - 53 - 0) as [|k|k] eqn:Ek; [| lia |].
  - eexists _, _. apply binary_round_aux_canonical.
    + rewrite Z.add_0_r, Hfexp by lia. lia.
    + unfold emax, prec. lia.
  - eexists _, _. apply binary_round_aux_canonical.
    + rewrite digits2_pos_iter_xO.
      replace (Z.pos (digits2_pos p + k) + (Z.pos (digits2_pos p) - 53))
        with (Z.pos (digits2_pos p)) by lia.
      apply Hfexp. lia.
    + unfold emax, prec. lia.
Qed.

Lemma zero_mul_pos d m e :
  Prim2SF d = S754_finite false m e → (0 * d)%float = 0%float.
Proof. intros Hd. apply Prim2SF_inj. rewrite mul_spec, Hd. reflexivity. Qed.

Lemma zero_div_pos d m e :
  Prim2SF d = S754_finite false m e → (0 / d)%float = 0%float.
Proof. intros Hd. apply Prim2SF_inj. rewrite div_spec, Hd. reflexivity. Qed.

(** [x * 1.0] is [x]. *)
Lemma fmul_1_r x : (x * 1)%float = x.
Proof.
  apply Prim2SF_inj. rewrite mul_spec.
  change (Prim2SF 1) with (S754_finite false 4503599627370496 (-52)).
  pose proof (Prim2SF_valid x) as Hv.
  destruct (Prim2SF x) as [[]|[]| |s m e]; try reflexivity.
  simpl in Hv. unfold bounded, canonical_mantissa in Hv.
  apply andb_prop in Hv as [Hc He]. apply Z.eqb_eq in Hc. apply Z.leb_le in He.
  unfold SF64mul, SFmul. rewrite xorb_false_r.
  rewrite Pos.mul_comm.
  change (4503599627370496 * m)%positive with (Pos.iter xO m 52).
  unfold binary_round_aux, shr_fexp.
  change (Zdigits2 (Z.pos (Pos.iter xO m 52))) with (Z.pos (digits2_pos (Pos.iter xO m 52))).
  rewrite digits2_pos_iter_xO.
  replace (Z.pos (digits2_pos m + 52) + (e + -52)) with (Z.pos (digits2_pos m) + e) by lia.
  rewrite Hc. replace (e - (e + -52)) with 52 by lia.
  change (shr (shr_record_of_loc (Z.pos (Pos.iter xO m 52)) loc_Exact) (e + -52) 52)
    with (Build_shr_record (Z.pos m) false false, e + -52 + 52).
  replace (e + -52 + 52) with e by lia.
  cbv iota beta.
  change (round_nearest_even (shr_m (Build_shr_record (Z.pos m) false false))
            (loc_of_shr_record (Build_shr_record (Z.pos m) false false)))
    with (Z.pos m).
  change (Zdigits2 (Z.pos m)) with (Z.pos (digits2_pos m)).
  rewrite Hc, Z.sub_diag.
  change (shr (shr_record_of_loc (Z.pos m) loc_Exact) e 0)
    with (Build_shr_record (Z.pos m) false false, e).
  change (shr_m (Build_shr_record (Z.pos m) false false)) with (Z.pos m).
  cbv iota beta. destruct (Z.leb_spec e (emax - prec)); [done|lia].
Qed.





(** A magnitude [sqrt(re² + im²)] is never below zero (it may be NaN). *)
Lemma magnitude_not_negative re im :
  (sqrt (re * re + im * im) <? 0)%float = false.
Proof.
  rewrite FloatAxioms.ltb_spec, sqrt_spec, add_spec, !mul_spec.
  change (Prim2SF 0) with (S754_zero false).
  destruct (Prim2SF re) as [sr|sr| |sr mr er] eqn:Er.
  3: { reflexivity. }
  all: destruct (Prim2SF im) as [si|si| |si mi ei] eqn:Ei.
  all: try (unfold SF64mul, SF64add, SF64sqrt; simpl SFmul at 2;
            match goal with |- context [SFadd _ _ ?a S754_nan] =>
              assert (SFadd prec emax a S754_nan = S754_nan) as -> by (by destruct a as [[]|[]| |[] ? ?])
            end; reflexivity).
  all: match goal with
       | |- SFltb (SF64sqrt (SF64add (SF64mul ?a ?a) (SF64mul ?b ?b))) _ = false =>
           pose proof (SFmul_self_nonneg prec emax a ltac:(done)) as Ha;
           pose proof (SFmul_self_nonneg prec emax b ltac:(done)) as Hb;
           pose proof (SFsqrt_nonneg prec emax _ (SFadd_nonneg prec emax _ _ Ha Hb)) as Hs;
           unfold SF64sqrt, SF64add, SF64mul;
           destruct (SFsqrt prec emax _) as [[]|[]| |[] ? ?]; done
       end.
Qed.

Section AudioExtra.
Context `{Cmath}.

(** *** The windows *)

(** The argument of the cosine for the weight [i] of a window. *)
Definition window_angle (length i : Z) : double :=
  (2.0 * PI * double_of_int i / double_of_int (length - 1))%float.

Lemma hamming_window_weights length :
  0 ≤ length →
  ∃ w, hamming_window length = Some w ∧ vsize w = length ∧
       ∀ i, 0 ≤ i < length →
            vget w i = Some (0.54 - 0.46 * cos (window_angle length i))%float.
Proof.
  intros Hl. unfold hamming_window, valloc. destruct (Z.leb_spec 0 length); [|lia]. simpl.
  loop_inv (λ (k : Z) (w : list double),
              vsize w = length ∧
              ∀ i, 0 ≤ i < k →
                   vget w i = Some (0.54 - 0.46 * cos (window_angle length i))%float)
    as w Hw HP; [done| | |].
  - split; [by apply vsize_vmake|]. intros; lia.
  - intros i w Hi [Hs Hv]. rewrite vset_ok by lia. eexists. split; [done|].
    split; [by rewrite vsize_insert|]. intros j Hj.
    destruct (decide (j = i)) as [->|?].
    + by rewrite vget_insert_eq by lia.
    + rewrite vget_insert_ne by lia. apply Hv. lia.
  - destruct HP as [Hs Hv]. eauto.
Qed.

Lemma hann_window_weights length :
  0 ≤ length →
  ∃ w, hann_window length = Some w ∧ vsize w = length ∧
       ∀ i, 0 ≤ i < length →
            vget w i = Some (0.5 * (1.0 - cos (window_angle length i)))%float.
Proof.
  intros Hl. unfold hann_window, valloc. destruct (Z.leb_spec 0 length); [|lia]. simpl.
  loop_inv (λ (k : Z) (w : list double),
              vsize w = length ∧
              ∀ i, 0 ≤ i < k →
                   vget w i = Some (0.5 * (1.0 - cos (window_angle length i)))%float)
    as w Hw HP; [done| | |].
  - split; [by apply vsize_vmake|]. intros; lia.
  - intros i w Hi [Hs Hv]. rewrite vset_ok by lia. eexists. split; [done|].
    split; [by rewrite vsize_insert|]. intros j Hj.
    destruct (decide (j = i)) as [->|?].
    + by rewrite vget_insert_eq by lia.
    + rewrite vget_insert_ne by lia. apply Hv. lia.
  - destruct HP as [Hs Hv]. eauto.
Qed.

Lemma window_angle_0 length : 2 ≤ length < 2 ^ 31 → window_angle length 0 = 0%float.
Proof.
  intros Hl. unfold window_angle.
  destruct (double_of_int_pos (length - 1)) as (m & e & Hd); [lia|].
  change (2.0 * PI * double_of_int 0)%float with 0%float.
  by apply (zero_div_pos _ m e).
Qed.

Lemma window_angle_1 : window_angle 1 0 = nan.
Proof. reflexivity. Qed.

(** X12.  The two window functions.  For a negative [length] neither
    returns (the vector cannot be built).  For [length >= 0] both return
    exactly [length] weights, [0.54 - 0.46 cos a_i] and [0.5 (1 - cos a_i)]
    with [a_i = 2 PI i / (length - 1)].  For [length = 1] that angle is
    [0/0]: the single weight is computed from [cos(NaN)].  For
    [length >= 2], and a cosine with [cos 0 = 1], the Hann window starts at
    exactly [0.0] and the Hamming window at [0.54 - 0.46]. *)
Theorem window_weights length :
  (length < 0 → hamming_window length = None ∧ hann_window length = None) ∧
  (0 ≤ length →
   ∃ wm wn, hamming_window length = Some wm ∧ hann_window length = Some wn ∧
            vsize wm = length ∧ vsize wn = length ∧
            (∀ i, 0 ≤ i < length →
                  vget wm i = Some (0.54 - 0.46 * cos (window_angle length i))%float ∧
                  vget wn i = Some (0.5 * (1.0 - cos (window_angle length i)))%float) ∧
            (length = 1 →
             wm = [(0.54 - 0.46 * cos nan)%float] ∧ wn = [(0.5 * (1.0 - cos nan))%float]) ∧
            (2 ≤ length < 2 ^ 31 → cos 0 = 1%float →
             vget wm 0 = Some (0.54 - 0.46)%float ∧ vget wn 0 = Some 0%float)).
Proof.
  split.
  - intros Hneg. unfold hamming_window, hann_window, valloc.
    destruct (Z.leb_spec 0 length); [lia|]. done.
  - intros Hl.
    destruct (hamming_window_weights length Hl) as (wm & Em & Hsm & Hwm).
    destruct (hann_window_weights length Hl) as (wn & En & Hsn & Hwn).
    exists wm, wn. repeat (split; [done|]). split; [|split].
    + intros i Hi. split; [by apply Hwm|by apply Hwn].
    + intros ->. unfold hamming_window, hann_window in Em, En. simpl in Em, En.
      injection Em as <-. injection En as <-. done.
    + intros Hlen Hcos. rewrite Hwm, Hwn by lia. rewrite window_angle_0 by done.
      rewrite Hcos. done.
Qed.

(** *** The spectrum *)

(** X13.  [dft] runs on every signal without an access outside a vector
    and returns [N/2 + 1] magnitudes, none of which compares below zero (a
    magnitude is a non-negative number, [+∞] or NaN); the spectrum of the
    empty signal is the single bin [0.0]. *)
Theorem dft_magnitudes signal :
  ∃ spectrum, dft signal = Some spectrum ∧
              vsize spectrum = vsize signal ÷ 2 + 1 ∧
              (∀ k x, vget spectrum k = Some x → (x <? 0)%float = false) ∧
              (signal = [] → spectrum = [0%float]).
Proof.
  unfold dft. assert (0 ≤ vsize signal) as HN by apply Zle_0_nat.
  assert (0 ≤ vsize signal ÷ 2) as HN2 by (apply Z.quot_pos; lia).
  loop_inv (λ (_ : Z) (mg : list double),
              vsize mg = vsize signal ÷ 2 + 1 ∧
              (∀ k x, vget mg k = Some x → (x <? 0)%float = false) ∧
              (signal = [] → mg = [0%float]))
    as mg Hmg HP; [lia| | |].
  - split; [apply vsize_vmake; lia|]. split.
    + intros k x Hx. pose proof (vget_lt _ _ _ Hx) as Hk.
      rewrite vsize_vmake in Hk by lia. rewrite vget_vmake in Hx by lia.
      by injection Hx as <-.
    + by intros ->.
  - intros k mg Hk (Hs & Hpos & Hempty). unfold dft_bin.
    loop_inv (λ (_ : Z) (st : double * double), signal = [] → st = (0%float, 0%float))
      as ri Hri HT; [done|done| |].
    + intros n [re im] Hn _. destruct (vget_is_Some signal n) as [x Hx]; [lia|].
      rewrite Hx. simpl. eexists. split; [done|]. intros ->.
      unfold vsize in Hn. simpl in Hn. lia.
    + destruct ri as [re im]. simpl. rewrite vset_ok by lia. eexists. split; [done|].
      split; [by rewrite vsize_insert|]. split.
      * intros j x Hx. pose proof (vget_lt _ _ _ Hx) as Hj. rewrite vsize_insert in Hj.
        destruct (decide (j = k)) as [->|?].
        -- rewrite vget_insert_eq in Hx by lia. injection Hx as <-.
           apply magnitude_not_negative.
        -- rewrite vget_insert_ne in Hx by lia. by apply (Hpos j).
      * intros E. rewrite (Hempty E). specialize (HT E). injection HT as -> ->.
        subst signal. change (vsize (@nil double) ÷ 2 + 1) with 1 in Hk.
        assert (k = 0) as -> by lia. reflexivity.
  - destruct HP as (Hs & Hpos & Hempty). eauto.
Qed.

End AudioExtra.

Section AudioExtra2.
Context `{Cmath}.

(** *** The spectral centroid *)



(** *** The cosine transform *)

Lemma dct_angle_0 n N :
  0 ≤ n → 0 < N → 2 * N < 2 ^ 53 → n < N →
  (PI * double_of_int 0 * double_of_int (2 * n + 1) / double_of_int (2 * N))%float
    = 0%float.
Proof.
  intros Hn HN Hbig Hlt.
  destruct (double_of_int_pos (2 * n + 1)) as (m1 & e1 & H1); [lia|].
  destruct (double_of_int_pos (2 * N)) as (m2 & e2 & H2); [lia|].
  change (PI * double_of_int 0)%float with 0%float.
  rewrite (zero_mul_pos _ m1 e1 H1). by apply (zero_div_pos _ m2 e2).
Qed.

(** X15.  [dct] returns exactly [num_coeffs] coefficients for every signal
    (it does not return for a negative [num_coeffs]); they are all [0.0] for
    the empty signal, whose length is the divisor of the angle but is never
    divided by; and, with a cosine such that [cos 0 = 1], coefficient 0 is
    the plain binary64 sum of the samples, taken from left to right. *)
Theorem dct_coefficients signal num_coeffs :
  (num_coeffs < 0 → dct signal num_coeffs = None) ∧
  (0 ≤ num_coeffs →
   ∃ c, dct signal num_coeffs = Some c ∧ vsize c = num_coeffs ∧
        (signal = [] → c = vmake num_coeffs 0%float) ∧
        (cos 0 = 1%float → 1 ≤ num_coeffs → 2 * vsize signal < 2 ^ 53 →
         vget c 0 = Some (fold_left (λ sum x, (sum + x)%float) signal 0%float))).
Proof.
  split.
  { intros Hneg. unfold dct, valloc. destruct (Z.leb_spec 0 num_coeffs); [lia|]. done. }
  intros Hc. unfold dct, valloc. destruct (Z.leb_spec 0 num_coeffs); [|lia]. simpl.
  assert (0 ≤ vsize signal) as HN by apply Zle_0_nat.
  set (total := fold_left (λ sum x, (sum + x)%float) signal 0%float).
  loop_inv (λ (k : Z) (c : list double),
              vsize c = num_coeffs ∧
              (signal = [] → c = vmake num_coeffs 0%float) ∧
              (cos 0 = 1%float → 1 ≤ k → 2 * vsize signal < 2 ^ 53 →
               vget c 0 = Some total))
    as c Hcf HP; [done| | |].
  - split; [by apply vsize_vmake|]. split; [done|]. intros; lia.
  - intros k c Hk (Hs & Hempty & Hfirst).
    loop_inv (λ (n : Z) (sum : double),
                (signal = [] → sum = 0%float) ∧
                (cos 0 = 1%float → k = 0 → 2 * vsize signal < 2 ^ 53 →
                 sum = fold_left (λ sum x, (sum + x)%float)
                         (take (Z.to_nat n) signal) 0%float))
      as sum Hsum HT; [done| | |].
    + split; [done|]. intros _ _ _. done.
    + intros n sum Hn [Hz Hpart]. destruct (vget_is_Some signal n) as [x Hx]; [lia|].
      rewrite Hx. simpl. eexists. split; [done|]. split.
      * intros ->. unfold vsize in Hn. simpl in Hn. lia.
      * intros Hcos -> Hbig. rewrite dct_angle_0 by lia. rewrite Hcos, fmul_1_r.
        rewrite (Hpart Hcos eq_refl Hbig).
        replace (Z.to_nat (n + 1)) with (Datatypes.S (Z.to_nat n)) by lia.
        apply vget_Some in Hx as [_ Hx].
        rewrite (take_S_r _ _ x Hx), fold_left_app. done.
    + destruct HT as [Hz Hpart]. simpl. rewrite vset_ok by lia. eexists. split; [done|].
      split; [by rewrite vsize_insert|]. split.
      * intros E. rewrite (Hempty E), (Hz E). apply list_insert_id.
        apply lookup_replicate. split; [done|]. lia.
      * intros Hcos Hk1 Hbig. destruct (decide (k = 0)) as [->|Hk0].
        -- rewrite vget_insert_eq by lia. f_equal. rewrite (Hpart Hcos eq_refl Hbig).
           unfold total. f_equal. apply take_ge. unfold vsize. lia.
        -- rewrite vget_insert_ne by lia. apply Hfirst; [done|lia|done].
  - destruct HP as (Hs & Hempty & Hfirst). exists c. split; [done|]. split; [done|].
    split; [done|]. intros Hcos H1 Hbig. by apply Hfirst.
Qed.

End AudioExtra2.

(** *** The pitch of silence *)

Lemma zero_product_sum a b :
  (a =? 0)%float = true → (b =? 0)%float = true → (0 + a * b)%float = 0%float.
Proof.
  rewrite !FloatAxioms.eqb_spec. intros Ha Hb. apply Prim2SF_inj.
  rewrite add_spec, mul_spec.
  change (Prim2SF 0) with (S754_zero false) in *.
  destruct (Prim2SF a) as [[]|[]| |[] ma ea], (Prim2SF b) as [[]|[]| |[] mb eb];
    simpl in *; done.
Qed.

(** A division by zero is no [int]: the quotient is infinite or NaN. *)
Lemma div_zero_not_int x z :
  (z =? 0)%float = true → double_to_int (x / z)%float = None.
Proof.
  rewrite FloatAxioms.eqb_spec. intros Hz. unfold double_to_int. rewrite div_spec.
  change (Prim2SF 0) with (S754_zero false) in Hz.
  destruct (Prim2SF x) as [[]|[]| |[] mx ex], (Prim2SF z) as [[]|[]| |[] mz ez];
    simpl in *; done.
Qed.

(** A frame without sound: every sample is [+0.0] or [-0.0]. *)
Definition silent (audio_frame : list double) : Prop :=
  ∀ i a, vget audio_frame i = Some a → (a =? 0)%float = true.

Lemma autocorrelation_silent audio_frame period :
  0 ≤ period → silent audio_frame → autocorrelation audio_frame period = Some 0%float.
Proof.
  intros Hp Hsil. unfold autocorrelation.
  loop_inv_max (λ (_ : Z) (acc : double), acc = 0%float) as r Hr HP.
  - done.
  - intros i acc Hi ->.
    destruct (vget_is_Some audio_frame i) as [a Ha]; [lia|].
    destruct (vget_is_Some audio_frame (i + period)) as [b Hb]; [lia|].
    rewrite Ha, Hb. simpl. eexists. split; [done|].
    apply zero_product_sum; eauto.
  - by subst r.
Qed.

Lemma pitch_scan_silent audio_frame min_period max_period :
  silent audio_frame → pitch_scan audio_frame min_period max_period = Some (0%float, 0).
Proof.
  intros Hsil. unfold pitch_scan. destruct (Z.ltb_spec min_period 0); [done|].
  loop_inv_max (λ (_ : Z) (st : double * Z), st = (0%float, 0)) as st Hst HP.
  - done.
  - intros period st Hperiod ->.
    rewrite autocorrelation_silent by (done || lia). simpl. eauto.
  - by subst st.
Qed.

Lemma pitch_scan_no_lag audio_frame min_period max_period :
  min_period < 0 ∨ vsize audio_frame ≤ min_period ∨ max_period < min_period →
  pitch_scan audio_frame min_period max_period = Some (0%float, 0).
Proof.
  intros Hc. unfold pitch_scan. destruct (Z.ltb_spec min_period 0); [done|].
  apply for_range_empty. lia.
Qed.

(** X16.  When [calculatePitch] reports no pitch.  It returns [0.0] for
    every silent frame (all samples [±0.0]), and for every frame no lag
    applies to: a frame of at most [⌊sr/maxHz⌋] samples, an empty range of
    lags, or a negative [⌊sr/maxHz⌋] (which, compared with the unsigned
    frame size, ends the scan at once).  And with [max_freq] or [min_freq]
    equal to zero the quotient is infinite or NaN for every sample rate, so
    its conversion to [int] is undefined. *)
Theorem calculatePitch_no_pitch audio_frame sample_rate min_freq max_freq :
  (∀ min_period max_period,
     double_to_int (sample_rate / max_freq)%float = Some min_period →
     double_to_int (sample_rate / min_freq)%float = Some max_period →
     silent audio_frame ∨ min_period < 0 ∨ vsize audio_frame ≤ min_period ∨
       max_period < min_period →
     calculatePitch audio_frame sample_rate min_freq max_freq = Some 0%float) ∧
  ((max_freq =? 0)%float = true ∨ (min_freq =? 0)%float = true →
   calculatePitch audio_frame sample_rate min_freq max_freq = None).
Proof.
  split.
  - intros min_period max_period Hmin Hmax Hc. unfold calculatePitch.
    rewrite Hmin, Hmax. simpl.
    assert (pitch_scan audio_frame min_period max_period = Some (0%float, 0)) as ->.
    { destruct Hc as [Hsil|Hc]; [by apply pitch_scan_silent|by apply pitch_scan_no_lag]. }
    done.
  - intros [Hz|Hz]; unfold calculatePitch.
    + by rewrite (div_zero_not_int _ _ Hz).
    + rewrite (div_zero_not_int sample_rate _ Hz).
      by destruct (double_to_int (sample_rate / max_freq)).
Qed.

(** *** The frames of [processAudioFrames] *)

Lemma vrange_Some {A} (v : list A) first last :
  0 ≤ first → first ≤ last → last ≤ vsize v →
  ∃ w, vrange v first last = Some w ∧ vsize w = last - first.
Proof.
  intros H1 H2 H3. unfold vrange.
  destruct (Z.leb_spec 0 first); [|lia]. destruct (Z.leb_spec first last); [|lia].
  destruct (Z.leb_spec last (vsize v)); [|lia]. simpl. eexists. split; [done|].
  unfold vsize in *. rewrite length_take, length_drop. lia.
Qed.

(** The number of frames from the offset [i] on. *)
Definition frames_left (size frame_length hop_size i : Z) : Z :=
  if i + frame_length <=? size then (size - frame_length - i) / hop_size + 1 else 0.

Lemma frames_left_step size frame_length hop_size i :
  0 < hop_size → i + frame_length ≤ size →
  frames_left size frame_length hop_size i
    = frames_left size frame_length hop_size (i + hop_size) + 1.
Proof.
  intros Hh Hfit. unfold frames_left.
  destruct (Z.leb_spec (i + frame_length) size); [|lia].
  destruct (Z.leb_spec (i + hop_size + frame_length) size).
  - replace (size - frame_length - i)
      with ((size - frame_length - (i + hop_size)) + 1 * hop_size) by lia.
    rewrite Z.div_add by lia. lia.
  - rewrite Z.div_small by lia. lia.
Qed.

Lemma frames_left_nonneg size frame_length hop_size i :
  0 < hop_size → 0 ≤ frames_left size frame_length hop_size i.
Proof.
  intros Hh. unfold frames_left. destruct (Z.leb_spec (i + frame_length) size); [|lia].
  pose proof (Z.div_pos (size - frame_length - i) hop_size). lia.
Qed.

Section Frames.
Context `{Cmath}.

Lemma dct_Some_size signal num_coeffs c :
  dct signal num_coeffs = Some c → vsize c = num_coeffs.
Proof.
  unfold dct, valloc. destruct (Z.leb_spec 0 num_coeffs); [|done]. simpl. intros E.
  apply (for_range_post (λ (_ : Z) (c : list double), vsize c = num_coeffs)) in E;
    [done|done|by apply vsize_vmake|].
  intros k c1 c2 Hk Hs Hbody.
  destruct (for_range 0 (vsize signal) _ 0%float) as [sum|]; [|done]. simpl in Hbody.
  apply vset_Some in Hbody as [_ ->]. by rewrite vsize_insert.
Qed.

(** On a frame of exactly [frame_length] samples [extractMFCC] returns
    [num_coeffs] coefficients. *)
Lemma extractMFCC_returns audio_frame frame_length num_coeffs bins :
  0 ≤ frame_length → 0 ≤ num_coeffs →
  bin_points frame_length SAMPLE_RATE = Some bins →
  Forall (λ b, 0 ≤ b ≤ frame_length ÷ 2 + 1) bins →
  vsize audio_frame = frame_length →
  ∃ mfcc, extractMFCC audio_frame frame_length num_coeffs = Some mfcc ∧
          vsize mfcc = num_coeffs.
Proof.
  intros HL Hc Hbins Hrange Hlen.
  destruct (pre_emphasis_total audio_frame) as (frame & Hpre & Hsz).
  destruct (hamming_window_total frame_length HL) as (window & Hwin & Hwsz).
  destruct (apply_window_total frame window frame_length Hwsz) as (frame' & Happ & Hsz').
  destruct (dft_total frame') as (spectrum & Hdft & Hspec).
  rewrite Hsz', Hsz, Hlen in Hspec.
  destruct (create_mel_filterbank_total frame_length SAMPLE_RATE bins HL Hbins Hrange)
    as (fb & Hfb & Hsh).
  unfold extractMFCC. rewrite Hpre. simpl. rewrite Hwin. simpl.
  rewrite Happ. simpl. rewrite Hdft. simpl. rewrite Hfb. simpl.
  destruct (mel_accumulate_total spectrum fb (frame_length ÷ 2 + 1) Hsh) as [me ->];
    [lia|].
  simpl. destruct (dct_total me num_coeffs Hc) as [mfcc Hm].
  exists mfcc. split; [done|]. by apply (dct_Some_size me).
Qed.

Lemma frames_loop_spec audio frame_length hop_size bins :
  0 ≤ frame_length → 0 < hop_size → vsize audio + hop_size < 2 ^ 31 →
  bin_points frame_length SAMPLE_RATE = Some bins →
  Forall (λ b, 0 ≤ b ≤ frame_length ÷ 2 + 1) bins →
  ∀ fuel i features,
    0 ≤ i → i + frame_length < 2 ^ 31 →
    frames_left (vsize audio) frame_length hop_size i ≤ Z.of_nat fuel →
    ∃ new,
      frames_loop fuel audio frame_length hop_size i features = Some (features ++ new) ∧
      vsize new = frames_left (vsize audio) frame_length hop_size i ∧
      ∀ j, 0 ≤ j < vsize new →
           ∃ frame mfcc,
             vrange audio (i + j * hop_size) (i + j * hop_size + frame_length) = Some frame ∧
             extractMFCC frame frame_length NUM_MFCC_COEFFS = Some mfcc ∧
             vsize mfcc = NUM_MFCC_COEFFS ∧ vget new j = Some mfcc.
Proof.
  intros HL Hh Hsize Hbins Hrange.
  induction fuel as [|fuel IH]; intros i features Hi Hint Hfuel.
  - pose proof (frames_left_nonneg (vsize audio) frame_length hop_size i Hh) as Hnn.
    assert (frames_left (vsize audio) frame_length hop_size i = 0) as Hz by lia.
    assert (vsize audio < i + frame_length) as Hout.
    { unfold frames_left in Hz. destruct (Z.leb_spec (i + frame_length) (vsize audio)); [|done].
      pose proof (Z.div_pos (vsize audio - frame_length - i) hop_size). lia. }
    exists []. simpl. unfold to_size_t.
    rewrite wrap_int_id by (unfold INT_MIN, INT_MAX; lia).
    rewrite Z.mod_small by lia.
    destruct (Z.leb_spec (i + frame_length) (vsize audio)); [lia|].
    rewrite app_nil_r. split; [done|]. split; [done|]. intros j Hj.
    unfold vsize in Hj. simpl in Hj. lia.
  - cbn [frames_loop]. unfold to_size_t.
    rewrite wrap_int_id by (unfold INT_MIN, INT_MAX; lia).
    rewrite Z.mod_small by lia.
    destruct (Z.leb_spec (i + frame_length) (vsize audio)) as [Hfit|Hout].
    + destruct (vrange_Some audio i (i + frame_length)) as (frame & Hframe & Hfs);
        [lia|lia|lia|].
      rewrite Hframe. simpl.
      destruct (extractMFCC_returns frame frame_length NUM_MFCC_COEFFS bins)
        as (mfcc & Hmfcc & Hms); try done; try lia.
      rewrite Hmfcc. simpl.
      rewrite wrap_int_id by (unfold INT_MIN, INT_MAX; lia).
      pose proof (frames_left_step (vsize audio) frame_length hop_size i Hh Hfit) as Hstep.
      destruct (IH (i + hop_size) (features ++ [mfcc])) as (new & Hnew & Hlen & Hframes);
        [lia|lia|lia|].
      exists (mfcc :: new). rewrite Hnew, <- app_assoc. split; [done|]. split.
      * unfold vsize in *. simpl. lia.
      * intros j Hj. destruct (decide (j = 0)) as [->|Hj0].
        -- exists frame, mfcc. rewrite Z.mul_0_l, Z.add_0_r. done.
        -- destruct (Hframes (j - 1)) as (fr & mf & Hfr & Hmf & Hmfs & Hget).
           { unfold vsize in *. simpl in Hj. lia. }
           exists fr, mf.
           replace (i + j * hop_size) with (i + hop_size + (j - 1) * hop_size) by lia.
           split; [done|]. split; [done|]. split; [done|].
           unfold vget in *. destruct (Z.leb_spec 0 j); [|lia].
           destruct (Z.leb_spec 0 (j - 1)); [|lia].
           replace (Z.to_nat j) with (Datatypes.S (Z.to_nat (j - 1))) by lia. done.
    + exists []. rewrite app_nil_r. split; [done|].
      unfold frames_left. destruct (Z.leb_spec (i + frame_length) (vsize audio)); [lia|].
      split; [done|]. intros j Hj. unfold vsize in Hj. simpl in Hj. lia.
Qed.

(** X17.  With a positive [hop_size] (and the mel bin indices inside a
    filterbank row, as for [extractMFCC]), [processAudioFrames] returns one
    feature vector per frame: [⌊(size - frame_length) / hop_size⌋ + 1]
    vectors when a frame fits the buffer, none otherwise.  Vector [j] holds
    the 13 coefficients [extractMFCC] computes from the samples
    [audio[j * hop_size .. j * hop_size + frame_length)], and no frame reaches
    outside the buffer. *)
Theorem processAudioFrames_frames audio frame_length hop_size bins :
  0 ≤ frame_length < 2 ^ 31 → 0 < hop_size → vsize audio + hop_size < 2 ^ 31 →
  bin_points frame_length SAMPLE_RATE = Some bins →
  Forall (λ b, 0 ≤ b ≤ frame_length ÷ 2 + 1) bins →
  ∃ features,
    processAudioFrames audio frame_length hop_size = Some features ∧
    vsize features =
      (if frame_length <=? vsize audio
       then (vsize audio - frame_length) / hop_size + 1 else 0) ∧
    ∀ j, 0 ≤ j < vsize features →
         ∃ frame mfcc,
           vrange audio (j * hop_size) (j * hop_size + frame_length) = Some frame ∧
           extractMFCC frame frame_length NUM_MFCC_COEFFS = Some mfcc ∧
           vsize mfcc = NUM_MFCC_COEFFS ∧ vget features j = Some mfcc.
Proof.
  intros HL Hh Hsize Hbins Hrange. unfold processAudioFrames.
  assert (0 ≤ vsize audio) as HN by apply Zle_0_nat.
  destruct (frames_loop_spec audio frame_length hop_size bins (proj1 HL) Hh Hsize Hbins
              Hrange (Z.to_nat (vsize audio + 1)) 0 [])
    as (new & Hnew & Hlen & Hframes); [lia|lia| |].
  - unfold frames_left. rewrite Z.add_0_l, Z.sub_0_r.
    destruct (Z.leb_spec frame_length (vsize audio)); [|lia].
    assert ((vsize audio - frame_length) / hop_size ≤ vsize audio - frame_length);
      [|lia].
    apply Z.div_le_upper_bound; [lia|]. nia.
  - exists new. simpl in Hnew. split; [done|]. split.
    + rewrite Hlen. unfold frames_left. by rewrite Z.add_0_l, Z.sub_0_r.
    + intros j Hj. destruct (Hframes j Hj) as (frame & mfcc & Hfr & Hrest).
      exists frame, mfcc. by rewrite Z.add_0_l in Hfr.
Qed.

(** X18.  With [hop_size = 0] and a frame that fits the buffer the loop of
    [processAudioFrames] never advances: whatever the number of iterations
    allowed, it does not return.  With a negative [hop_size] of at most
    [frame_length] in absolute value, the second frame starts before the
    buffer: the call does not return normally either. *)
Theorem processAudioFrames_no_progress audio frame_length hop_size :
  0 ≤ frame_length ≤ vsize audio → vsize audio < 2 ^ 31 →
  - frame_length ≤ hop_size ≤ 0 →
  processAudioFrames audio frame_length hop_size = None ∧
  (hop_size = 0 →
   ∀ fuel features, frames_loop fuel audio frame_length hop_size 0 features = None).
Proof.
  intros HL Hsize Hh.
  assert (∀ i, 0 ≤ i + frame_length ≤ vsize audio →
               (to_size_t (wrap_int (i + frame_length)) <=? vsize audio) = true) as Htest.
  { intros i Hi. unfold to_size_t.
    rewrite wrap_int_id by (unfold INT_MIN, INT_MAX; lia).
    rewrite Z.mod_small by lia. apply Z.leb_le. lia. }
  assert (hop_size = 0 →
          ∀ fuel features, frames_loop fuel audio frame_length hop_size 0 features = None)
    as Hzero.
  { intros ->. induction fuel as [|fuel IH]; intros features; cbn [frames_loop];
      rewrite Htest by lia; [done|].
    destruct (vrange audio 0 (0 + frame_length)) as [frame|]; [|done]. simpl.
    destruct (extractMFCC frame frame_length NUM_MFCC_COEFFS) as [mfcc|]; [|done]. simpl.
    change (wrap_int (0 + 0)) with 0. apply IH. }
  split; [|done].
  destruct (Z.eq_dec hop_size 0) as [E|Hne]; [by apply Hzero|].
  unfold processAudioFrames.
  replace (Z.to_nat (vsize audio + 1)) with (Datatypes.S (Z.to_nat (vsize audio))) by lia.
  cbn [frames_loop]. rewrite Htest by lia.
  destruct (vrange audio 0 (0 + frame_length)) as [frame|]; [|done]. simpl.
  destruct (extractMFCC frame frame_length NUM_MFCC_COEFFS) as [mfcc|]; [|done]. simpl.
  rewrite wrap_int_id by (unfold INT_MIN, INT_MAX; lia). rewrite Z.add_0_l.
  destruct (Z.to_nat (vsize audio)) as [|fuel] eqn:Efuel; [lia|].
  cbn [frames_loop]. rewrite Htest by lia.
  unfold vrange. destruct (Z.leb_spec 0 hop_size); [lia|]. done.
Qed.

End Frames.

(** Witness of X17: ten samples, frames of four samples every three. *)
Lemma processAudioFrames_frames_witness :
  let audio := [1; 2; 3; 4; 5; 6; 7; 8; 9; 10]%float in
  let bins := [0; 0; 0; 0; 0; 0; 0; 0; 0; 0; 0; 0; 0; 0; 0; 0; 0; 0; 0; 0; 0;
               1; 1; 1; 1; 1; 2; 2] in
  0 ≤ 4 < 2 ^ 31 ∧ 0 < 3 ∧ vsize audio + 3 < 2 ^ 31 ∧
  @bin_points RefCmath.cmath 4 SAMPLE_RATE = Some bins ∧
  Forall (λ b, 0 ≤ b ≤ 4 ÷ 2 + 1) bins ∧
  ∃ features, @processAudioFrames RefCmath.cmath audio 4 3 = Some features ∧
              vsize features = 3.
Proof.
  intros audio bins.
  assert (0 ≤ 4 < 2 ^ 31) as HL by lia. assert (0 < 3) as Hh by lia.
  assert (vsize audio + 3 < 2 ^ 31) as Hsize by (vm_compute; reflexivity).
  assert (@bin_points RefCmath.cmath 4 SAMPLE_RATE = Some bins) as Hbins
    by (vm_compute; reflexivity).
  assert (Forall (λ b, 0 ≤ b ≤ 4 ÷ 2 + 1) bins) as Hrange
    by (repeat constructor; vm_compute; congruence).
  split; [exact HL|]. split; [exact Hh|]. split; [exact Hsize|]. split; [exact Hbins|].
  split; [exact Hrange|].
  destruct (@processAudioFrames_frames RefCmath.cmath audio 4 3 bins
              HL Hh Hsize Hbins Hrange) as (features & Hf & Hlen & _).
  exists features. split; [exact Hf|]. rewrite Hlen. reflexivity.
Defined.

(** Witness of X18: [hop_size = 0] on a buffer of four samples. *)
Lemma processAudioFrames_no_progress_witness :
  0 ≤ 4 ≤ vsize [1; 2; 3; 4]%float ∧ vsize [1; 2; 3; 4]%float < 2 ^ 31 ∧ - 4 ≤ 0 ≤ 0 ∧
  @processAudioFrames RefCmath.cmath [1; 2; 3; 4]%float 4 0 = None.
Proof.
  assert (0 ≤ 4 ≤ vsize [1; 2; 3; 4]%float) as HL by (vm_compute; split; congruence).
  assert (vsize [1; 2; 3; 4]%float < 2 ^ 31) as Hsize by (vm_compute; reflexivity).
  assert (- 4 ≤ 0 ≤ 0) as Hh by lia.
  split; [exact HL|]. split; [exact Hsize|]. split; [exact Hh|].
  exact (proj1 (@processAudioFrames_no_progress RefCmath.cmath _ 4 0 HL Hsize Hh)).
Defined.
